(** * AutoPrompt trigger search: a shallow embedding and its properties

    The development follows [autoprompt/create_trigger.py] and [utils.py].
    Tensors are lists (a matrix is the list of its rows, a batch of token
    matrices the list of its examples); floating-point values are read as
    exact rationals ([Q]); Python dictionaries are [gmap]s with string
    keys; a raised exception is the result [None].

    Part I holds the embedding, Part II the lemmas and theorems. *)

From Stdlib Require Import ZArith QArith Qabs Lia Lqa Ascii.
From stdpp Require Import base option list gmap strings fin_maps pretty sorting.

Close Scope Q_scope.
Local Open Scope nat_scope.

(** * Part I: the embedding *)

(** ** Python built-ins used by the sources *)

Module Py.

(** [range(start, stop, step)]: [None] stands for the [ValueError] raised
    when [step] is zero. *)
Definition range (start stop step : Z) : option (list Z) :=
  if decide (step = 0)%Z then None
  else
    let len :=
      if decide (0 < step)%Z
      then (if decide (start < stop)%Z then (stop - start - 1) / step + 1 else 0)%Z
      else (if decide (stop < start)%Z then (start - stop - 1) / (- step) + 1 else 0)%Z in
    Some (map (λ k : nat, (start + Z.of_nat k * step)%Z) (seq 0 (Z.to_nat len))).

(** [l[start:stop]] for bounds that are not negative (the only ones the
    sources produce). *)
Definition slice {A} (l : list A) (start stop : Z) : list A :=
  take (Z.to_nat (stop - start)) (drop (Z.to_nat start) l).

(** [random.randrange(n)] with the drawn number [r] made explicit;
    [None] is the [ValueError] raised for an empty range. *)
Definition randrange (r : nat) (n : nat) : option nat :=
  if decide (n = 0) then None else Some (r mod n).

(** [sub in s] on strings. *)
Fixpoint contains (sub s : string) : bool :=
  String.prefix sub s
  || match s with
     | EmptyString => false
     | String _ s' => contains sub s'
     end.

(** [s.split(sep)] for a one-character separator. *)
Fixpoint split (sep : Ascii.ascii) (s : string) : list string :=
  match s with
  | EmptyString => [EmptyString]
  | String c s' =>
      if Ascii.eqb c sep then EmptyString :: split sep s'
      else match split sep s' with
           | [] => [String c EmptyString]
           | x :: xs => String c x :: xs
           end
  end.

(** [s.replace(old, new)] on sequences of code points, for a non-empty
    [old]: occurrences are replaced from the left and do not overlap.
    [skip] counts the characters of a matched occurrence still to drop. *)
Fixpoint replace_aux (old new : list N) (skip : nat) (s : list N) : list N :=
  match s with
  | [] => []
  | c :: s' =>
      match skip with
      | S k => replace_aux old new k s'
      | O =>
          if bool_decide (old `prefix_of` s)
          then new ++ replace_aux old new (length old - 1) s'
          else c :: replace_aux old new 0 s'
      end
  end.

Definition replace (old new s : list N) : list N := replace_aux old new 0 s.

End Py.

(** A Python string whose content matters character by character (what
    [json.dumps] receives) is the list of its code points. *)
Abbreviation pystr := (list N) (only parsing).

(** ** Tensor operations *)

Module Torch.

(** The [k]-th run of [n] consecutive elements of a flat tensor. *)
Definition window {A} (n : nat) (l : list A) (k : nat) : list A :=
  take n (drop (k * n) l).

Definition count_true (m : list bool) : nat := length (filter (λ b, b = true) m).

Definition shape_eqb {A B} (t : list (list A)) (m : list (list B)) : bool :=
  bool_decide (length t = length m)
  && forallb (λ p, bool_decide (length p.1 = length p.2)) (zip t m).

(** One row of [Tensor.masked_scatter]: the elements of [source] are
    copied, in order, to the positions where [mask] is set; the unused part
    of [source] is returned with the row.  [None]: [source] ran out of
    elements, or the row and its mask differ in length. *)
Fixpoint scatter_row {A} (row : list A) (mask : list bool) (source : list A)
    : option (list A * list A) :=
  match row, mask with
  | [], [] => Some ([], source)
  | x :: row', b :: mask' =>
      if b then
        match source with
        | [] => None
        | s :: source' =>
            '(r, rest) ← scatter_row row' mask' source'; Some (s :: r, rest)
        end
      else '(r, rest) ← scatter_row row' mask' source; Some (x :: r, rest)
  | _, _ => None
  end.

(** The rows of [Tensor.masked_scatter] for a matrix and a mask of one
    shape: the elements of the flattened [source] go, in order, to the set
    positions.  [None]: [source] has fewer elements than the mask has set
    positions. *)
Fixpoint scatter_rows {A} (input : list (list A)) (mask : list (list bool))
    (source : list A) : option (list (list A)) :=
  match input, mask with
  | [], [] => Some []
  | row :: input', m :: mask' =>
      '(r, rest) ← scatter_row row m source;
      rows ← scatter_rows input' mask' rest;
      Some (r :: rows)
  | _, _ => None
  end.

(** The shape of a matrix that has a row (a tensor without rows does not
    record its width); [None] also for rows of several lengths, which no
    tensor has. *)
Definition dims {A} (t : list (list A)) : option (nat * nat) :=
  match t with
  | [] => None
  | row :: rows =>
      if forallb (λ r, bool_decide (length r = length row)) rows
      then Some (S (length rows), length row)
      else None
  end.

(** Broadcasting of one dimension: the sizes agree or one of them is 1. *)
Definition broadcast_dim (n m : nat) : option nat :=
  if decide (n = m) then Some n
  else if decide (n = 1) then Some m
  else if decide (m = 1) then Some n
  else None.

(** [t.expand(rows, cols)] on a matrix that can be broadcast to that
    shape: a single row, a single column or both are repeated. *)
Definition expand {A} (t : list (list A)) (rows cols : nat) : list (list A) :=
  let t := match t with [row] => replicate rows row | _ => t end in
  map (λ row, match row with [x] => replicate cols x | _ => row end) t.

(** [input.masked_scatter(mask, source)] for a matrix [input], a mask and
    the flattened [source].  The out-of-place operation first broadcasts
    [input] and [mask] to a common shape.  [None] is the [RuntimeError] of
    shapes that cannot be broadcast or of a source with fewer elements
    than the mask has set positions.  Of the tensors without rows only
    those of the shape of their mask are covered. *)
Definition masked_scatter {A} (input : list (list A)) (mask : list (list bool))
    (source : list A) : option (list (list A)) :=
  if shape_eqb input mask then scatter_rows input mask source
  else
    '(r1, c1) ← dims input;
    '(r2, c2) ← dims mask;
    rows ← broadcast_dim r1 r2;
    cols ← broadcast_dim c1 c2;
    scatter_rows (expand input rows cols) (expand mask rows cols) source.

(** [t.repeat(n, 1)] for a one-row tensor given by its row, flattened. *)
Definition repeat_row {A} (row : list A) (n : nat) : list A :=
  concat (replicate n row).

(** The entries of one example selected by its mask row (each selected
    position contributes its whole last dimension). *)
Definition select_row {A} (row : list (list A)) (mask : list bool) : list A :=
  concat (fst <$> filter (λ p, p.2 = true) (zip row mask)).

(** [t.masked_select(mask.unsqueeze(-1))] for a 3-D tensor [t] and a 2-D
    mask: the selected entries in row-major order, as a 1-D tensor. *)
Definition masked_select_unsqueeze {A} (t : list (list (list A)))
    (mask : list (list bool)) : option (list A) :=
  if shape_eqb t mask then Some (concat (zip_with select_row t mask)) else None.

(** [flat.view(n, -1)].  [None]: the size is not a multiple of [n], or [n]
    is zero (PyTorch refuses to infer the other dimension). *)
Definition view_rows {A} (n : nat) (flat : list A) : option (list (list A)) :=
  if decide (n = 0) then None
  else if decide (length flat mod n = 0)
       then Some (map (window (length flat / n) flat) (seq 0 n))
       else None.

(** [flat.view(b, t, e)]. *)
Definition view3 {A} (b t e : nat) (flat : list A) : option (list (list (list A))) :=
  if decide (length flat = b * t * e)
  then Some (map (λ i, map (λ j, window e flat (i * t + j)) (seq 0 t)) (seq 0 b))
  else None.

Definition zeros (t e : nat) : list (list Q) := replicate t (replicate e 0%Q).

Definition add2 (x y : list (list Q)) : list (list Q) :=
  zip_with (zip_with Qplus) x y.

Definition div2 (x : list (list Q)) (n : nat) : list (list Q) :=
  map (map (λ v, v / inject_Z (Z.of_nat n))%Q) x.

(** [g.sum(dim=0)] for a tensor of shape [(b, t, e)]. *)
Definition sum_dim0 (t e : nat) (g : list (list (list Q))) : list (list Q) :=
  foldr add2 (zeros t e) g.

Definition sum1 (v : list Q) : Q := foldr Qplus 0%Q v.

Definition dot (u v : list Q) : Q := sum1 (zip_with Qmult u v).

(** [torch.matmul(m, v)] for a matrix and a vector. *)
Definition matmul (m : list (list Q)) (v : list Q) : option (list Q) :=
  if forallb (λ row, bool_decide (length row = length v)) m
  then Some (map (λ row, dot row v) m)
  else None.

(** [x -= y] for two vectors of one length. *)
Definition sub1 (x y : list Q) : option (list Q) :=
  if decide (length x = length y) then Some (zip_with Qminus x y) else None.

Definition score_ge (p q : nat * Q) : Prop := (q.2 <= p.2)%Q.

#[global] Instance score_ge_dec : RelDecision score_ge.
Proof.
  intros p q. unfold score_ge.
  destruct (Qlt_le_dec p.2 q.2) as [H|H].
  - right. by apply Qlt_not_le.
  - by left.
Defined.

(** [v.topk(k)]: the indices of the [k] largest entries, largest first.
    [None] is the [RuntimeError] for [k] out of range.  PyTorch leaves the
    order among equal entries open; here the order is that of a merge
    sort of the indexed entries. *)
Definition topk (v : list Q) (k : nat) : option (list nat) :=
  if decide (k ≤ length v)
  then Some (take k (fst <$> merge_sort score_ge (imap (λ i x, (i, x)) v)))
  else None.

Fixpoint argmax_from (i : nat) (best : nat * Q) (v : list Q) : nat :=
  match v with
  | [] => best.1
  | x :: v' =>
      if Qlt_le_dec best.2 x then argmax_from (S i) (i, x) v'
      else argmax_from (S i) best v'
  end.

(** [v.argmax()]: the index of the first maximal entry. *)
Definition argmax (v : list Q) : option nat :=
  match v with
  | [] => None
  | x :: v' => Some (argmax_from 1 (0, x) v')
  end.

(** [t[i] = v] on a 1-D tensor; [None] is the [IndexError]. *)
Definition set_index {A} (t : list A) (i : nat) (v : A) : option (list A) :=
  if decide (i < length t) then Some (<[i := v]> t) else None.

End Torch.

(** ** [utils.iterate_batches] *)

(** The generator is modelled by the list of the values it yields.
    [np_array] is [np.array] on a list: it gives the array by its entries
    along the first axis, converted to the element type NumPy settles on,
    or raises.  [indices] is the permutation that [np.random.shuffle]
    leaves in [indices]; it is only read when [shuffle] is set. *)
Definition iterate_batches {A B} (np_array : list A → option (list B))
    (indices : list nat) (inputs : list A) (batch_size : Z) (shuffle : bool)
    : option (list (list B)) :=
  let size := Z.of_nat (length inputs) in
  inputs ← np_array inputs;
  starts ← Py.range 0 size batch_size;
  mapM (λ start_idx,
          let end_idx := Z.min (start_idx + batch_size) size in
          if shuffle
          then mapM (λ i, inputs !! i) (Py.slice indices start_idx end_idx)
          else Some (Py.slice inputs start_idx end_idx))
       starts.

(** *** [np.array] on a list of Python integers *)

(** The entries of the array [np.array] builds from a list of Python
    integers (on a platform whose default integer has 64 bits): every
    integer asks for [int64], for [uint64] when it only fits there, and
    for [object] when it fits neither; the array takes the common type,
    which for [int64] together with [uint64] is [float64]. *)
Inductive np_scalar :=
  | np_int64 (z : Z)
  | np_uint64 (z : Z)
  | np_float64 (q : Q)
  | np_object (z : Z).

Inductive np_dtype := dt_int64 | dt_uint64 | dt_float64 | dt_object.

#[global] Instance np_dtype_eq_dec : EqDecision np_dtype.
Proof. solve_decision. Defined.

Definition int_dtype (z : Z) : np_dtype :=
  if decide (- 2 ^ 63 ≤ z < 2 ^ 63)%Z then dt_int64
  else if decide (2 ^ 63 ≤ z < 2 ^ 64)%Z then dt_uint64
  else dt_object.

Definition promote (d1 d2 : np_dtype) : np_dtype :=
  match d1, d2 with
  | dt_object, _ | _, dt_object => dt_object
  | dt_float64, _ | _, dt_float64 => dt_float64
  | dt_int64, dt_int64 => dt_int64
  | dt_uint64, dt_uint64 => dt_uint64
  | dt_int64, dt_uint64 | dt_uint64, dt_int64 => dt_float64
  end.

(** The double nearest to an integer below [2^1024] in absolute value,
    ties going to the even significand. *)
Definition round_to_double (z : Z) : Z :=
  let a := Z.abs z in
  if decide (a < 2 ^ 53)%Z then z
  else
    let e := (Z.log2 a - 52)%Z in
    let m := (a / 2 ^ e)%Z in
    let r := (a mod 2 ^ e)%Z in
    let half := (2 ^ (e - 1))%Z in
    let m' := if decide (half < r ∨ (r = half ∧ Z.odd m = true))%Z
              then (m + 1)%Z else m in
    (Z.sgn z * (m' * 2 ^ e))%Z.

Definition np_array_ints (l : list Z) : option (list np_scalar) :=
  match l with
  | [] => Some []
  | z :: l' =>
      Some match foldr (λ z d, promote (int_dtype z) d) (int_dtype z) l' with
           | dt_int64 => map np_int64 l
           | dt_uint64 => map np_uint64 l
           | dt_float64 => map (λ z, np_float64 (inject_Z (round_to_double z))) l
           | dt_object => map np_object l
           end
  end.

(** The number an entry stands for. *)
Definition np_value (x : np_scalar) : Q :=
  match x with
  | np_int64 z | np_uint64 z | np_object z => inject_Z z
  | np_float64 q => q
  end.

(** ** The language model, an opaque collaborator *)

(** The entries of a model-inputs dictionary are integer tensors (token
    ids, attention masks) or boolean masks, all of shape [(bsz, seq)]. *)
Inductive tensor :=
  | TInt (ids : list (list Z))
  | TBool (mask : list (list bool)).

Inductive lm_type := masked | causal | seq2seq.

#[global] Instance lm_type_eq_dec : EqDecision lm_type.
Proof. solve_decision. Defined.

Definition LM_TYPE : gmap string lm_type :=
  list_to_map
    [ ("roberta-base", masked);
      ("roberta-large", masked);
      ("allenai/longformer-base-4096", masked);
      ("allenai/longformer-large-4096", masked);
      ("distilroberta-base", masked);
      ("bert-base-cased", masked);
      ("bert-large-cased", masked);
      ("distilbert-base-cased", masked);
      ("gpt2-medium", causal);
      ("gpt2-large", causal);
      ("gpt2-xl", causal);
      ("xlnet-base-cased", causal);
      ("xlnet-large-cased", causal);
      ("facebook/bart-base", masked);
      ("facebook/bart-large", masked);
      ("t5-small", seq2seq);
      ("t5-base", seq2seq);
      ("t5-large", seq2seq);
      ("google/t5-v1_1-base", seq2seq);
      ("facebook/opt-350m", causal);
      ("facebook/opt-1.3b", causal);
      ("facebook/opt-6.7b", causal);
      ("facebook/opt-13b", causal);
      ("facebook/opt-30b", causal);
      ("facebook/opt-66b", causal);
      ("facebook/opt-iml-max-30b", causal);
      ("facebook/opt-iml-max-1.3b", causal);
      ("facebook/galactica-6.7b", causal);
      ("facebook/galactica-30b", causal) ].

(** What the sources use of the pretrained model:
    - [forward kwargs] is the [logits] field of the model's output on the
      keyword arguments [kwargs], of shape
      [(bsz, seq, vocab)], or [None] when the model raises; the model reads
      its arguments and changes none of them;
    - [embeddings_weight] is [embeddings.weight], of shape [(vocab, emb)];
    - [backward_hook model_inputs trigger_ids labels] is the gradient
      [grad_out[0]], of shape [(bsz, seq, emb)], that the backward hook on
      the embedding module receives when the loss of the forward pass on
      [model_inputs] with [trigger_ids], against [labels], is
      back-propagated. *)
Record language_model := LanguageModel {
  name_or_path : string;
  forward : gmap string tensor → option (list (list (list Q)));
  embeddings_weight : list (list Q);
  backward_hook :
    gmap string tensor → list Z → list (list Z) → list (list (list Q));
}.

(** ** [GradientStorage] *)

Record GradientStorage := mkGradientStorage {
  _stored_gradient : option (list (list (list Q)));
}.

Definition GradientStorage_init : GradientStorage :=
  {| _stored_gradient := None |}.

Definition GradientStorage_hook (self : GradientStorage)
    (grad_out0 : list (list (list Q))) : GradientStorage :=
  {| _stored_gradient := Some grad_out0 |}.

Definition GradientStorage_get (self : GradientStorage)
    : option (list (list (list Q))) :=
  _stored_gradient self.

(** ** [hotflip_attack] *)

Definition hotflip_attack (averaged_grad : list Q)
    (embedding_matrix : list (list Q)) (increase_loss : bool)
    (num_candidates : nat) (filter : option (list Q)) : option (list nat) :=
  gradient_dot_embedding_matrix ← Torch.matmul embedding_matrix averaged_grad;
  gradient_dot_embedding_matrix ←
    match filter with
    | Some f => Torch.sub1 gradient_dot_embedding_matrix f
    | None => Some gradient_dot_embedding_matrix
    end;
  let gradient_dot_embedding_matrix :=
    if increase_loss then gradient_dot_embedding_matrix
    else map (λ x, x * (-1))%Q gradient_dot_embedding_matrix in
  Torch.topk gradient_dot_embedding_matrix num_candidates.

(** ** Python objects: dictionaries and the tensors they refer to *)

(** A dictionary holds references to tensors; [dict.copy()] copies the
    references, not the tensors.  Computations thread the store and keep it
    when they raise. *)
Module Heap.

Definition loc := nat.

Record heap := mkHeap {
  dicts : gmap loc (gmap string loc);
  tensors : gmap loc tensor;
}.

Definition empty : heap := mkHeap ∅ ∅.

Definition M (A : Type) : Type := heap → option A * heap.

#[global] Instance M_ret : MRet M := λ A x h, (Some x, h).

#[global] Instance M_bind : MBind M := λ A B f c h,
  match c h with
  | (Some x, h') => f x h'
  | (None, h') => (None, h')
  end.

(** A pure computation that may raise. *)
Definition lift {A} (o : option A) : M A := λ h, (o, h).

(** [d.copy()] *)
Definition dict_copy (d : loc) : M loc := λ h,
  match dicts h !! d with
  | Some m =>
      let d' := fresh (dom (dicts h)) in
      (Some d', mkHeap (<[d' := m]> (dicts h)) (tensors h))
  | None => (None, h)
  end.

(** [d[k]]; [None] is the [KeyError]. *)
Definition dict_getitem (d : loc) (k : string) : M loc := λ h,
  (m ← dicts h !! d; m !! k, h).

(** [d.pop(k)]; [None] is the [KeyError]. *)
Definition dict_pop (d : loc) (k : string) : M loc := λ h,
  match dicts h !! d with
  | Some m =>
      match m !! k with
      | Some v => (Some v, mkHeap (<[d := delete k m]> (dicts h)) (tensors h))
      | None => (None, h)
      end
  | None => (None, h)
  end.

(** [d[k] = v] *)
Definition dict_setitem (d : loc) (k : string) (v : loc) : M unit := λ h,
  match dicts h !! d with
  | Some m => (Some (), mkHeap (<[d := <[k := v]> m]> (dicts h)) (tensors h))
  | None => (None, h)
  end.

(** A tensor returned by an operation that is not in place. *)
Definition tensor_alloc (t : tensor) : M loc := λ h,
  let l := fresh (dom (tensors h)) in
  (Some l, mkHeap (dicts h) (<[l := t]> (tensors h))).

Definition tensor_read (l : loc) : M tensor := λ h, (tensors h !! l, h).

(** The keyword arguments unpacked from [d]: the tensors its entries
    refer to. *)
Definition dict_view (d : loc) : M (gmap string tensor) := λ h,
  ((λ m : gmap string loc, omap (λ l, tensors h !! l) m) <$> dicts h !! d, h).

(** The store that holds one dictionary, at location [0], and its tensors:
    what [{k: v.to(device) for k, v in model_inputs.items()}] builds. *)
Definition of_dict (mi : gmap string tensor) : heap :=
  let entries := map_to_list mi in
  mkHeap
    {[ 0 := list_to_map (imap (λ i p, (p.1, S i)) entries) ]}
    (list_to_map (imap (λ i p, (S i, p.2)) entries)).

End Heap.

Import Heap.

(** ** [replace_trigger_tokens] *)

(** [trigger_ids] is the [(1, T)] tensor of trigger ids, given by its row;
    [model_inputs] and [trigger_mask] are references.  The [try] block
    catches the [RuntimeError] of [masked_scatter], which also covers a
    mask or input of the wrong type. *)
Definition replace_trigger_tokens (model_inputs : loc) (trigger_ids : list Z)
    (trigger_mask : loc) : M loc :=
  out ← dict_copy model_inputs;
  input_ids ← dict_getitem model_inputs "input_ids";
  mask ← tensor_read trigger_mask;
  ids ← tensor_read input_ids;
  filled ←
    match ids, mask with
    | TInt ids, TBool mask =>
        let trigger_ids := Torch.repeat_row trigger_ids (length mask) in
        match Torch.masked_scatter ids mask trigger_ids with
        | Some filled => tensor_alloc (TInt filled)
        | None => mret input_ids
        end
    | TInt _, TInt _ | TBool _, _ => mret input_ids
    end;
  _ ← dict_setitem out "input_ids" filled;
  mret out.

(** ** [PredictWrapper.__call__] *)

Definition PredictWrapper_call (self : language_model) (model_inputs : loc)
    (trigger_ids : list Z) : M (list (list Q)) :=
  model_inputs ← dict_copy model_inputs;
  trigger_mask ← dict_pop model_inputs "trigger_mask";
  predict_mask ← dict_pop model_inputs "predict_mask";
  last_trigger_mask ← dict_pop model_inputs "last_trigger_mask";
  lm ← lift (LM_TYPE !! name_or_path self);
  let predict_mask :=
    if decide (lm = causal) then last_trigger_mask else predict_mask in
  model_inputs ← replace_trigger_tokens model_inputs trigger_ids trigger_mask;
  _ ← (if Py.contains "t5" (name_or_path self)
       then input_ids ← dict_getitem model_inputs "input_ids";
            dict_setitem model_inputs "labels" input_ids
       else mret ());
  kwargs ← dict_view model_inputs;
  logits ← lift (forward self kwargs);
  mask ← tensor_read predict_mask;
  match mask with
  | TBool mask =>
      lift (flat ← Torch.masked_select_unsqueeze logits mask;
            Torch.view_rows (length logits) flat)
  | TInt _ => lift None
  end.

(** The predictor applied to a batch given by value: in [run_model] every
    batch is first rebuilt as a new dictionary. *)
Definition predictor (self : language_model) (model_inputs : gmap string tensor)
    (trigger_ids : list Z) : option (list (list Q)) :=
  (PredictWrapper_call self 0 trigger_ids (of_dict model_inputs)).1.

(** ** [get_loss] *)

(** [F.log_softmax] and [torch.logsumexp] along the last dimension are not
    rational functions; they are taken as given. *)
Record float_fns := FloatFns {
  log_softmax : list Q → list Q;
  logsumexp : list Q → Q;
}.

(** One entry of [t.gather(-1, ids)]; [None] is the error raised for an
    index out of range. *)
Definition gather (row : list Q) (id : Z) : option Q :=
  if decide (0 ≤ id)%Z then row !! Z.to_nat id else None.

Definition get_loss_row (F : float_fns) (logits : list Q) (label_ids : list Z)
    : option Q :=
  let predict_logp := log_softmax F logits in
  target_logp ← mapM (gather predict_logp) label_ids;
  let target_logp :=
    zip_with
      (λ lp id, lp - inject_Z (10 ^ 32) * (if decide (id = 0)%Z then 1 else 0))%Q
      target_logp label_ids in
  Some (- logsumexp F target_logp)%Q.

(** [gather] accepts an index tensor with fewer rows than its input. *)
Definition get_loss (F : float_fns) (predict_logits : list (list Q))
    (label_ids : list (list Z)) : option (list Q) :=
  if decide (length label_ids ≤ length predict_logits)
  then mapM (λ p, get_loss_row F p.1 p.2) (zip predict_logits label_ids)
  else None.

(** ** [AccuracyFn] *)

(** [_all_label_ids] holds [(1, L)] tensors, each given by its row. *)
Record AccuracyFn := mkAccuracyFn {
  _all_label_ids : list (list Z);
  _pred_to_label : list string;
}.

(** [encode_label] is [utils.encode_label] partially applied to the
    tokenizer. *)
Definition AccuracyFn_init {tokens} (encode_label : tokens → list Z)
    (label_map : list (string * tokens)) : AccuracyFn :=
  {| _all_label_ids := map (λ p, encode_label p.2) label_map;
     _pred_to_label := map fst label_map |}.

(** [torch.stack(cols, dim=-1)] for vectors of length [bsz]; [None] is the
    error raised for an empty list or for vectors of another length. *)
Definition stack_last {A} (bsz : nat) (cols : list (list A))
    : option (list (list A)) :=
  match cols with
  | [] => None
  | _ => if forallb (λ col, bool_decide (length col = bsz)) cols
         then mapM (λ b, mapM (λ col : list A, col !! b) cols) (seq 0 bsz)
         else None
  end.

(** Broadcasting of two tensors along their first dimension. *)
Definition broadcast2 {A B} (xs : list A) (ys : list B) : option (list (A * B)) :=
  if decide (length xs = length ys) then Some (zip xs ys)
  else match xs, ys with
       | [x], _ => Some (map (λ y, (x, y)) ys)
       | _, [y] => Some (map (λ x, (x, y)) xs)
       | _, _ => None
       end.

Definition Qleb (x y : Q) : bool := if Qlt_le_dec y x then false else true.

(** The number of entries of [row] that are at most [g]:
    [row.le(g).sum(-1)]. *)
Definition le_count (row : list Q) (g : Q) : nat :=
  length (filter (λ l, Qleb l g = true) row).

Definition AccuracyFn_call (F : float_fns) (self : AccuracyFn)
    (predict_logits : list (list Q)) (gold_label_ids : list (list Z))
    : option (list Q) :=
  gold_logp ← get_loss F predict_logits gold_label_ids;
  let bsz := length predict_logits in
  all_label_logp ←
    mapM (λ label_ids, get_loss F predict_logits (replicate bsz label_ids))
         (_all_label_ids self);
  all_label_logp ← stack_last bsz all_label_logp;
  predictions ←
    mapM (λ row, x ← Torch.argmax row; _pred_to_label self !! x) all_label_logp;
  pairs ← broadcast2 all_label_logp gold_logp;
  let ge_count := map (λ p, le_count p.1 p.2) pairs in
  let correct := map (λ c, bool_decide (c ≤ 1)) ge_count in
  Some (map (λ b : bool, if b then 1%Q else 0%Q) correct).

(** The evaluation function [run_model] selects: the accuracy when a label
    map is given, the negated loss otherwise. *)
Definition evaluation_fn (F : float_fns) (accuracy : option AccuracyFn)
    (predict_logits : list (list Q)) (labels : list (list Z)) : option (list Q) :=
  match accuracy with
  | Some fn => AccuracyFn_call F fn predict_logits labels
  | None => map Qopp <$> get_loss F predict_logits labels
  end.

(** ** The tokenizer and the templatizer, opaque collaborators *)

Record tokenizer := Tokenizer {
  tokenizer_name_or_path : string;
  mask_token_id : Z;
  convert_tokens_to_ids : list pystr → list Z;
  convert_ids_to_tokens : list Z → list pystr;
  decode : list Z → pystr;
  lama_y : pystr;
  get_vocab : list (pystr * Z);
  tokenizer_vocab_size : Z;
  all_special_ids : list Z;
}.

(** [utils.TriggerTemplatizer]: its attribute [num_trigger_tokens] and its
    call on the fields of one example, which returns the model inputs and
    the label ids or raises. *)
Record TriggerTemplatizer := mkTriggerTemplatizer {
  num_trigger_tokens : nat;
  templatize : list (string * pystr) → option (gmap string tensor * list (list Z));
}.

(** A collated batch: the model inputs and the label ids. *)
Definition batch : Type := gmap string tensor * list (list Z).

Module Args.

(** The parsed command line, as far as the search reads it.
    [train_parent_stem] is [args.train.parent.stem]; [label_map] is the
    decoded JSON object, in the order of its keys. *)
Record t := mk {
  seed : Z;
  model_name : string;
  output : string;
  template : option string;
  train_parent_stem : pystr;
  label_map : option (list (string * list pystr));
  filter : bool;
  print_lama : bool;
  use_ctx : bool;
  initial_trigger : option (list pystr);
  iters : nat;
  accumulation_steps : nat;
  num_cand : nat;
  num_trigger_tokens : nat;
  fast_tokenizer : Z;
}.

End Args.

(** What [run_model] obtains from the libraries and the data files.
    [vocab_size] is [config.vocab_size]; [str_isupper] is [str.isupper] on
    a string of one character, which the Unicode tables decide;
    [train_dataset] holds the examples of the training file as the
    templatizer returns them. *)
Record environment := Env {
  model : language_model;
  tok : tokenizer;
  float : float_fns;
  vocab_size : nat;
  TriggerTemplatizer_init : string → TriggerTemplatizer;
  encode_label : list pystr → list Z;
  str_isupper : N → bool;
  train_dataset : list batch;
  dev_loader : list batch;
}.

(** The random choices of one iteration: the batches the shuffling
    [train_loader] yields for the gradient pass and for the scoring pass,
    and the number behind [random.randrange]. *)
Record draw := Draw {
  grad_batches : list batch;
  eval_batches : list batch;
  rand : nat;
}.

(** ** [run_model]: set-up *)

Definition str_repeat (s : string) (n : nat) : string :=
  foldr String.append EmptyString (replicate n s).

(** Lines 288-299.  When [args.template] is not the empty string the
    variable [template] is read before it is bound, and Python raises. *)
Definition build_template (a : Args.t) : option string :=
  match Args.template a with
  | Some EmptyString =>
      let trigger_str :=
        if decide (Args.fast_tokenizer a = 0)%Z then " [T] " else " [T]" in
      let template := str_repeat trigger_str (Args.num_trigger_tokens a) in
      let template := ("{sub_label}" +:+ template +:+ " [P].") in
      Some (if Py.contains "bert" (Args.model_name a)
            then "[CLS]" +:+ template +:+ "[SEP]"
            else template)
  | _ => None
  end.

(** Lines 314-322; [None] is the failed assertion. *)
Definition initial_trigger_ids (tk : tokenizer) (templatizer : TriggerTemplatizer)
    (a : Args.t) : option (list Z) :=
  match Args.initial_trigger a with
  | Some ((_ :: _) as tokens) =>
      let trigger_ids := convert_tokens_to_ids tk tokens in
      if decide (length trigger_ids = num_trigger_tokens templatizer)
      then Some trigger_ids else None
  | Some [] | None =>
      Some (replicate (num_trigger_tokens templatizer) (mask_token_id tk))
  end.

(** Lines 328-331: a label map that is [None] or empty is falsy. *)
Definition select_evaluation (E : environment) (a : Args.t) : option AccuracyFn :=
  match Args.label_map a with
  | Some ((_ :: _) as label_map) => Some (AccuracyFn_init (encode_label E) label_map)
  | Some [] | None => None
  end.

(** ** [isupper] and the filter of candidate tokens *)

Definition BPE_TOKENIZERS : list string :=
  ["facebook/bart-base"; "facebook/bart-large";
   "roberta-large"; "roberta-base";
   "gpt2"; "gpt2-medium"; "gpt2-large"; "gpt2-xl";
   "facebook/opt-350m"; "facebook/opt-1.3b"; "facebook/opt-6.7b";
   "facebook/opt-iml-max-1.3b"].

(** Lines 236-258; [None] is the [IndexError] of [decoded[0]] or
    [decoded[1]].  The [and] does not read [decoded[1]] when [decoded[0]]
    is not a space. *)
Definition isupper (str_isupper : N → bool) (idx : Z) (tk : tokenizer)
    : option bool :=
  if bool_decide (tokenizer_name_or_path tk ∈ BPE_TOKENIZERS) then
    let decoded := decode tk [idx] in
    c0 ← decoded !! 0;
    if decide (c0 = 32%N)
    then c1 ← decoded !! 1; Some (str_isupper c1)
    else Some false
  else
    c0 ← decode tk [idx] !! 0;
    Some (str_isupper c0).

(** The position an index stands for in a tensor of [len] entries: a
    negative index counts from the end; [None] is the [IndexError]. *)
Definition position (len : nat) (i : Z) : option nat :=
  if decide (0 ≤ i < Z.of_nat len)%Z then Some (Z.to_nat i)
  else if decide (- Z.of_nat len ≤ i < 0)%Z then Some (Z.to_nat (i + Z.of_nat len))
  else None.

Definition minus_1e32 : Q := (- inject_Z (10 ^ 32))%Q.

(** [filter[i] = -1e32] *)
Definition filter_out (filter : list Q) (i : Z) : option (list Q) :=
  pos ← position (length filter) i;
  Some (<[pos := minus_1e32]> filter).

(** [filter[ids] = -1e32] for a tensor of indices *)
Fixpoint filter_out_all (filter : list Q) (ids : list Z) : option (list Q) :=
  match ids with
  | [] => Some filter
  | i :: ids => filter ← filter_out filter i; filter_out_all filter ids
  end.

(** Lines 365-374: one round of the loop over the vocabulary. *)
Definition filter_word (E : environment) (filter : list Q) (entry : pystr * Z)
    : option (list Q) :=
  let '(word, idx) := entry in
  if decide (length word = 1 ∨ (tokenizer_vocab_size (tok E) ≤ idx)%Z)
  then Some filter
  else
    filter ← (if bool_decide (idx ∈ all_special_ids (tok E))
              then filter_out filter idx else Some filter);
    upper ← isupper (str_isupper E) idx (tok E);
    if (upper : bool) then filter_out filter idx else Some filter.

Fixpoint filter_vocab (E : environment) (filter : list Q)
    (vocab : list (pystr * Z)) : option (list Q) :=
  match vocab with
  | [] => Some filter
  | entry :: vocab => filter ← filter_word E filter entry; filter_vocab E filter vocab
  end.

(** Lines 356-362: the label ids, of the label map when there is one and
    of the training examples otherwise. *)
Definition label_token_ids (E : environment) (a : Args.t) : list Z :=
  match Args.label_map a with
  | Some ((_ :: _) as label_map) =>
      concat (map (λ p, encode_label E p.2) label_map)
  | Some [] | None =>
      concat (map (λ example : batch, concat example.2) (train_dataset E))
  end.

(** Lines 349-374: a vector of zeros in which the ids of the label tokens,
    of the special tokens and of the capitalised words are set to
    [-1e32]. *)
Definition build_filter (E : environment) (a : Args.t) : option (list Q) :=
  let filter := replicate (vocab_size E) 0%Q in
  if Args.filter a then
    filter ← filter_out_all filter (label_token_ids E a);
    filter_vocab E filter (get_vocab (tok E))
  else Some filter.

(** ** [run_model]: the search loop *)

(** A score that may have been replaced by [float('-inf')]. *)
Inductive ext := NegInf | Fin (q : Q).

(** [y > x] for a finite [y]. *)
Definition ext_ltb (x : ext) (y : Q) : bool :=
  match x with
  | NegInf => true
  | Fin q => if Qlt_le_dec q y then true else false
  end.

(** What the run writes to its log, as far as the properties below read
    it. *)
Inductive event :=
  | LogDevMetric (dev_metric : Q)
  | LogBetterTrigger (train_metric : Q)
  | LogNoImprovement
  | LogBestSoFar.

Record search_state := State {
  trigger_ids : list Z;
  best_trigger_ids : list Z;
  best_dev_metric : ext;
  log : list event;
}.

Definition eps : Q := 1 # (10 ^ 13).

Section Search.

Variable E : environment.
Variable a : Args.t.
Variable templatizer : TriggerTemplatizer.
Variable accuracy : option AccuracyFn.
Variable filter : list Q.

(** The loop over [dev_loader] (lines 379-385 and 503-509). *)
Fixpoint dev_loop (trigger : list Z) (loader : list batch)
    (numerator : Q) (denominator : nat) : option (Q * nat) :=
  match loader with
  | [] => Some (numerator, denominator)
  | (model_inputs, labels) :: loader' =>
      predict_logits ← predictor (model E) model_inputs trigger;
      metric ← evaluation_fn (float E) accuracy predict_logits labels;
      dev_loop trigger loader' (numerator + Torch.sum1 metric)%Q
               (denominator + length labels)
  end.

Definition evaluate_dev (trigger : list Z) : option Q :=
  '(numerator, denominator) ← dev_loop trigger (dev_loader E) 0%Q 0;
  Some (numerator / (inject_Z (Z.of_nat denominator) + eps))%Q.

(** [grad.size()] of a non-empty 3-D tensor. *)
Definition size3 {A} (t : list (list (list A))) : nat * nat * nat :=
  (length t, length (hd [] t), length (hd [] (hd [] t))).

(** Lines 422-426: the gradient at the trigger positions, of shape
    [(bsz, num_trigger_tokens, emb_dim)]. *)
Definition trigger_gradient (grad : list (list (list Q)))
    (trigger_mask : list (list bool)) : option (list (list (list Q))) :=
  let '(bsz, _, emb_dim) := size3 grad in
  flat ← Torch.masked_select_unsqueeze grad trigger_mask;
  Torch.view3 bsz (num_trigger_tokens templatizer) emb_dim flat.

(** One pass of the accumulation loop (lines 416-431): the summand
    [grad.sum(dim=0) / args.accumulation_steps]. *)
Definition accumulation_step (trigger : list Z) (b : batch)
    (embedding_gradient : GradientStorage)
    : option (GradientStorage * list (list Q)) :=
  let '(model_inputs, labels) := b in
  predict_logits ← predictor (model E) model_inputs trigger;
  loss ← get_loss (float E) predict_logits labels;
  let embedding_gradient :=
    GradientStorage_hook embedding_gradient
      (backward_hook (model E) model_inputs trigger labels) in
  grad ← GradientStorage_get embedding_gradient;
  let '(_, _, emb_dim) := size3 grad in
  selection_mask ← model_inputs !! "trigger_mask";
  match selection_mask with
  | TBool selection_mask =>
      grad ← trigger_gradient grad selection_mask;
      Some (embedding_gradient,
            Torch.div2 (Torch.sum_dim0 (num_trigger_tokens templatizer) emb_dim grad)
                       (Args.accumulation_steps a))
  | TInt _ => None
  end.

(** Lines 400-431.  [steps] is what is left of [range(accumulation_steps)],
    [train_iter] what is left of the iterator; the inner [option] is
    Python's [None] for a gradient that was never assigned. *)
Fixpoint accumulate (trigger : list Z) (steps : nat) (train_iter : list batch)
    (embedding_gradient : GradientStorage)
    (averaged_grad : option (list (list Q))) : option (option (list (list Q))) :=
  match steps with
  | O => Some averaged_grad
  | S steps' =>
      match train_iter with
      | [] => Some averaged_grad
      | b :: train_iter' =>
          '(embedding_gradient, summand) ←
            accumulation_step trigger b embedding_gradient;
          accumulate trigger steps' train_iter' embedding_gradient
            (Some match averaged_grad with
                  | None => summand
                  | Some g => Torch.add2 g summand
                  end)
      end
  end.

(** [scores[i] += v]; [None] is the [IndexError]. *)
Definition add_index (scores : list Q) (i : nat) (v : Q) : option (list Q) :=
  if decide (i < length scores) then Some (alter (λ x, x + v)%Q i scores) else None.

(** Lines 469-481: the candidates from the [i]-th on, scored on one
    batch. *)
Fixpoint score_candidates (trigger : list Z) (token_to_flip : nat) (b : batch)
    (i : nat) (candidates : list nat) (candidate_scores : list Q)
    : option (list Q) :=
  match candidates with
  | [] => Some candidate_scores
  | candidate :: candidates' =>
      temp_trigger ← Torch.set_index trigger token_to_flip (Z.of_nat candidate);
      predict_logits ← predictor (model E) b.1 temp_trigger;
      eval_metric ← evaluation_fn (float E) accuracy predict_logits b.2;
      candidate_scores ← add_index candidate_scores i (Torch.sum1 eval_metric);
      score_candidates trigger token_to_flip b (S i) candidates' candidate_scores
  end.

(** Lines 447-481. *)
Fixpoint score_loop (trigger : list Z) (token_to_flip : nat)
    (candidates : list nat) (steps : nat) (train_iter : list batch)
    (current_score : Q) (candidate_scores : list Q) (denom : nat)
    : option (Q * list Q * nat) :=
  match steps with
  | O => Some (current_score, candidate_scores, denom)
  | S steps' =>
      match train_iter with
      | [] => Some (current_score, candidate_scores, denom)
      | b :: train_iter' =>
          predict_logits ← predictor (model E) b.1 trigger;
          eval_metric ← evaluation_fn (float E) accuracy predict_logits b.2;
          let current_score := (current_score + Torch.sum1 eval_metric)%Q in
          let denom := denom + length b.2 in
          candidate_scores ←
            score_candidates trigger token_to_flip b 0 candidates candidate_scores;
          score_loop trigger token_to_flip candidates steps' train_iter'
                     current_score candidate_scores denom
      end
  end.

(** Lines 486-488. *)
Definition lama_guard (ids : list Z) (score : ext) : ext :=
  if Args.print_lama a && bool_decide (mask_token_id (tok E) ∈ ids)
  then NegInf else score.

(** Lines 500-525, run when the trigger was rewritten to [trigger]. *)
Definition evaluate_and_keep_best (trigger : list Z) (train_metric : Q)
    (st : search_state) : option search_state :=
  dev_metric ← evaluate_dev trigger;
  let best_dev_metric := lama_guard (best_trigger_ids st) (best_dev_metric st) in
  let log := log st ++ [LogBetterTrigger train_metric; LogDevMetric dev_metric] in
  if ext_ltb best_dev_metric dev_metric
  then Some {| trigger_ids := trigger;
               best_trigger_ids := trigger;
               best_dev_metric := Fin dev_metric;
               log := log ++ [LogBestSoFar] |}
  else Some {| trigger_ids := trigger;
               best_trigger_ids := best_trigger_ids st;
               best_dev_metric := best_dev_metric;
               log := log |}.

(** One iteration of the loop of line 393. *)
Definition search_iteration (d : draw) (st : search_state) : option search_state :=
  averaged_grad ←
    accumulate (trigger_ids st) (Args.accumulation_steps a) (grad_batches d)
               GradientStorage_init None;
  token_to_flip ← Py.randrange (rand d) (num_trigger_tokens templatizer);
  averaged_grad ← averaged_grad;
  grad_row ← averaged_grad !! token_to_flip;
  candidates ←
    hotflip_attack grad_row (embeddings_weight (model E)) false
                   (Args.num_cand a) (Some filter);
  '(current_score, candidate_scores, denom) ←
    score_loop (trigger_ids st) token_to_flip candidates
               (Args.accumulation_steps a) (eval_batches d)
               0%Q (replicate (Args.num_cand a) 0%Q) 0;
  let current_score := lama_guard (trigger_ids st) (Fin current_score) in
  if existsb (ext_ltb current_score) candidate_scores
  then
    best_candidate_idx ← Torch.argmax candidate_scores;
    best_candidate_score ← candidate_scores !! best_candidate_idx;
    candidate ← candidates !! best_candidate_idx;
    trigger ← Torch.set_index (trigger_ids st) token_to_flip (Z.of_nat candidate);
    evaluate_and_keep_best trigger
      (best_candidate_score / (inject_Z (Z.of_nat denom) + eps))%Q st
  else
    Some {| trigger_ids := trigger_ids st;
            best_trigger_ids := best_trigger_ids st;
            best_dev_metric := best_dev_metric st;
            log := log st ++ [LogNoImprovement] |}.

(** The state after the first [k] iterations, [draws i] being the random
    choices of iteration [i]. *)
Fixpoint search_after (draws : nat → draw) (init : search_state) (k : nat)
    : option search_state :=
  match k with
  | O => Some init
  | S k' => st ← search_after draws init k'; search_iteration (draws k') st
  end.

End Search.

(** ** [json.dumps] on the object [run_model] writes *)

Module Json.

Definition dquote : Ascii.ascii := Ascii.ascii_of_nat 34.
Definition backslash : Ascii.ascii := Ascii.ascii_of_nat 92.
Definition newline : Ascii.ascii := Ascii.ascii_of_nat 10.

Definition str1 (c : Ascii.ascii) : string := String c EmptyString.

Definition hex_digit (n : N) : Ascii.ascii :=
  match n with
  | 0 => "0" | 1 => "1" | 2 => "2" | 3 => "3" | 4 => "4" | 5 => "5"
  | 6 => "6" | 7 => "7" | 8 => "8" | 9 => "9" | 10 => "a" | 11 => "b"
  | 12 => "c" | 13 => "d" | 14 => "e" | _ => "f"
  end%N%char.

(** ['\\u{0:04x}'.format(n)] for [n] below [0x10000]. *)
Definition u_escape (n : N) : string :=
  String backslash
    (String "u"
       (String (hex_digit (N.shiftr n 12 `mod` 16))
          (String (hex_digit (N.shiftr n 8 `mod` 16))
             (String (hex_digit (N.shiftr n 4 `mod` 16))
                (String (hex_digit (n `mod` 16)) EmptyString)))))%N.

(** The replacement of one code point by [py_encode_basestring_ascii]. *)
Definition escape (c : N) : string :=
  if decide (c = 34)%N then String backslash (str1 dquote)
  else if decide (c = 92)%N then String backslash (str1 backslash)
  else if decide (c = 8)%N then String backslash "b"
  else if decide (c = 12)%N then String backslash "f"
  else if decide (c = 10)%N then String backslash "n"
  else if decide (c = 13)%N then String backslash "r"
  else if decide (c = 9)%N then String backslash "t"
  else if decide (32 ≤ c ∧ c ≤ 126)%N then str1 (Ascii.ascii_of_N c)
  else if decide (c < 65536)%N then u_escape c
  else
    let n := (c - 65536)%N in
    u_escape (N.lor 55296 (N.land (N.shiftr n 10) 1023))
    +:+ u_escape (N.lor 56320 (N.land n 1023)).

Definition dumps_str (s : pystr) : string :=
  str1 dquote +:+ foldr (λ c acc, escape c +:+ acc) EmptyString s +:+ str1 dquote.

Fixpoint join (sep : string) (l : list string) : string :=
  match l with
  | [] => EmptyString
  | [x] => x
  | x :: l' => x +:+ sep +:+ join sep l'
  end.

Definition dumps_list (l : list pystr) : string :=
  "[" +:+ join ", " (map dumps_str l) +:+ "]".

Definition key (k : string) : string := str1 dquote +:+ k +:+ str1 dquote +:+ ": ".

(** [json.dumps({'relation': r, 'template': t, 'tokens': ts})] *)
Definition dumps_out (relation template : pystr) (tokens : list pystr) : string :=
  "{" +:+ key "relation" +:+ dumps_str relation +:+ ", "
      +:+ key "template" +:+ dumps_str template +:+ ", "
      +:+ key "tokens" +:+ dumps_list tokens +:+ "}".

End Json.

(** ** The file system *)

Module Fs.

Record t := mk {
  dirs : gset string;
  files : gmap string string;
}.

(** [os.makedirs(path, exist_ok=True)]; [None] is the error raised for an
    empty path or a path that names a file.  Intermediate directories are
    not told apart from [path]. *)
Definition makedirs (path : string) (fs : t) : option t :=
  if decide (path = EmptyString) then None
  else match files fs !! path with
       | Some _ => None
       | None => Some (mk ({[ path ]} ∪ dirs fs) (files fs))
       end.

(** [f = open(name, "a"); f.write(data); f.close()]; [None] is the error
    raised when [name] is a directory. *)
Definition append (name data : string) (fs : t) : option t :=
  if decide (name ∈ dirs fs) then None
  else Some (mk (dirs fs)
                (<[ name := default EmptyString (files fs !! name) +:+ data ]>
                   (files fs))).

End Fs.

(** ** [run_model]: the LAMA output (lines 530-574) *)

Definition pystr_of_string (s : string) : pystr :=
  map Ascii.N_of_ascii (String.list_ascii_of_string s).

(** [t.squeeze(0)[1:-1]] for a tensor with one row. *)
Definition squeeze_inner {A} (t : list (list A)) : option (list A) :=
  match t with
  | [row] => Some (take (length row - 2) (drop 1 row))
  | _ => None
  end.

Definition as_int (t : tensor) : option (list (list Z)) :=
  match t with TInt ids => Some ids | TBool _ => None end.

Definition as_bool (t : tensor) : option (list (list bool)) :=
  match t with TBool m => Some m | TInt _ => None end.

(** Lines 532-551: the template ids with the best trigger and the label
    placeholder written in place. *)
Definition lama_template_ids (E : environment) (templatizer : TriggerTemplatizer)
    (a : Args.t) (best_trigger_ids : list Z) : option (list (list Z)) :=
  '(model_inputs, label_ids) ←
    templatize templatizer
      (if Args.use_ctx a
       then [("sub_label", pystr_of_string "[X]"); ("obj_label", lama_y (tok E));
             ("context", [])]
       else [("sub_label", pystr_of_string "[X]"); ("obj_label", lama_y (tok E))]);
  lama_template ← model_inputs !! "input_ids" ≫= as_int;
  trigger_mask ← model_inputs !! "trigger_mask" ≫= as_bool;
  lama_template ← Torch.masked_scatter lama_template trigger_mask best_trigger_ids;
  predict_mask ← model_inputs !! "predict_mask" ≫= as_bool;
  Torch.masked_scatter lama_template predict_mask (concat label_ids).

(** Lines 556-561. *)
Definition lama_template_text (E : environment) (a : Args.t)
    (lama_template : list (list Z)) : option pystr :=
  ids ← squeeze_inner lama_template;
  let decoded := decode (tok E) ids in
  let r old new := Py.replace (pystr_of_string old) (pystr_of_string new) in
  Some (if Args.use_ctx a
        then r "[ X ]" "[X]" (r "</s> " "" (r "[SEP] " "" decoded))
        else r "[[" "[" (r "X]" "[X]" (r "[ X ]" "[X]" decoded))).

Definition name_suffix (model_name : string) : option string :=
  if Py.contains "/" model_name then Py.split "/" model_name !! 1
  else Some model_name.

Definition result_file_name (a : Args.t) : option string :=
  suffix ← name_suffix (Args.model_name a);
  Some (Args.output a +:+ "/" +:+ suffix +:+ "_autoprompt_seed_"
        +:+ pretty (Args.seed a) +:+ ".jsonl").

(** Lines 562-574; the line printed to the standard output is not
    modelled. *)
Definition print_lama_output (E : environment) (templatizer : TriggerTemplatizer)
    (a : Args.t) (best_trigger_ids : list Z) (fs : Fs.t) : option Fs.t :=
  let best_trigger_tokens := convert_ids_to_tokens (tok E) best_trigger_ids in
  lama_template ← lama_template_ids E templatizer a best_trigger_ids;
  template ← lama_template_text E a lama_template;
  let out_json := Json.dumps_out (Args.train_parent_stem a) template best_trigger_tokens in
  name ← result_file_name a;
  fs ← Fs.makedirs (Args.output a) fs;
  Fs.append name (out_json +:+ Json.str1 Json.newline) fs.

(** ** [run_model] *)

Record outcome := Outcome {
  final : search_state;
  file_system : Fs.t;
}.

Definition run_model (E : environment) (a : Args.t) (draws : nat → draw)
    (fs : Fs.t) : option outcome :=
  template ← build_template a;
  let templatizer := TriggerTemplatizer_init E template in
  _ ← guard (Args.num_trigger_tokens a = num_trigger_tokens templatizer);
  trigger_ids ← initial_trigger_ids (tok E) templatizer a;
  let accuracy := select_evaluation E a in
  filter ← build_filter E a;
  dev_metric ← evaluate_dev E accuracy trigger_ids;
  let init := {| trigger_ids := trigger_ids;
                 best_trigger_ids := trigger_ids;
                 best_dev_metric := NegInf;
                 log := [LogDevMetric dev_metric] |} in
  st ← search_after E a templatizer accuracy filter draws init (Args.iters a);
  fs ← (if Args.print_lama a
         then print_lama_output E templatizer a (best_trigger_ids st) fs
         else Some fs);
  Some {| final := st; file_system := fs |}.

(** ** Auxiliary definitions for the statements of Part II *)

(** The number of values [range(0, size, step)] yields. *)
Definition num_batches (size : nat) (batch_size : Z) : nat :=
  Z.to_nat (if decide (0 < Z.of_nat size)%Z
            then (Z.of_nat size - 0 - 1) / batch_size + 1 else 0)%Z.


(** The score vector of [hotflip_attack]: the dot product of every
    embedding row with the gradient, minus the filter, negated unless
    [increase_loss] is set. *)
Definition hotflip_scores (averaged_grad : list Q) (embedding_matrix : list (list Q))
    (increase_loss : bool) (filter : list Q) : list Q :=
  zip_with (λ row f,
              let s := (Torch.dot row averaged_grad - f)%Q in
              if increase_loss then s else (s * (-1))%Q)
           embedding_matrix filter.

(** The tokens the filter leaves alone: those whose entry is zero. *)
Definition unfiltered_ids (filter : list Q) : list nat :=
  List.filter (λ i, match filter !! i with
                    | Some x => Qleb x 0 && Qleb 0 x
                    | None => false
                    end)
              (seq 0 (length filter)).

(** A vector with its indices. *)
Definition indexed (v : list Q) : list (nat * Q) := imap (λ i x, (i, x)) v.


(** The entry at row [i], column [j]. *)
Definition entry {A} (t : list (list A)) (i j : nat) : option A :=
  row ← t !! i; row !! j.

Definition total_true (mask : list (list bool)) : nat :=
  sum_list (Torch.count_true <$> mask).

(** The number of set mask positions that precede [(i, j)], row by row. *)
Definition rank (mask : list (list bool)) (i j : nat) : nat :=
  total_true (take i mask) + Torch.count_true (take j (default [] (mask !! i))).

(** [filled] holds the trigger ids, in order and row by row, at exactly
    the set positions of [mask] (the row of trigger ids starts over when it
    is used up), and the entries of [input_ids] elsewhere. *)
Definition holds_trigger_ids (input_ids filled : list (list Z))
    (mask : list (list bool)) (trigger_ids : list Z) : Prop :=
  Torch.shape_eqb filled mask = true
  ∧ ∀ i j b, entry mask i j = Some b →
      entry filled i j
      = if b then trigger_ids !! (rank mask i j `mod` length trigger_ids)
        else entry input_ids i j.

(** Every dictionary and every tensor of the store [h] is found unchanged
    in [h']. *)
Definition preserved (h h' : heap) : Prop :=
  dicts h ⊆ dicts h' ∧ tensors h ⊆ tensors h'.

(** [c] changes no object of [h0], and its results satisfy [R]. *)
Definition framed {A} (h0 : heap) (c : M A) (R : A → Prop) : Prop :=
  ∀ h, preserved h0 h →
       preserved h0 (c h).2 ∧ ∀ x, (c h).1 = Some x → R x.

(** The tensor the entry [k] of the dictionary at [d] refers to. *)
Definition dict_entry (h : heap) (d : loc) (k : string) : option tensor :=
  m ← dicts h !! d; l ← m !! k; tensors h !! l.

(** The reference stored under [k] in the dictionary at [d]. *)
Definition dict_ref (h : heap) (d : loc) (k : string) : option loc :=
  m ← dicts h !! d; m !! k.

(** ** Sample data for the closed instances of Part II *)

(** A store with one model-inputs dictionary, at location [0]: one example
    of three tokens, the trigger at the first position and the prediction
    at the second. *)
Definition sample_heap : heap :=
  mkHeap
    {[ 0 := {[ "input_ids" := 1; "trigger_mask" := 2;
               "predict_mask" := 3; "last_trigger_mask" := 4 ]} ]}
    {[ 1 := TInt [[5; 6; 7]]%Z;
       2 := TBool [[true; false; false]];
       3 := TBool [[false; true; false]];
       4 := TBool [[true; false; false]] ]}.

(** A store whose trigger mask has two set positions for a single
    trigger id. *)
Definition overfull_heap : heap :=
  mkHeap
    {[ 0 := {[ "input_ids" := 1; "trigger_mask" := 2 ]} ]}
    {[ 1 := TInt [[5; 6]]%Z; 2 := TBool [[true; true]] ]}.

(** The keyword arguments [PredictWrapper.__call__] passes to the model,
    from the tensors [view] of the caller's dictionary and the filled
    [input_ids]. *)
Definition model_kwargs (name : string) (view : gmap string tensor)
    (filled : list (list Z)) : gmap string tensor :=
  let base :=
    delete "last_trigger_mask" (delete "predict_mask" (delete "trigger_mask" view)) in
  let with_ids := <["input_ids" := TInt filled]> base in
  if Py.contains "t5" name then <["labels" := TInt filled]> with_ids else with_ids.

(** The [input_ids] after [replace_trigger_tokens]. *)
Definition filled_ids (ids : list (list Z)) (mask : list (list bool))
    (trigger_ids : list Z) : list (list Z) :=
  default ids
    (Torch.masked_scatter ids mask (Torch.repeat_row trigger_ids (length mask))).

(** For every example, the logits at exactly the set positions of its
    mask row. *)
Definition selected_logits (logits : list (list (list Q)))
    (mask : list (list bool)) : list (list Q) :=
  zip_with Torch.select_row logits mask.

(** A stand-in model: the logits of a position are its token id, over a
    vocabulary of one entry. *)
Definition sample_forward (kwargs : gmap string tensor)
    : option (list (list (list Q))) :=
  match kwargs !! "input_ids" with
  | Some (TInt ids) => Some (map (map (λ z, [inject_Z z])) ids)
  | _ => None
  end.

Definition sample_model (name : string) : language_model :=
  {| name_or_path := name;
     forward := sample_forward;
     embeddings_weight := [[1]; [2]; [3]]%Q;
     backward_hook := λ model_inputs _ _,
       match model_inputs !! "input_ids" with
       | Some (TInt ids) => map (map (λ z, [inject_Z z])) ids
       | _ => []
       end |}.

(** A batch of two examples whose predict mask selects two positions of
    the first example and none of the second. *)
Definition uneven_heap : heap :=
  mkHeap
    {[ 0 := {[ "input_ids" := 1; "trigger_mask" := 2;
               "predict_mask" := 3; "last_trigger_mask" := 4 ]} ]}
    {[ 1 := TInt [[5; 6]; [7; 8]]%Z;
       2 := TBool [[false; false]; [false; false]];
       3 := TBool [[true; true]; [false; false]];
       4 := TBool [[false; false]; [false; false]] ]}.

(** Stand-ins for the two functions of [float_fns]. *)
Definition sample_float : float_fns :=
  {| log_softmax := λ x, x; logsumexp := Torch.sum1 |}.

Definition sample_accuracy : AccuracyFn :=
  {| _all_label_ids := [[1]; [2]]%Z; _pred_to_label := ["a"; "b"] |}.

(** Equality of float tensors read as rationals. *)
Definition vec_eq : relation (list Q) := Forall2 Qeq.
Definition tensor_eq : relation (list (list Q)) := Forall2 vec_eq.

(** The vectors of one example at the set positions of its mask row. *)
Definition positions_at {A} (row : list A) (mask : list bool) : list A :=
  (filter (λ p, p.2 = true) (zip row mask)).*1.

(** For every example, the gradient at its trigger positions. *)
Definition trigger_positions_grad (grad : list (list (list Q)))
    (mask : list (list bool)) : list (list (list Q)) :=
  zip_with positions_at grad mask.

(** The contribution of one batch: the sum over its examples of the
    gradients the hook captured at the trigger positions. *)
Definition batch_gradient (E : environment) (trigger : list Z) (ntt emb : nat)
    (b : batch) : list (list Q) :=
  match b.1 !! "trigger_mask" with
  | Some (TBool mask) =>
      Torch.sum_dim0 ntt emb
        (trigger_positions_grad (backward_hook (model E) b.1 trigger b.2) mask)
  | _ => Torch.zeros ntt emb
  end.

(** What the accumulation loop needs of a batch to run through: the
    forward pass and the loss succeed, and the captured gradient has the
    shape [(bsz, seq, emb)] of a mask with [num_trigger_tokens] set
    positions in every row. *)
Definition accumulation_ready (E : environment) (templatizer : TriggerTemplatizer)
    (trigger : list Z) (emb : nat) (b : batch) : Prop :=
  let grad := backward_hook (model E) b.1 trigger b.2 in
  is_Some (predict_logits ← predictor (model E) b.1 trigger;
           get_loss (float E) predict_logits b.2)
  ∧ ∃ mask,
      b.1 !! "trigger_mask" = Some (TBool mask)
      ∧ Torch.shape_eqb grad mask = true
      ∧ Forall (λ m, Torch.count_true m = num_trigger_tokens templatizer) mask
      ∧ Forall (Forall (λ v, length v = emb)) grad
      ∧ length (hd [] (hd [] grad)) = emb.

(** A float matrix of shape [(t, e)]. *)
Definition has_shape (t e : nat) (x : list (list Q)) : Prop :=
  length x = t ∧ Forall (λ r, length r = e) x.


(** One training batch of one example: the trigger at the first position,
    the prediction at the second, the label id [1]. *)
Definition sample_batch : batch :=
  ({[ "input_ids" := TInt [[0; 7]]%Z;
      "trigger_mask" := TBool [[true; false]];
      "predict_mask" := TBool [[false; true]];
      "last_trigger_mask" := TBool [[true; false]] ]},
   [[1]]%Z).

(** A stand-in model over a vocabulary of three tokens whose logit for
    token [1] is, at every position, the sum of the ids of the example;
    the gradient it reports is [-1] at every position. *)
Definition sum_model : language_model :=
  {| name_or_path := "bert-base-cased";
     forward := λ kwargs,
       match kwargs !! "input_ids" with
       | Some (TInt ids) =>
           Some (map (λ row, map (λ _, [0; inject_Z (foldr Z.add 0%Z row); 0]%Q) row) ids)
       | _ => None
       end;
     embeddings_weight := [[1]; [2]; [3]]%Q;
     backward_hook := λ model_inputs _ _,
       match model_inputs !! "input_ids" with
       | Some (TInt ids) => map (map (λ _, [-1]%Q)) ids
       | _ => []
       end |}.

(** A stand-in model whose logits do not depend on the input. *)
Definition constant_model : language_model :=
  {| name_or_path := "bert-base-cased";
     forward := λ kwargs,
       match kwargs !! "input_ids" with
       | Some (TInt ids) => Some (map (map (λ _, [0; 5; 0]%Q)) ids)
       | _ => None
       end;
     embeddings_weight := [[1]; [2]; [3]]%Q;
     backward_hook := λ model_inputs _ _,
       match model_inputs !! "input_ids" with
       | Some (TInt ids) => map (map (λ _, [-1]%Q)) ids
       | _ => []
       end |}.

Definition sample_tokenizer : tokenizer :=
  {| tokenizer_name_or_path := "bert-base-cased";
     mask_token_id := 0;
     convert_tokens_to_ids := map (λ t, Z.of_nat (length t));
     convert_ids_to_tokens := map (λ z, [Z.to_N z]);
     decode := map Z.to_N;
     lama_y := pystr_of_string "[Y]";
     get_vocab := [([77; 77]%N, 0%Z); ([80; 97]%N, 80%Z); ([97; 98]%N, 97%Z)];
     tokenizer_vocab_size := 100;
     all_special_ids := [0%Z] |}.

(** A templatizer with one trigger token; on the LAMA placeholders it
    returns the ids of [[CLS] X [T] [P] [SEP]] and the label [Y]. *)
Definition sample_templatizer : TriggerTemplatizer :=
  {| num_trigger_tokens := 1;
     templatize := λ _,
       Some ({[ "input_ids" := TInt [[101; 88; 0; 1; 102]]%Z;
                "trigger_mask" := TBool [[false; false; true; false; false]];
                "predict_mask" := TBool [[false; false; false; true; false]] ]},
             [[89]]%Z) |}.

Definition sample_env (m : language_model) : environment :=
  {| model := m;
     tok := sample_tokenizer;
     float := sample_float;
     vocab_size := 3;
     TriggerTemplatizer_init := λ _, sample_templatizer;
     encode_label := map (λ t, Z.of_nat (length t));
     str_isupper := λ c, bool_decide (65 ≤ c ∧ c ≤ 90)%N;
     train_dataset := [sample_batch];
     dev_loader := [sample_batch] |}.

Definition sample_args (print_lama : bool) : Args.t :=
  {| Args.seed := 0;
     Args.model_name := "bert-base-cased";
     Args.output := "results";
     Args.template := Some EmptyString;
     Args.train_parent_stem := pystr_of_string "P17";
     Args.label_map := None;
     Args.filter := false;
     Args.print_lama := print_lama;
     Args.use_ctx := false;
     Args.initial_trigger := None;
     Args.iters := 1;
     Args.accumulation_steps := 1;
     Args.num_cand := 2;
     Args.num_trigger_tokens := 1;
     Args.fast_tokenizer := 0 |}.

Definition sample_draws : nat → draw :=
  λ _, {| grad_batches := [sample_batch]; eval_batches := [sample_batch]; rand := 0 |}.

Definition sample_state (trigger : list Z) : search_state :=
  {| trigger_ids := trigger; best_trigger_ids := trigger;
     best_dev_metric := NegInf; log := [] |}.

Definition sample_fs : Fs.t :=
  Fs.mk ∅ {[ "results/bert-base-cased_autoprompt_seed_0.jsonl" := "earlier line
" ]}.

(** [y > x] as a proposition. *)
Definition ext_lt (x : ext) (y : Q) : Prop :=
  match x with
  | NegInf => True
  | Fin q => (q < y)%Q
  end.

(** The characters of a string. *)
Definition chars (s : string) : list Ascii.ascii := String.list_ascii_of_string s.

(** A printable ASCII character (space to tilde). *)
Definition printable (c : Ascii.ascii) : Prop :=
  (32 ≤ Ascii.N_of_ascii c ∧ Ascii.N_of_ascii c ≤ 126)%N.

(** ** [AccuracyFn.predict] *)

(** Lines 137-146.  [all_label_logp] holds, despite its name, the losses
    [get_loss] returns; [max(dim=-1)] gives the index of the first maximal
    entry of every row. *)
Definition AccuracyFn_predict (F : float_fns) (self : AccuracyFn)
    (predict_logits : list (list Q)) : option (list string) :=
  let bsz := length predict_logits in
  all_label_logp ←
    mapM (λ label_ids, get_loss F predict_logits (replicate bsz label_ids))
         (_all_label_ids self);
  all_label_logp ← stack_last bsz all_label_logp;
  mapM (λ row, x ← Torch.argmax row; _pred_to_label self !! x) all_label_logp.

(** ** [utils.py]: encoding a batch of facts *)

Module Utils.

(** [l[start:stop]] for arbitrary integers: a negative bound counts from
    the end, and both bounds are clipped to the list. *)
Definition clamp (len : nat) (i : Z) : nat :=
  Z.to_nat (if decide (i < 0)%Z then Z.max (i + Z.of_nat len) 0
            else Z.min i (Z.of_nat len)).

Definition slice {A} (l : list A) (start stop : Z) : list A :=
  take (clamp (length l) stop - clamp (length l) start)
       (drop (clamp (length l) start) l).

(** [[v] * n]: empty when [n] is negative. *)
Definition times {A} (v : A) (n : Z) : list A := replicate (Z.to_nat n) v.

(** The integers that fit the [int64] entries of a tensor. *)
Definition int64 (z : Z) : Prop := (- 2 ^ 63 ≤ z < 2 ^ 63)%Z.

#[global] Instance int64_dec z : Decision (int64 z).
Proof. unfold int64. apply _. Defined.

(** [torch.tensor(l)] for a list of Python integers; [None] is the
    [RuntimeError] of an integer that overflows.  (An empty list gives a
    tensor of floats without entries, which is not told apart.) *)
Definition tensor (l : list Z) : option (list Z) :=
  if decide (Forall int64 l) then Some l else None.

(** The BERT tokenizer, an opaque collaborator. *)
Record tokenizer := Tokenizer {
  tokenize : string → list string;
  convert_tokens_to_ids : list string → list Z;
}.

(** The four lists of one sample. *)
Record encoded := Encoded {
  source_tokens : list Z;
  target_tokens : list Z;
  trigger_mask : list Z;
  segment_ids : list Z;
}.

(** The variables the loop over [prompt_format] updates. *)
Record cursor := Cursor {
  source : list Z;
  target : list Z;
  mask : list Z;
  trigger_idx : Z;
}.

(** One round of the loop over [prompt_format] in [make_batch].  [int_] is
    Python's [int] on a string; [None] is its [ValueError]. *)
Definition add_part (int_ : string → option Z) (trigger_tokens mask_token : list Z)
    (sub_tokens obj_tokens : list Z) (st : cursor) (part : string)
    : option cursor :=
  if decide (part = "X") then
    Some {| source := source st ++ sub_tokens;
            target := target st ++ times (-1)%Z (Z.of_nat (length sub_tokens));
            mask := mask st ++ times 0%Z (Z.of_nat (length sub_tokens));
            trigger_idx := trigger_idx st |}
  else if decide (part = "Y") then
    Some {| source := source st ++ mask_token;
            target := target st ++ obj_tokens;
            mask := mask st ++ times 0%Z (Z.of_nat (length obj_tokens));
            trigger_idx := trigger_idx st |}
  else
    num_trigger_tokens ← int_ part;
    Some {| source := source st
                      ++ slice trigger_tokens (trigger_idx st)
                               (trigger_idx st + num_trigger_tokens);
            target := target st ++ times (-1)%Z num_trigger_tokens;
            mask := mask st ++ times 1%Z num_trigger_tokens;
            trigger_idx := (trigger_idx st + num_trigger_tokens)%Z |}.

Fixpoint add_parts (int_ : string → option Z) (trigger_tokens mask_token : list Z)
    (sub_tokens obj_tokens : list Z) (st : cursor) (prompt_format : list string)
    : option cursor :=
  match prompt_format with
  | [] => Some st
  | part :: rest =>
      st' ← add_part int_ trigger_tokens mask_token sub_tokens obj_tokens st part;
      add_parts int_ trigger_tokens mask_token sub_tokens obj_tokens st' rest
  end.

(** The body of the loop over the batch in [make_batch].  With [use_ctx]
    set the name [context_tokens] is read, which nothing binds. *)
Definition encode_sample (int_ : string → option Z) (tk : tokenizer)
    (trigger_tokens : list Z) (prompt_format : list string) (use_ctx : bool)
    (cls_token sep_token mask_token period_token : list Z)
    (sample : string * string) : option encoded :=
  let '(sub, obj) := sample in
  let sub_tokens := convert_tokens_to_ids tk (tokenize tk sub) in
  let obj_tokens := convert_tokens_to_ids tk (tokenize tk obj) in
  let st := {| source := cls_token; target := [-1]%Z; mask := [0]%Z;
               trigger_idx := 0 |} in
  if use_ctx then None
  else
    st ← add_parts int_ trigger_tokens mask_token sub_tokens obj_tokens st
                   prompt_format;
    let source_tokens := (source st ++ period_token) ++ sep_token in
    let segment_ids := times 0%Z (Z.of_nat (length source_tokens)) in
    source_tokens ← tensor source_tokens;
    target_tokens ← tensor ((target st ++ [-1]%Z) ++ [-1]%Z);
    trigger_mask ← tensor ((mask st ++ [0]%Z) ++ [0]%Z);
    segment_ids ← tensor segment_ids;
    Some {| source_tokens := source_tokens;
            target_tokens := target_tokens;
            trigger_mask := trigger_mask;
            segment_ids := segment_ids |}.

(** [torch.nn.utils.rnn.pad_sequence(rows, batch_first=True,
    padding_value=v)] *)
Definition pad_sequence (rows : list (list Z)) (v : Z) : list (list Z) :=
  let max_len := max_list (map length rows) in
  map (λ r, r ++ replicate (max_len - length r) v) rows.

(** The padding value as [pad_sequence] writes it into a tensor of
    integers: it is taken as a double first; [None] is the [RuntimeError]
    of a value that overflows. *)
Definition padding_value (v : Z) : option Z :=
  let v := round_to_double v in
  if decide (int64 v) then Some v else None.

(** [make_batch]; [np.max] raises on an empty batch and [pad_token[0]] on
    an empty [pad_token]. *)
Definition make_batch (int_ : string → option Z) (tk : tokenizer)
    (batch : list (string * string)) (trigger_tokens : list Z)
    (prompt_format : list string) (use_ctx : bool)
    (cls_token sep_token mask_token pad_token period_token : list Z)
    : option (list (list Z) * list (list Z) * list (list Z) * list (list Z)) :=
  rows ← mapM (encode_sample int_ tk trigger_tokens prompt_format use_ctx
                             cls_token sep_token mask_token period_token) batch;
  if decide (rows = []) then None
  else
    pad ← pad_token !! 0;
    pad ← padding_value pad;
    Some (pad_sequence (map source_tokens rows) pad,
          pad_sequence (map target_tokens rows) (-1)%Z,
          pad_sequence (map trigger_mask rows) 0%Z,
          pad_sequence (map segment_ids rows) pad).

(** The number of trigger tokens a part asks for, and their total. *)
Definition part_count (int_ : string → option Z) (part : string) : Z :=
  if decide (part = "X") then 0%Z
  else if decide (part = "Y") then 0%Z
  else default 0%Z (int_ part).

Definition trigger_total (int_ : string → option Z) (prompt_format : list string) : Z :=
  foldr (λ part acc, part_count int_ part + acc)%Z 0%Z prompt_format.

(** A part is [X], [Y] or a count that is not negative. *)
Definition valid_part (int_ : string → option Z) (part : string) : Prop :=
  part = "X" ∨ part = "Y" ∨ ∃ n, int_ part = Some n ∧ (0 ≤ n)%Z.

(** The entries of [row] at the positions where [mask] is one. *)
Definition at_mask (row mask : list Z) : list Z :=
  (filter (λ p : Z * Z, p.2 = 1%Z) (zip row mask)).*1.

(** What the loop over [prompt_format] keeps: the three lists grow
    together, and the source holds, at the positions the mask marks, the
    trigger tokens consumed so far. *)
Definition aligned (trigger_tokens : list Z) (st : cursor) : Prop :=
  length (source st) = length (target st)
  ∧ length (target st) = length (mask st)
  ∧ (0 ≤ trigger_idx st)%Z
  ∧ at_mask (source st) (mask st)
    = take (Z.to_nat (trigger_idx st)) trigger_tokens.

(** A stand-in for [int]: decimal digits only. *)
Definition sample_int (s : string) : option Z :=
  if decide (s = "1") then Some 1%Z
  else if decide (s = "2") then Some 2%Z
  else if decide (s = "3") then Some 3%Z
  else None.

(** A stand-in tokenizer: one token per character, its code as id. *)
Definition sample_bert : tokenizer :=
  {| tokenize := λ s, map (λ c, String c EmptyString) (String.list_ascii_of_string s);
     convert_tokens_to_ids :=
       map (λ t, match t with
                 | String c _ => Z.of_N (Ascii.N_of_ascii c)
                 | EmptyString => 0%Z
                 end) |}.

End Utils.

(** ** Statements about the filter *)

(** The vocabulary entries the loop of lines 364-374 filters. *)
Definition filtered_word (E : environment) (entry : pystr * Z) : Prop :=
  length entry.1 ≠ 1
  ∧ (entry.2 < tokenizer_vocab_size (tok E))%Z
  ∧ (entry.2 ∈ all_special_ids (tok E)
     ∨ isupper (str_isupper E) entry.2 (tok E) = Some true).

(** A filter of [len] entries that holds [-1e32] at the positions [marked]
    and zero elsewhere. *)
Definition filter_marks (len : nat) (marked : nat → Prop) (filter : list Q) : Prop :=
  length filter = len
  ∧ ∀ i x, filter !! i = Some x →
           (x = minus_1e32 ∨ x = 0%Q) ∧ (x = minus_1e32 ↔ marked i).

(** ** Statements about the losses and the fallback *)

(** The total loss of a row of label ids as the specification words it:
    the negative log-sum-exp of the log-probabilities of its tokens, a
    token of id 0 being masked out as padding by [-1e32]. *)
Definition total_loss (F : float_fns) (logits : list Q) (label_ids : list Z) : Q :=
  (- logsumexp F
       (map (λ id, default 0 (log_softmax F logits !! Z.to_nat id)
                   - inject_Z (10 ^ 32) * (if decide (id = 0)%Z then 1 else 0))
            label_ids))%Q.


(** A store whose trigger mask has one row for ids of two rows. *)
Definition broadcast_heap : heap :=
  mkHeap {[ 0 := {[ "input_ids" := 1; "trigger_mask" := 2 ]} ]}
         {[ 1 := TInt [[5; 6]; [7; 8]]%Z; 2 := TBool [[true; false]] ]}.
(** * Part II: properties *)

(** ** Generic list facts *)

Lemma mapM_Some_map {A B} (f : A → B) (l : list A) :
  mapM (λ x, Some (f x)) l = Some (map f l).
Proof. induction l as [|x l IH]; [done|]. cbn. by rewrite IH. Qed.

Lemma mapM_ext_in {A B} (f g : A → option B) (l : list A) :
  (∀ x, x ∈ l → f x = g x) → mapM f l = mapM g l.
Proof.
  induction l as [|x l IH]; intros Hfg; [done|]. cbn.
  rewrite (Hfg x) by left. rewrite IH; [done|].
  intros y Hy. apply Hfg. by right.
Qed.

(** ** Consecutive windows of a list *)

Section Windows.
Context {A : Type}.
Implicit Types l : list A.

Lemma concat_windows n l m :
  concat (map (Torch.window n l) (seq 0 m)) = take (m * n) l.
Proof.
  induction m as [|m IH]; [done|].
  rewrite seq_S, map_app, concat_app, IH.
  replace (S m * n) with (m * n + n) by lia.
  rewrite <- take_take_drop. cbn [map concat Nat.add].
  by rewrite app_nil_r.
Qed.

Lemma window_length n l k :
  length (Torch.window n l k) = n `min` (length l - k * n).
Proof. unfold Torch.window. by rewrite length_take, length_drop. Qed.

Lemma slice_window l (bs : Z) (k : nat) :
  (0 < bs)%Z →
  Py.slice l (0 + Z.of_nat k * bs)
    (Z.min (0 + Z.of_nat k * bs + bs) (Z.of_nat (length l)))
  = Torch.window (Z.to_nat bs) l k.
Proof.
  intros Hbs. unfold Py.slice, Torch.window.
  replace (Z.to_nat (0 + Z.of_nat k * bs)) with (k * Z.to_nat bs) by nia.
  set (d := drop (k * Z.to_nat bs) l).
  destruct (decide (Z.to_nat bs ≤ length d)) as [Hle|Hgt].
  - f_equal. subst d. rewrite length_drop in Hle. nia.
  - rewrite (take_ge d (Z.to_nat bs)) by lia.
    apply take_ge. subst d. rewrite length_drop in *. nia.
Qed.

End Windows.

(** ** [iterate_batches] *)

Lemma num_batches_bounds size bs :
  (0 < bs)%Z → 0 < size →
  0 < num_batches size bs
  ∧ (num_batches size bs - 1) * Z.to_nat bs < size
  ∧ size ≤ num_batches size bs * Z.to_nat bs.
Proof.
  intros Hbs Hsize. unfold num_batches.
  destruct (decide _) as [_|]; [|lia].
  pose proof (Z.mul_div_le (Z.of_nat size - 0 - 1) bs Hbs).
  pose proof (Z.mul_succ_div_gt (Z.of_nat size - 0 - 1) bs Hbs).
  assert (0 ≤ (Z.of_nat size - 0 - 1) / bs)%Z by (apply Z.div_pos; lia).
  set (q := ((Z.of_nat size - 0 - 1) / bs)%Z) in *.
  replace (Z.to_nat (q + 1)) with (S (Z.to_nat q)) by lia.
  split; [lia|]. split; nia.
Qed.

Lemma iterate_batches_windows {A B} (np_array : list A → option (list B))
    indices (inputs : list A) (arr : list B) bs :
  (0 < bs)%Z → np_array inputs = Some arr → length arr = length inputs →
  iterate_batches np_array indices inputs bs false
  = Some (map (Torch.window (Z.to_nat bs) arr)
              (seq 0 (num_batches (length inputs) bs))).
Proof.
  intros Hbs Harr Hlen. unfold iterate_batches, Py.range. rewrite Harr.
  cbn [mbind option_bind].
  destruct (decide (bs = 0)%Z) as [|_]; [lia|].
  destruct (decide (0 < bs)%Z) as [_|]; [|lia].
  cbn [mbind option_bind]. fold (num_batches (length inputs) bs).
  rewrite mapM_Some_map, map_map. f_equal.
  apply map_ext. intros k. rewrite <- Hlen. by apply slice_window.
Qed.

(** C9.  For a positive [batch_size] and [shuffle=False]: when [np.array]
    refuses the input, [iterate_batches] raises; otherwise it yields
    batches whose concatenation, in order, is the array [np.array] makes
    of the input, which has one entry per element of the input; every
    batch but the last has length [batch_size]; the last one has the
    remaining length (between one and [batch_size]); and an empty input
    yields nothing. *)
Theorem iterate_batches_no_shuffle {A B} (np_array : list A → option (list B))
    (indices : list nat) (inputs : list A) (batch_size : Z) :
  (0 < batch_size)%Z →
  (np_array inputs = None →
   iterate_batches np_array indices inputs batch_size false = None)
  ∧ ∀ arr,
      np_array inputs = Some arr → length arr = length inputs →
      ∃ batches,
        iterate_batches np_array indices inputs batch_size false = Some batches
        ∧ concat batches = arr
        ∧ (∀ i b, batches !! i = Some b → S i < length batches →
                  Z.of_nat (length b) = batch_size)
        ∧ (∀ b, last batches = Some b →
                length b
                = length inputs - (length batches - 1) * Z.to_nat batch_size
                ∧ 0 < length b ∧ (Z.of_nat (length b) ≤ batch_size)%Z)
        ∧ (inputs = [] → batches = []).
Proof.
  intros Hbs. split.
  { intros Hnone. unfold iterate_batches. by rewrite Hnone. }
  intros arr Harr Hlen.
  eexists. split; [by apply iterate_batches_windows|].
  set (n := Z.to_nat batch_size).
  set (m := num_batches (length inputs) batch_size).
  assert (Hempty : length inputs = 0 → m = 0).
  { intros H0. subst m. unfold num_batches. rewrite H0.
    by destruct (decide _) as [?|_]; [lia|]. }
  assert (Hm : 0 < length inputs →
               0 < m ∧ (m - 1) * n < length inputs ∧ length inputs ≤ m * n).
  { intros. by apply num_batches_bounds. }
  rewrite length_map, length_seq.
  repeat split.
  - rewrite concat_windows. apply take_ge. rewrite Hlen.
    destruct (decide (length inputs = 0)) as [->|]; [lia|].
    destruct Hm as (_ & _ & ?); lia.
  - intros i b Hi Hlt.
    rewrite list_lookup_fmap in Hi.
    destruct (seq 0 m !! i) as [k|] eqn:Hk; [|done].
    apply lookup_seq in Hk as [-> _]. simplify_eq/=.
    rewrite window_length, Hlen. fold n.
    destruct Hm as (_ & ? & _); [lia|]. nia.
  - rewrite last_lookup, length_map, length_seq, list_lookup_fmap in H.
    destruct (seq 0 m !! pred m) as [k|] eqn:Hk; [|done].
    apply lookup_seq in Hk as [-> Hlt]. simplify_eq/=.
    rewrite window_length, Hlen. fold n.
    destruct Hm as (_ & ? & ?); [lia|].
    replace (m - 1) with (pred m) by lia. nia.
  - rewrite last_lookup, length_map, length_seq, list_lookup_fmap in H.
    destruct (seq 0 m !! pred m) as [k|] eqn:Hk; [|done].
    apply lookup_seq in Hk as [-> Hlt]. simplify_eq/=.
    rewrite window_length, Hlen. fold n.
    destruct Hm as (_ & ? & ?); [lia|]. nia.
  - rewrite last_lookup, length_map, length_seq, list_lookup_fmap in H.
    destruct (seq 0 m !! pred m) as [k|] eqn:Hk; [|done].
    apply lookup_seq in Hk as [-> Hlt]. simplify_eq/=.
    rewrite window_length, Hlen. fold n. lia.
  - intros ->. by rewrite Hempty.
Qed.

Lemma iterate_batches_no_shuffle_witness :
  ∃ batches,
    iterate_batches np_array_ints [] [1; 2; 3; 4; 5]%Z 2 false = Some batches
    ∧ concat batches = map np_int64 [1; 2; 3; 4; 5]%Z
    ∧ (∀ i b, batches !! i = Some b → S i < length batches →
              Z.of_nat (length b) = 2%Z)
    ∧ (∀ b, last batches = Some b →
            length b = 5 - (length batches - 1) * Z.to_nat 2
            ∧ 0 < length b ∧ (Z.of_nat (length b) ≤ 2)%Z).
Proof.
  destruct (iterate_batches_no_shuffle np_array_ints [] [1; 2; 3; 4; 5]%Z 2)
    as [_ H]; [lia|].
  destruct (H (map np_int64 [1; 2; 3; 4; 5]%Z) eq_refl eq_refl)
    as (batches & Hrun & Hconcat & Hfull & Hlast & _).
  by exists batches.
Defined.

(** C9, counterexample.  [np.array] turns the list of the integers
    [2^63 + 1] and [1] into an array of doubles, as the first fits
    [uint64] only and the second asks for [int64]: the batches hold
    [2^63] and [1.0], and their concatenation is not the input. *)
Lemma iterate_batches_coerces_integers :
  iterate_batches np_array_ints [] [2 ^ 63 + 1; 1]%Z 1 false
  = Some [[np_float64 (inject_Z (2 ^ 63))]; [np_float64 (inject_Z 1)]]
  ∧ ¬ (np_value (np_float64 (inject_Z (2 ^ 63))) == inject_Z (2 ^ 63 + 1))%Q.
Proof.
  split; [by vm_compute|]. cbn [np_value]. intros H%inject_Z_injective.
  by vm_compute in H.
Qed.

(** ** [topk] *)

#[local] Instance score_ge_trans : Transitive Torch.score_ge.
Proof. intros p q r Hpq Hqr. unfold Torch.score_ge in *. by eapply Qle_trans. Qed.

#[local] Instance score_ge_total : Total Torch.score_ge.
Proof.
  intros p q. unfold Torch.score_ge.
  destruct (Qlt_le_dec p.2 q.2) as [H|H]; [right|left]; [by apply Qlt_le_weak|done].
Qed.

Lemma elem_of_indexed v i x : (i, x) ∈ indexed v ↔ v !! i = Some x.
Proof.
  unfold indexed. rewrite list_elem_of_lookup. split.
  - intros [j Hj]. rewrite list_lookup_imap in Hj.
    destruct (v !! j) eqn:Hv; simplify_eq/=. done.
  - intros Hv. exists i. by rewrite list_lookup_imap, Hv.
Qed.

Lemma fst_indexed v : (indexed v).*1 = seq 0 (length v).
Proof.
  unfold indexed. rewrite fmap_imap. apply list_eq. intros i.
  rewrite list_lookup_imap. destruct (v !! i) eqn:Hv; cbn.
  - symmetry. apply lookup_seq. split; [done|]. by eapply lookup_lt_Some.
  - symmetry. apply lookup_ge_None. rewrite length_seq.
    by apply lookup_ge_None.
Qed.

Section TopK.
Variables (v : list Q) (k : nat) (cands : list nat).
Hypothesis Htopk : Torch.topk v k = Some cands.

Let sorted := merge_sort Torch.score_ge (indexed v).

Lemma topk_eq : k ≤ length v ∧ cands = (take k sorted).*1.
Proof.
  unfold Torch.topk in Htopk. case_decide; simplify_eq/=.
  split; [done|]. by rewrite fmap_take.
Qed.

Lemma topk_sorted_perm : sorted ≡ₚ indexed v.
Proof. apply merge_sort_Permutation. Qed.

Lemma topk_length : length cands = k.
Proof.
  destruct topk_eq as [Hk ->].
  rewrite length_fmap, length_take, topk_sorted_perm.
  unfold indexed. rewrite length_imap. lia.
Qed.

Lemma topk_NoDup : NoDup cands.
Proof.
  destruct topk_eq as [Hk ->]. rewrite fmap_take.
  eapply sublist_NoDup; [|apply sublist_take].
  rewrite topk_sorted_perm, fst_indexed. apply NoDup_seq.
Qed.

Lemma topk_elem_of c :
  c ∈ cands → ∃ x, v !! c = Some x ∧ (c, x) ∈ take k sorted.
Proof.
  destruct topk_eq as [Hk ->]. intros Hc.
  apply list_elem_of_fmap in Hc as ([c' x] & -> & Hin). exists x. split; [|done].
  apply elem_of_indexed. rewrite <- topk_sorted_perm.
  eapply elem_of_sublist; [done|apply sublist_take].
Qed.

Lemma topk_bound c : c ∈ cands → c < length v.
Proof. intros (x & Hx & _)%topk_elem_of. by eapply lookup_lt_Some. Qed.

Lemma topk_not_elem_of j y :
  j ∉ cands → v !! j = Some y → (j, y) ∈ drop k sorted.
Proof.
  destruct topk_eq as [Hk ->]. intros Hj Hv.
  apply elem_of_indexed in Hv. rewrite <- topk_sorted_perm in Hv.
  rewrite <- (take_drop k sorted) in Hv.
  apply elem_of_app in Hv as [Hv|Hv]; [|done].
  destruct Hj. apply list_elem_of_fmap. by exists (j, y).
Qed.

Lemma topk_largest c j x y :
  c ∈ cands → j ∉ cands → v !! c = Some x → v !! j = Some y → (y <= x)%Q.
Proof.
  intros (x' & Hx' & Hc)%topk_elem_of Hj Hx Hy. simplify_eq.
  pose proof (topk_not_elem_of j y Hj Hy) as Hd.
  assert (Hs : StronglySorted Torch.score_ge (take k sorted ++ drop k sorted)).
  { rewrite take_drop. apply StronglySorted_merge_sort; apply _. }
  by apply (StronglySorted_app_1_elem_of _ _ _ _ _ Hs Hc Hd).
Qed.

Lemma topk_descending i1 i2 c1 c2 x1 x2 :
  i1 ≤ i2 → cands !! i1 = Some c1 → cands !! i2 = Some c2 →
  v !! c1 = Some x1 → v !! c2 = Some x2 → (x2 <= x1)%Q.
Proof.
  destruct topk_eq as [Hk Heq]. intros Hle H1 H2 Hx1 Hx2.
  rewrite Heq, list_lookup_fmap in H1, H2.
  destruct (take k sorted !! i1) as [[c1' y1]|] eqn:Hl1; simplify_eq/=.
  destruct (take k sorted !! i2) as [[c2' y2]|] eqn:Hl2; simplify_eq/=.
  assert (Hin : ∀ i c y, take k sorted !! i = Some (c, y) → v !! c = Some y).
  { intros i c y Hl. apply elem_of_indexed. rewrite <- topk_sorted_perm.
    apply list_elem_of_lookup_2 in Hl.
    eapply elem_of_sublist; [done|apply sublist_take]. }
  pose proof (Hin _ _ _ Hl1). pose proof (Hin _ _ _ Hl2). simplify_eq.
  destruct (decide (i1 = i2)) as [->|Hne].
  { simplify_eq. apply Qle_refl. }
  assert (Hs : StronglySorted Torch.score_ge (take k sorted)).
  { apply (StronglySorted_app_1_l _ _ (drop k sorted)).
    rewrite take_drop. apply StronglySorted_merge_sort; apply _. }
  rewrite <- (take_drop_middle _ _ _ Hl2) in Hs, Hl1.
  rewrite lookup_app_l in Hl1 by (rewrite length_take; apply lookup_lt_Some in Hl2; lia).
  apply list_elem_of_lookup_2 in Hl1.
  eapply (StronglySorted_app_1_elem_of Torch.score_ge _ _ (c1, x1) (c2, x2)) in Hs;
    [done|done|left].
Qed.

End TopK.

(** ** [hotflip_attack] *)

Lemma Qleb_le x y : Qleb x y = true ↔ (x <= y)%Q.
Proof.
  unfold Qleb. destruct (Qlt_le_dec y x) as [H|H]; split; try done.
  intros H'. by apply Qlt_not_le in H.
Qed.

Lemma hotflip_attack_scores g E inc k f :
  Forall (λ row, length row = length g) E →
  length f = length E →
  hotflip_attack g E inc k (Some f) = Torch.topk (hotflip_scores g E inc f) k.
Proof.
  intros Hrows Hlen. unfold hotflip_attack, Torch.matmul.
  assert (forallb (λ row, bool_decide (length row = length g)) E = true) as ->.
  { apply forallb_forall. intros row Hin%list_elem_of_In.
    apply bool_decide_eq_true. by eapply Forall_forall in Hrows. }
  cbn [mbind option_bind]. unfold Torch.sub1.
  rewrite length_map. case_decide; [|congruence]. cbn [mbind option_bind].
  f_equal. unfold hotflip_scores. clear.
  revert f. induction E as [|row E IH]; intros [|x f]; cbn; try by destruct inc.
  specialize (IH f). destruct inc; cbn in *; by rewrite IH.
Qed.

Lemma hotflip_scores_length g E inc f :
  length f = length E → length (hotflip_scores g E inc f) = length E.
Proof. intros. unfold hotflip_scores. rewrite length_zip_with. lia. Qed.

Lemma hotflip_scores_lookup g E f i s :
  hotflip_scores g E false f !! i = Some s →
  ∃ row x, E !! i = Some row ∧ f !! i = Some x
           ∧ s = ((Torch.dot row g - x) * (-1))%Q.
Proof.
  unfold hotflip_scores. rewrite lookup_zip_with.
  destruct (E !! i) as [row|]; [|done]. destruct (f !! i) as [x|]; [|done].
  cbn. intros [= <-]. by exists row, x.
Qed.

Lemma elem_of_unfiltered_ids f i :
  i ∈ unfiltered_ids f ↔ ∃ x, f !! i = Some x ∧ (x == 0)%Q.
Proof.
  unfold unfiltered_ids. rewrite list_elem_of_In, filter_In, <- list_elem_of_In.
  rewrite elem_of_seq. split.
  - intros [_ H]. destruct (f !! i) as [x|]; [|done]. exists x. split; [done|].
    apply andb_true_iff in H as [H1%Qleb_le H2%Qleb_le]. by apply Qle_antisym.
  - intros (x & Hx & H0). split; [apply lookup_lt_Some in Hx; lia|].
    rewrite Hx. apply andb_true_iff. rewrite !Qleb_le, H0. split; apply Qle_refl.
Qed.

Lemma NoDup_unfiltered_ids f : NoDup (unfiltered_ids f).
Proof.
  unfold unfiltered_ids. apply NoDup_ListNoDup, List.NoDup_filter.
  apply NoDup_ListNoDup, NoDup_seq.
Qed.

(** C2.  For inputs of matching dimensions and at most as many candidates
    as tokens, [hotflip_attack] returns the indices of the
    [num_candidates] largest entries of the score vector (every returned
    entry is at least every entry not returned; the indices are distinct,
    in range, and come largest first).  With [increase_loss] unset, a
    token whose filter entry lies below [-2B], for a bound [B] on the
    absolute value of the dot products, is not returned as soon as
    [num_candidates] does not exceed the number of unfiltered tokens. *)
Theorem hotflip_attack_top_candidates (averaged_grad : list Q)
    (embedding_matrix : list (list Q)) (filter : list Q)
    (increase_loss : bool) (num_candidates : nat) :
  Forall (λ row, length row = length averaged_grad) embedding_matrix →
  length filter = length embedding_matrix →
  num_candidates ≤ length embedding_matrix →
  let scores := hotflip_scores averaged_grad embedding_matrix increase_loss filter in
  ∃ top_k_ids,
    hotflip_attack averaged_grad embedding_matrix increase_loss num_candidates
                   (Some filter) = Some top_k_ids
    ∧ length top_k_ids = num_candidates
    ∧ NoDup top_k_ids
    ∧ (∀ c, c ∈ top_k_ids → c < length embedding_matrix)
    ∧ (∀ c j x y, c ∈ top_k_ids → j ∉ top_k_ids →
                  scores !! c = Some x → scores !! j = Some y → (y <= x)%Q)
    ∧ (∀ i1 i2 c1 c2 x1 x2,
         i1 ≤ i2 → top_k_ids !! i1 = Some c1 → top_k_ids !! i2 = Some c2 →
         scores !! c1 = Some x1 → scores !! c2 = Some x2 → (x2 <= x1)%Q)
    ∧ (increase_loss = false →
       ∀ B : Q,
         (∀ row, row ∈ embedding_matrix →
                 (- B <= Torch.dot row averaged_grad)%Q
                 ∧ (Torch.dot row averaged_grad <= B)%Q) →
         num_candidates ≤ length (unfiltered_ids filter) →
         ∀ t x, filter !! t = Some x → (x < - (2 * B))%Q → t ∉ top_k_ids).
Proof.
  intros Hrows Hlen Hk scores.
  assert (Hsl : length scores = length embedding_matrix)
    by by apply hotflip_scores_length.
  destruct (Torch.topk scores num_candidates) as [cands|] eqn:Htopk; cycle 1.
  { unfold Torch.topk in Htopk. case_decide; [done|lia]. }
  exists cands. rewrite hotflip_attack_scores by done.
  split; [done|]. split; [by eapply topk_length|].
  split; [by eapply topk_NoDup|].
  split; [intros c Hc; rewrite <- Hsl; by eapply topk_bound|].
  split; [intros c j x y; by eapply topk_largest|].
  split; [intros i1 i2 c1 c2 x1 x2; by eapply topk_descending|].
  intros -> B Hdot Hcount t x Ht Hneg Hin.
  destruct (scores !! t) as [st|] eqn:Hst; cycle 1.
  { apply lookup_ge_None in Hst. apply lookup_lt_Some in Ht. lia. }
  pose proof Hst as Hst'.
  apply hotflip_scores_lookup in Hst' as (rowt & x' & Hrowt & Hx' & ->).
  simplify_eq.
  assert (Hsub : t :: unfiltered_ids filter ⊆+ cands).
  { apply NoDup_submseteq.
    - constructor; [|apply NoDup_unfiltered_ids].
      intros (y & Hy & H0)%elem_of_unfiltered_ids. simplify_eq.
      destruct (Hdot rowt) as [Hlo Hhi]; [by eapply list_elem_of_lookup_2|].
      rewrite H0 in Hneg. lra.
    - intros u [->|Hu]%elem_of_cons; [done|].
      destruct (decide (u ∈ cands)) as [|Hnin]; [done|exfalso].
      apply elem_of_unfiltered_ids in Hu as (y & Hy & H0).
      destruct (scores !! u) as [su|] eqn:Hsu; cycle 1.
      { apply lookup_ge_None in Hsu. apply lookup_lt_Some in Hy. lia. }
      pose proof Hsu as Hsu'.
      apply hotflip_scores_lookup in Hsu' as (rowu & y' & Hrowu & Hy' & ->).
      simplify_eq.
      pose proof (topk_largest _ _ _ Htopk t u _ _ Hin Hnin Hst Hsu) as Hle.
      destruct (Hdot rowt) as [Hlo Hhi]; [by eapply list_elem_of_lookup_2|].
      destruct (Hdot rowu) as [Hlo' Hhi']; [by eapply list_elem_of_lookup_2|].
      rewrite H0 in Hle. lra. }
  apply submseteq_length in Hsub. cbn in Hsub.
  rewrite (topk_length _ _ _ Htopk) in Hsub. lia.
Qed.

Lemma hotflip_attack_top_candidates_witness :
  ∃ top_k_ids,
    hotflip_attack [1; 2]%Q [[1; 0]; [0; 1]; [1; 1]]%Q false 2
                   (Some [0; - inject_Z (10 ^ 32); 0]%Q) = Some top_k_ids
    ∧ length top_k_ids = 2
    ∧ 1 ∉ top_k_ids.
Proof.
  destruct (hotflip_attack_top_candidates
              [1; 2]%Q [[1; 0]; [0; 1]; [1; 1]]%Q
              [0; - inject_Z (10 ^ 32); 0]%Q false 2)
    as (ids & Heq & Hlen & _ & _ & _ & _ & Hfilter).
  - repeat constructor.
  - reflexivity.
  - simpl. lia.
  - exists ids. split; [exact Heq|]. split; [exact Hlen|].
    apply (Hfilter eq_refl 3%Q) with (x := (- inject_Z (10 ^ 32))%Q).
    + intros row Hrow.
      repeat (apply elem_of_cons in Hrow as [->|Hrow]; [by vm_compute|]).
      by apply elem_of_nil in Hrow.
    + vm_compute. lia.
    + reflexivity.
    + by vm_compute.
Defined.

(** ** [masked_scatter] *)

#[local] Arguments Torch.count_true : simpl never.
#[local] Arguments total_true : simpl never.

Lemma count_true_nil : Torch.count_true [] = 0.
Proof. done. Qed.

Lemma count_true_cons b m :
  Torch.count_true (b :: m) = (if b then 1 else 0) + Torch.count_true m.
Proof. unfold Torch.count_true. rewrite filter_cons. by destruct b. Qed.

Lemma scatter_row_Some (row : list Z) (mask : list bool) (src : list Z) :
  length row = length mask → Torch.count_true mask ≤ length src →
  ∃ r, Torch.scatter_row row mask src = Some (r, drop (Torch.count_true mask) src)
       ∧ length r = length row
       ∧ ∀ (j : nat) (b : bool), mask !! j = Some b →
           r !! j = if b then src !! Torch.count_true (take j mask) else row !! j.
Proof.
  revert mask src. induction row as [|x row IH]; intros [|b mask] src Hlen Hcnt;
    simplify_eq/=.
  { exists []. by repeat split. }
  rewrite count_true_cons in Hcnt. destruct b.
  - destruct src as [|s src]; [simpl in Hcnt; lia|].
    destruct (IH mask src) as (r & -> & Hr & Hlk); [done|simpl in Hcnt; lia|].
    exists (s :: r). rewrite count_true_cons. cbn. split; [done|].
    split; [by rewrite Hr|].
    intros [|j] b Hb; simplify_eq/=; [done|]. by apply Hlk.
  - destruct (IH mask src) as (r & -> & Hr & Hlk); [done|simpl in Hcnt; lia|].
    exists (x :: r). rewrite count_true_cons. cbn. split; [done|].
    split; [by rewrite Hr|].
    intros [|j] b Hb; simplify_eq/=; [done|]. by apply Hlk.
Qed.

Lemma scatter_row_None (row : list Z) (mask : list bool) (src : list Z) :
  length src < Torch.count_true mask → Torch.scatter_row row mask src = None.
Proof.
  revert mask src. induction row as [|x row IH]; intros [|b mask] src Hcnt;
    try done; try (rewrite count_true_nil in Hcnt; lia).
  rewrite count_true_cons in Hcnt. cbn. destruct b.
  - destruct src as [|s src]; [done|]. rewrite IH; [done|simpl in *; lia].
  - rewrite IH; [done|simpl in *; lia].
Qed.

Lemma shape_eqb_cons {A B} (r : list A) (m : list B) t ms :
  Torch.shape_eqb (r :: t) (m :: ms) = true
  ↔ length r = length m ∧ Torch.shape_eqb t ms = true.
Proof.
  unfold Torch.shape_eqb. cbn.
  rewrite !andb_true_iff, !bool_decide_eq_true. intuition lia.
Qed.


Lemma total_true_cons m mask :
  total_true (m :: mask) = Torch.count_true m + total_true mask.
Proof. done. Qed.

Lemma masked_scatter_same_shape {A} (input : list (list A))
    (mask : list (list bool)) (src : list A) :
  Torch.shape_eqb input mask = true →
  Torch.masked_scatter input mask src = Torch.scatter_rows input mask src.
Proof. intros H. unfold Torch.masked_scatter. by rewrite H. Qed.

Lemma masked_scatter_Some (input : list (list Z)) (mask : list (list bool))
    (src : list Z) :
  Torch.shape_eqb input mask = true → total_true mask ≤ length src →
  ∃ filled, Torch.masked_scatter input mask src = Some filled
    ∧ Torch.shape_eqb filled mask = true
    ∧ ∀ (i j : nat) (b : bool), entry mask i j = Some b →
        entry filled i j = if b then src !! rank mask i j else entry input i j.
Proof.
  intros Hsame. rewrite masked_scatter_same_shape by done. revert Hsame.
  revert mask src. induction input as [|row input IH]; intros [|m mask] src Hshape Hcnt;
    try done.
  { exists []. split; [done|]. split; [done|]. by intros [|i] j b. }
  apply shape_eqb_cons in Hshape as [Hlen Hshape].
  rewrite total_true_cons in Hcnt.
  destruct (scatter_row_Some row m src) as (r & Hr & Hrl & Hrk); [done|lia|].
  destruct (IH mask (drop (Torch.count_true m) src)) as (rows & Hrows & Hsh & Hlk);
    [done|rewrite length_drop; lia|].
  exists (r :: rows). cbn. rewrite Hr. cbn. rewrite Hrows. cbn.
  split; [done|]. split; [apply shape_eqb_cons; split; [congruence|done]|].
  intros [|i] j b Hb.
  - unfold entry, rank in *. cbn in Hb |- *. rewrite (Hrk j b Hb).
    by change (total_true []) with 0.
  - change (entry (r :: rows) (S i) j) with (entry rows i j).
    change (entry (row :: input) (S i) j) with (entry input i j).
    change (entry (m :: mask) (S i) j) with (entry mask i j) in Hb.
    rewrite (Hlk i j b Hb). destruct b; [|done].
    rewrite lookup_drop. unfold rank.
    change (take (S i) (m :: mask)) with (m :: take i mask).
    change ((m :: mask) !! S i) with (mask !! i).
    rewrite total_true_cons. f_equal. lia.
Qed.

Lemma scatter_rows_None (input : list (list Z)) (mask : list (list bool))
    (src : list Z) :
  length src < total_true mask → Torch.scatter_rows input mask src = None.
Proof.
  revert mask src. induction input as [|row input IH]; intros [|m mask] src Hcnt;
    try done.
  { change (total_true []) with 0 in Hcnt. lia. }
  rewrite total_true_cons in Hcnt. cbn.
  destruct (decide (length src < Torch.count_true m)) as [Hlt|Hge].
  { by rewrite scatter_row_None. }
  destruct (Torch.scatter_row row m src) as [[r rest]|] eqn:Hr; [|done]. cbn.
  assert (rest = drop (Torch.count_true m) src) as ->.
  { clear -Hr. revert m src r rest Hr.
    induction row as [|x row IHr]; intros [|b m] src r rest Hr; simplify_eq/=;
      [done|].
    rewrite count_true_cons. destruct b.
    - destruct src as [|s src]; [done|].
      destruct (Torch.scatter_row row m src) as [[r' rest']|] eqn:Hr'; simplify_eq/=.
      by apply IHr in Hr'.
    - destruct (Torch.scatter_row row m src) as [[r' rest']|] eqn:Hr'; simplify_eq/=.
      by apply IHr in Hr'. }
  rewrite IH; [done|]. rewrite length_drop. lia.
Qed.

Lemma masked_scatter_None (input : list (list Z)) (mask : list (list bool))
    (src : list Z) :
  Torch.shape_eqb input mask = true → length src < total_true mask →
  Torch.masked_scatter input mask src = None.
Proof.
  intros Hsame Hlt. rewrite masked_scatter_same_shape by done.
  by apply scatter_rows_None.
Qed.

Lemma lookup_repeat_row {A} (row : list A) n r :
  r < n * length row →
  Torch.repeat_row row n !! r = row !! (r `mod` length row).
Proof.
  unfold Torch.repeat_row. revert r. induction n as [|n IH]; intros r Hr; [lia|].
  cbn. destruct (decide (r < length row)) as [Hlt|Hge].
  - rewrite lookup_app_l by done. by rewrite Nat.mod_small.
  - rewrite lookup_app_r by lia. rewrite IH by lia.
    f_equal. replace r with ((r - length row) + 1 * length row) at 2 by lia.
    rewrite Nat.Div0.mod_add. done.
Qed.

Lemma length_repeat_row {A} (row : list A) n :
  length (Torch.repeat_row row n) = n * length row.
Proof.
  unfold Torch.repeat_row. induction n as [|n IH]; [done|].
  cbn. rewrite length_app, IH. done.
Qed.

Lemma rank_lt_total mask i j :
  entry mask i j = Some true → rank mask i j < total_true mask.
Proof.
  unfold entry, rank. revert i. induction mask as [|m mask IH]; intros [|i] H;
    simplify_eq/=.
  - rewrite total_true_cons.
    assert (Torch.count_true (take j m) < Torch.count_true m); [|unfold total_true; simpl; lia].
    clear -H. revert j H. induction m as [|b m IHm]; intros [|j] H; simplify_eq/=.
    + rewrite count_true_cons. unfold Torch.count_true. simpl. lia.
    + rewrite !count_true_cons. specialize (IHm j H). lia.
  - rewrite !total_true_cons. specialize (IH i H). lia.
Qed.

(** What [masked_scatter] with the repeated trigger row computes. *)
Lemma masked_scatter_trigger (input_ids : list (list Z))
    (mask : list (list bool)) (trigger_ids : list Z) :
  Torch.shape_eqb input_ids mask = true →
  total_true mask ≤ length mask * length trigger_ids →
  ∃ filled,
    Torch.masked_scatter input_ids mask (Torch.repeat_row trigger_ids (length mask))
    = Some filled
    ∧ holds_trigger_ids input_ids filled mask trigger_ids.
Proof.
  intros Hshape Hcnt.
  destruct (masked_scatter_Some input_ids mask
              (Torch.repeat_row trigger_ids (length mask)))
    as (filled & Heq & Hsh & Hlk); [done|by rewrite length_repeat_row|].
  exists filled. split; [done|]. split; [done|].
  intros i j b Hb. rewrite (Hlk i j b Hb). destruct b; [|done].
  apply lookup_repeat_row. apply rank_lt_total in Hb. lia.
Qed.

(** ** Frame rules for the store *)

Section Frame.
Variable h0 : heap.

Lemma preserved_refl h : preserved h h.
Proof. by split. Qed.

Lemma framed_ret {A} (x : A) (R : A → Prop) : R x → framed h0 (mret x) R.
Proof. intros HR h Hh. split; [done|]. by intros y [= <-]. Qed.

Lemma framed_lift {A} (o : option A) : framed h0 (lift o) (λ _, True).
Proof. by intros h Hh. Qed.

Lemma framed_bind {A B} (c : M A) (f : A → M B) (R : A → Prop) (S : B → Prop) :
  framed h0 c R → (∀ x, R x → framed h0 (f x) S) → framed h0 (c ≫= f) S.
Proof.
  intros Hc Hf h Hh. destruct (Hc h Hh) as [Hpres HR].
  unfold mbind, M_bind. destruct (c h) as [[x|] h'] eqn:Hch; cbn in *.
  - by apply Hf; [apply HR|].
  - by split.
Qed.

Lemma framed_weaken {A} (c : M A) (R S : A → Prop) :
  framed h0 c R → (∀ x, R x → S x) → framed h0 c S.
Proof. intros Hc HRS h Hh. destruct (Hc h Hh). naive_solver. Qed.

Lemma framed_dict_copy d : framed h0 (dict_copy d) (λ d', dicts h0 !! d' = None).
Proof.
  intros h [Hd Ht]. unfold dict_copy.
  destruct (dicts h !! d) as [m|]; cbn; [|by repeat split].
  set (d' := fresh (dom (dicts h))).
  assert (Hfresh : dicts h !! d' = None).
  { apply not_elem_of_dom, is_fresh. }
  repeat split; cbn.
  - etrans; [done|]. by apply insert_subseteq.
  - done.
  - intros x [= <-]. by eapply lookup_weaken_None.
Qed.

Lemma preserved_update_own h d m :
  preserved h0 h → dicts h0 !! d = None →
  preserved h0 (mkHeap (<[d := m]> (dicts h)) (tensors h)).
Proof.
  intros [Hd Ht] Hown. split; [|done]. cbn.
  apply map_subseteq_spec. intros d' m' Hm'.
  rewrite lookup_insert_ne by congruence.
  by eapply lookup_weaken.
Qed.

Lemma framed_dict_pop d k :
  dicts h0 !! d = None → framed h0 (dict_pop d k) (λ _, True).
Proof.
  intros Hown h Hh. unfold dict_pop.
  destruct (dicts h !! d) as [m|]; cbn; [|done].
  destruct (m !! k); cbn; [|done].
  split; [|done]. by apply preserved_update_own.
Qed.

Lemma framed_dict_setitem d k v :
  dicts h0 !! d = None → framed h0 (dict_setitem d k v) (λ _, True).
Proof.
  intros Hown h Hh. unfold dict_setitem.
  destruct (dicts h !! d) as [m|]; cbn; [|done].
  split; [|done]. by apply preserved_update_own.
Qed.

Lemma framed_dict_getitem d k : framed h0 (dict_getitem d k) (λ _, True).
Proof. by intros h Hh. Qed.

Lemma framed_dict_view d : framed h0 (dict_view d) (λ _, True).
Proof. by intros h Hh. Qed.

Lemma framed_tensor_read l : framed h0 (tensor_read l) (λ _, True).
Proof. by intros h Hh. Qed.

Lemma framed_tensor_alloc t : framed h0 (tensor_alloc t) (λ _, True).
Proof.
  intros h [Hd Ht]. unfold tensor_alloc. cbn. split; [|done].
  split; [done|]. cbn. etrans; [done|].
  apply insert_subseteq, not_elem_of_dom, is_fresh.
Qed.

Lemma framed_replace_trigger_tokens model_inputs trigger_ids trigger_mask :
  framed h0 (replace_trigger_tokens model_inputs trigger_ids trigger_mask)
         (λ out, dicts h0 !! out = None).
Proof.
  unfold replace_trigger_tokens.
  eapply framed_bind; [apply framed_dict_copy|]. intros out Hout.
  eapply framed_bind; [apply framed_dict_getitem|]. intros input_ids _.
  eapply framed_bind; [apply framed_tensor_read|]. intros mask _.
  eapply framed_bind; [apply framed_tensor_read|]. intros ids _.
  eapply (framed_bind _ _ (λ _, True)).
  { destruct ids as [ids|ids], mask as [mask|mask];
      try by apply framed_ret.
    destruct (Torch.masked_scatter _ _ _);
      [apply framed_tensor_alloc|by apply framed_ret]. }
  intros filled _.
  eapply framed_bind; [by apply framed_dict_setitem|]. intros _ _.
  by apply framed_ret.
Qed.

Lemma framed_PredictWrapper_call self model_inputs trigger_ids :
  framed h0 (PredictWrapper_call self model_inputs trigger_ids) (λ _, True).
Proof.
  unfold PredictWrapper_call.
  eapply framed_bind; [apply framed_dict_copy|]. intros copy Hcopy.
  eapply framed_bind; [by apply framed_dict_pop|]. intros trigger_mask _.
  eapply framed_bind; [by apply framed_dict_pop|]. intros predict_mask _.
  eapply framed_bind; [by apply framed_dict_pop|]. intros last_trigger_mask _.
  eapply framed_bind; [apply framed_lift|]. intros lm _.
  eapply framed_bind; [apply framed_replace_trigger_tokens|]. intros out Hout.
  eapply (framed_bind _ _ (λ _, True)).
  { destruct (Py.contains _ _); [|by apply framed_ret].
    eapply framed_bind; [apply framed_dict_getitem|]. intros input_ids _.
    by apply framed_dict_setitem. }
  intros _ _.
  eapply framed_bind; [apply framed_dict_view|]. intros kwargs _.
  eapply framed_bind; [apply framed_lift|]. intros logits _.
  eapply framed_bind; [apply framed_tensor_read|]. intros mask _.
  destruct mask; apply framed_lift.
Qed.

End Frame.

(** C10.  Whatever they return or raise, [PredictWrapper.__call__] and
    [replace_trigger_tokens] leave every dictionary and every tensor of the
    caller's store as it was: they work on a copy of the dictionary, which
    shares the tensors, and write no tensor in place.  In particular the
    caller's dictionary keeps its entries (its [input_ids] and its three
    masks among them), and the tensors they refer to are unchanged. *)
Theorem model_inputs_not_mutated (self : language_model) (model_inputs : loc)
    (trigger_ids : list Z) (trigger_mask : loc) (h : heap) :
  let after_replace :=
    (replace_trigger_tokens model_inputs trigger_ids trigger_mask h).2 in
  let after_call := (PredictWrapper_call self model_inputs trigger_ids h).2 in
  preserved h after_replace
  ∧ preserved h after_call
  ∧ ∀ entries, dicts h !! model_inputs = Some entries →
      dicts after_replace !! model_inputs = Some entries
      ∧ dicts after_call !! model_inputs = Some entries
      ∧ ∀ k l t, entries !! k = Some l → tensors h !! l = Some t →
          tensors after_replace !! l = Some t
          ∧ tensors after_call !! l = Some t.
Proof.
  intros after_replace after_call.
  destruct (framed_replace_trigger_tokens h model_inputs trigger_ids trigger_mask h)
    as [[Hd1 Ht1] _]; [apply preserved_refl|].
  destruct (framed_PredictWrapper_call h self model_inputs trigger_ids h)
    as [[Hd2 Ht2] _]; [apply preserved_refl|].
  split; [done|]. split; [done|].
  intros entries Hentries.
  split; [by eapply lookup_weaken|]. split; [by eapply lookup_weaken|].
  intros k l t _ Hl. split; by eapply lookup_weaken.
Qed.

Lemma model_inputs_not_mutated_witness :
  let after_call :=
    (PredictWrapper_call (sample_model "bert-base-cased") 0 [42]%Z sample_heap).2 in
  dicts after_call !! 0 = dicts sample_heap !! 0
  ∧ tensors after_call !! 1 = Some (TInt [[5; 6; 7]]%Z)
  ∧ tensors after_call !! 2 = Some (TBool [[true; false; false]]).
Proof.
  destruct (model_inputs_not_mutated (sample_model "bert-base-cased") 0 [42]%Z 2
              sample_heap) as (_ & _ & H).
  destruct (H _ eq_refl) as (_ & Hd & Ht).
  split; [exact Hd|]. split.
  - apply (Ht "input_ids" 1 _ eq_refl eq_refl).
  - apply (Ht "trigger_mask" 2 _ eq_refl eq_refl).
Defined.

(** ** Running computations on the store *)

Lemma bind_Some {A B} (c : M A) (f : A → M B) h x h' :
  c h = (Some x, h') → (c ≫= f) h = f x h'.
Proof. intros Hc. unfold mbind, M_bind. by rewrite Hc. Qed.


Lemma fresh_dict h : dicts h !! fresh (dom (dicts h)) = None.
Proof. apply not_elem_of_dom, is_fresh. Qed.

Lemma fresh_tensor h : tensors h !! fresh (dom (tensors h)) = None.
Proof. apply not_elem_of_dom, is_fresh. Qed.

Lemma fresh_dict_ne h d m : dicts h !! d = Some m → fresh (dom (dicts h)) ≠ d.
Proof. intros Hd Heq. rewrite <- Heq, fresh_dict in Hd. done. Qed.

Lemma dict_copy_eval h d m :
  dicts h !! d = Some m →
  dict_copy d h
  = (Some (fresh (dom (dicts h))),
     mkHeap (<[fresh (dom (dicts h)) := m]> (dicts h)) (tensors h)).
Proof. intros Hd. unfold dict_copy. by rewrite Hd. Qed.

Lemma dict_getitem_eval h d m k v :
  dicts h !! d = Some m → m !! k = Some v → dict_getitem d k h = (Some v, h).
Proof. intros Hd Hk. unfold dict_getitem. rewrite Hd. cbn. by rewrite Hk. Qed.

Lemma dict_pop_eval h d m k v :
  dicts h !! d = Some m → m !! k = Some v →
  dict_pop d k h = (Some v, mkHeap (<[d := delete k m]> (dicts h)) (tensors h)).
Proof. intros Hd Hk. unfold dict_pop. by rewrite Hd, Hk. Qed.

Lemma dict_setitem_eval h d m k v :
  dicts h !! d = Some m →
  dict_setitem d k v h = (Some (), mkHeap (<[d := <[k := v]> m]> (dicts h)) (tensors h)).
Proof. intros Hd. unfold dict_setitem. by rewrite Hd. Qed.

Lemma tensor_read_eval h l t :
  tensors h !! l = Some t → tensor_read l h = (Some t, h).
Proof. intros Hl. unfold tensor_read. by rewrite Hl. Qed.

(** The result of [replace_trigger_tokens] on a dictionary with integer
    [input_ids] and a boolean mask. *)
Lemma replace_trigger_tokens_eval h d entries li lm ids mask trigger_ids :
  dicts h !! d = Some entries →
  entries !! "input_ids" = Some li →
  tensors h !! li = Some (TInt ids) →
  tensors h !! lm = Some (TBool mask) →
  let out := fresh (dom (dicts h)) in
  replace_trigger_tokens d trigger_ids lm h
  = match Torch.masked_scatter ids mask
            (Torch.repeat_row trigger_ids (length mask)) with
    | Some filled =>
        let lf := fresh (dom (tensors h)) in
        (Some out,
         mkHeap (<[out := <["input_ids" := lf]> entries]> (dicts h))
                (<[lf := TInt filled]> (tensors h)))
    | None =>
        (Some out,
         mkHeap (<[out := <["input_ids" := li]> entries]> (dicts h)) (tensors h))
    end.
Proof.
  intros Hd Hli Hids Hmask out. unfold replace_trigger_tokens.
  erewrite bind_Some by by apply dict_copy_eval.
  erewrite bind_Some; cycle 1.
  { eapply dict_getitem_eval; [|done]. cbn.
    rewrite lookup_insert_ne by by eapply fresh_dict_ne. done. }
  erewrite bind_Some by by apply tensor_read_eval.
  erewrite bind_Some by by apply tensor_read_eval.
  cbv beta iota zeta.
  destruct (Torch.masked_scatter _ _ _) as [filled|].
  - erewrite bind_Some by reflexivity.
    erewrite bind_Some; cycle 1.
    { apply dict_setitem_eval. cbn. apply lookup_insert_eq. }
    cbn. by rewrite insert_insert_eq.
  - erewrite bind_Some by reflexivity.
    erewrite bind_Some; cycle 1.
    { apply dict_setitem_eval. cbn. apply lookup_insert_eq. }
    cbn. by rewrite insert_insert_eq.
Qed.

(** ** [replace_trigger_tokens] *)

(** C3, as the code has it.  On a dictionary whose [input_ids] and mask
    have one shape, [replace_trigger_tokens] returns a new dictionary in
    which every entry other than [input_ids] is the reference the input
    holds, no tensor of the input having changed.  When the mask has at
    most [bsz * T] set positions ([T] trigger ids, [bsz] mask rows), the new
    [input_ids] holds the trigger ids at exactly the set positions, in
    order and row by row, and the original ids elsewhere; when it has
    more, [masked_scatter] raises, the error is caught, and the new
    [input_ids] is the original tensor. *)
Theorem replace_trigger_tokens_fills (h : heap) (model_inputs : loc)
    (entries : gmap string loc) (li lm : loc) (ids : list (list Z))
    (mask : list (list bool)) (trigger_ids : list Z) :
  dicts h !! model_inputs = Some entries →
  entries !! "input_ids" = Some li →
  tensors h !! li = Some (TInt ids) →
  tensors h !! lm = Some (TBool mask) →
  Torch.shape_eqb ids mask = true →
  ∃ out h' filled,
    replace_trigger_tokens model_inputs trigger_ids lm h = (Some out, h')
    ∧ dict_entry h' out "input_ids" = Some (TInt filled)
    ∧ (if decide (total_true mask ≤ length mask * length trigger_ids)
       then holds_trigger_ids ids filled mask trigger_ids
       else filled = ids ∧ dict_ref h' out "input_ids" = Some li)
    ∧ (∀ k, k ≠ "input_ids" → dict_ref h' out k = entries !! k)
    ∧ preserved h h'.
Proof.
  intros Hd Hli Hids Hmask Hshape.
  rewrite (replace_trigger_tokens_eval h model_inputs entries li lm ids mask)
    by done.
  cbv zeta. set (out := fresh (dom (dicts h))).
  assert (Hout : dicts h !! out = None) by apply fresh_dict.
  destruct (decide (total_true mask ≤ length mask * length trigger_ids))
    as [Hle|Hgt].
  - destruct (masked_scatter_trigger ids mask trigger_ids) as (filled & -> & Hf);
      [done..|].
    set (lf := fresh (dom (tensors h))).
    assert (Hlf : tensors h !! lf = None) by apply fresh_tensor.
    eexists out, _, filled. split; [done|].
    unfold dict_entry, dict_ref; cbn. rewrite !lookup_insert_eq; cbn.
    rewrite !lookup_insert_eq; cbn. rewrite !lookup_insert_eq.
    split; [done|]. split; [done|]. split.
    { intros k Hk. by rewrite lookup_insert_ne. }
    split; cbn; by apply insert_subseteq.
  - rewrite masked_scatter_None by (rewrite ?length_repeat_row; done || lia).
    eexists out, _, ids. split; [done|].
    unfold dict_entry, dict_ref; cbn. rewrite !lookup_insert_eq; cbn.
    rewrite !lookup_insert_eq; cbn.
    split; [done|]. split; [done|]. split.
    { intros k Hk. by rewrite lookup_insert_ne. }
    split; cbn; [by apply insert_subseteq|done].
Qed.

Lemma replace_trigger_tokens_fills_witness :
  ∃ out h',
    replace_trigger_tokens 0 [42]%Z 2 sample_heap = (Some out, h')
    ∧ dict_entry h' out "input_ids" = Some (TInt [[42; 6; 7]]%Z)
    ∧ dict_ref h' out "predict_mask" = Some 3.
Proof.
  destruct (replace_trigger_tokens_fills sample_heap 0
              {[ "input_ids" := 1; "trigger_mask" := 2;
                 "predict_mask" := 3; "last_trigger_mask" := 4 ]}
              1 2 [[5; 6; 7]]%Z [[true; false; false]] [42]%Z)
    as (out & h' & filled & Hrun & Hentry & Hfill & Hother & _);
    [reflexivity..|].
  exists out, h'. split; [exact Hrun|].
  destruct (decide _) as [_|Hgt] in Hfill; [|by vm_compute in Hgt; lia].
  destruct Hfill as [Hshape Hfill]. split.
  - rewrite Hentry. do 2 f_equal.
    destruct filled as [|[|x0 [|x1 [|x2 [|]]]] [|]]; try discriminate Hshape.
    pose proof (Hfill 0 0 true eq_refl) as H0.
    pose proof (Hfill 0 1 false eq_refl) as H1.
    pose proof (Hfill 0 2 false eq_refl) as H2.
    vm_compute in H0, H1, H2. congruence.
  - by rewrite Hother.
Defined.

(** C3, as stated, fails when the mask has more set positions than there
    are trigger ids to place: the error of [masked_scatter] is caught and
    [input_ids] is returned as it was, so the set positions do not hold
    trigger ids. *)
Lemma replace_trigger_tokens_overfull_mask :
  ∃ out h' filled,
    replace_trigger_tokens 0 [9]%Z 2 overfull_heap = (Some out, h')
    ∧ dict_entry h' out "input_ids" = Some (TInt filled)
    ∧ filled = [[5; 6]]%Z
    ∧ ¬ holds_trigger_ids [[5; 6]]%Z filled [[true; true]] [9]%Z.
Proof.
  eexists _, _, _. split; [vm_compute; reflexivity|].
  split; [vm_compute; reflexivity|]. split; [reflexivity|].
  intros [_ H]. specialize (H 0 0 true eq_refl). vm_compute in H. discriminate.
Qed.

(** ** [view] and [masked_select] *)

Lemma window_concat_0 {A} (r : list A) (c : list A) :
  Torch.window (length r) (r ++ c) 0 = r.
Proof. unfold Torch.window. by rewrite Nat.mul_0_l, drop_0, take_app_length. Qed.

Lemma window_concat_S {A} (r : list A) (c : list A) k :
  Torch.window (length r) (r ++ c) (S k) = Torch.window (length r) c k.
Proof.
  unfold Torch.window. f_equal.
  replace (S k * length r) with (length r + k * length r) by lia.
  by rewrite drop_app_add.
Qed.

Lemma windows_concat {A} w (rows : list (list A)) :
  Forall (λ r, length r = w) rows →
  map (Torch.window w (concat rows)) (seq 0 (length rows)) = rows.
Proof.
  induction 1 as [|r rows Hr Hrows IH]; [done|].
  cbn [length seq map concat]. subst w.
  rewrite window_concat_0. f_equal.
  rewrite <- seq_shift, map_map. rewrite <- IH at 2.
  apply map_ext. intros k. apply window_concat_S.
Qed.

Lemma length_concat_uniform {A} w (rows : list (list A)) :
  Forall (λ r, length r = w) rows → length (concat rows) = length rows * w.
Proof. induction 1 as [|r rows Hr Hrows IH]; [done|]. cbn. rewrite length_app. lia. Qed.

Lemma view_rows_concat {A} w (rows : list (list A)) :
  0 < length rows → Forall (λ r, length r = w) rows →
  Torch.view_rows (length rows) (concat rows) = Some rows.
Proof.
  intros Hpos Hrows. unfold Torch.view_rows.
  destruct (decide (length rows = 0)) as [|_]; [lia|].
  rewrite (length_concat_uniform w) by done.
  rewrite Nat.mul_comm, Nat.Div0.mod_mul.
  destruct (decide (0 = 0)) as [_|]; [|done].
  rewrite Nat.div_mul by lia. f_equal. by apply windows_concat.
Qed.

(** ** [PredictWrapper.__call__] *)

Section PredictWrapperEval.
Variables (self : language_model) (h : heap) (d : loc).
Variables (entries : gmap string loc) (li ltm lpm llm : loc).
Variables (ids : list (list Z)) (tmask : list (list bool)) (lm : lm_type).
Variable trigger_ids : list Z.

Hypothesis Hd : dicts h !! d = Some entries.
Hypothesis Hli : entries !! "input_ids" = Some li.
Hypothesis Hltm : entries !! "trigger_mask" = Some ltm.
Hypothesis Hlpm : entries !! "predict_mask" = Some lpm.
Hypothesis Hllm : entries !! "last_trigger_mask" = Some llm.
Hypothesis Hclosed : ∀ k l, entries !! k = Some l → is_Some (tensors h !! l).
Hypothesis Hids : tensors h !! li = Some (TInt ids).
Hypothesis Htmask : tensors h !! ltm = Some (TBool tmask).
Hypothesis Hlm : LM_TYPE !! name_or_path self = Some lm.

Let popped : gmap string loc :=
  delete "last_trigger_mask" (delete "predict_mask" (delete "trigger_mask" entries)).

Lemma popped_lookup k :
  popped !! k
  = if decide (k ∈ ["last_trigger_mask"; "predict_mask"; "trigger_mask"])
    then None else entries !! k.
Proof.
  unfold popped. case_decide as Hk.
  - apply elem_of_cons in Hk as [->|Hk]; [apply lookup_delete_eq|].
    apply elem_of_cons in Hk as [->|Hk].
    { rewrite lookup_delete_ne by discriminate. apply lookup_delete_eq. }
    apply elem_of_cons in Hk as [->|Hk]; [|by apply elem_of_nil in Hk].
    rewrite !lookup_delete_ne by discriminate. apply lookup_delete_eq.
  - apply not_elem_of_cons in Hk as [? Hk].
    apply not_elem_of_cons in Hk as [? Hk].
    apply not_elem_of_cons in Hk as [? _].
    by rewrite !lookup_delete_ne by done.
Qed.

Lemma kwargs_view (tensors' : gmap loc tensor) lf filled :
  tensors h ⊆ tensors' →
  tensors' !! lf = Some (TInt filled) →
  (∀ l, is_Some (tensors h !! l) → tensors' !! l = tensors h !! l) →
  omap (λ l, tensors' !! l) (<["input_ids" := lf]> popped)
  = <["input_ids" := TInt filled]>
      (delete "last_trigger_mask"
         (delete "predict_mask"
            (delete "trigger_mask" (omap (λ l, tensors h !! l) entries)))).
Proof.
  intros Hsub Hlf Hsame. apply map_eq. intros k.
  rewrite lookup_omap.
  destruct (decide (k = "input_ids")) as [->|Hk].
  { by rewrite !lookup_insert_eq. }
  rewrite !lookup_insert_ne by done. rewrite popped_lookup.
  case_decide as Hin.
  - apply elem_of_cons in Hin as [->|Hin]; [symmetry; apply lookup_delete_eq|].
    apply elem_of_cons in Hin as [->|Hin].
    { rewrite lookup_delete_ne by discriminate. symmetry. apply lookup_delete_eq. }
    apply elem_of_cons in Hin as [->|Hin]; [|by apply elem_of_nil in Hin].
    rewrite !lookup_delete_ne by discriminate. symmetry. apply lookup_delete_eq.
  - apply not_elem_of_cons in Hin as [? Hin].
    apply not_elem_of_cons in Hin as [? Hin].
    apply not_elem_of_cons in Hin as [? _].
    rewrite !lookup_delete_ne by done.
    rewrite lookup_omap. destruct (entries !! k) as [l|] eqn:Hl; [|done].
    cbn. apply Hsame. by eapply Hclosed.
Qed.

Lemma PredictWrapper_call_eval :
  (PredictWrapper_call self d trigger_ids h).1
  = (logits ←
       forward self
         (model_kwargs (name_or_path self)
            (omap (λ l, tensors h !! l) entries)
            (filled_ids ids tmask trigger_ids));
     mask ← tensors h !! (if decide (lm = causal) then llm else lpm) ≫= as_bool;
     flat ← Torch.masked_select_unsqueeze logits mask;
     Torch.view_rows (length logits) flat).
Proof.
  unfold PredictWrapper_call.
  set (c := fresh (dom (dicts h))).
  assert (Hc : dicts h !! c = None) by apply fresh_dict.
  erewrite bind_Some by by apply dict_copy_eval. fold c.
  erewrite bind_Some; cycle 1.
  { eapply dict_pop_eval; [apply lookup_insert_eq|done]. }
  cbn [dicts tensors]. rewrite insert_insert_eq.
  erewrite bind_Some; cycle 1.
  { eapply dict_pop_eval; [apply lookup_insert_eq|].
    rewrite lookup_delete_ne by discriminate. exact Hlpm. }
  cbn [dicts tensors]. rewrite insert_insert_eq.
  erewrite bind_Some; cycle 1.
  { eapply dict_pop_eval; [apply lookup_insert_eq|].
    rewrite !lookup_delete_ne by discriminate. exact Hllm. }
  cbn [dicts tensors]. rewrite insert_insert_eq. fold popped.
  erewrite bind_Some by (unfold lift; by rewrite Hlm).
  set (h3 := mkHeap (<[c := popped]> (dicts h)) (tensors h)).
  unfold mbind at 1, M_bind at 1.
  rewrite (replace_trigger_tokens_eval h3 c popped li ltm ids tmask);
    [|apply lookup_insert_eq| |done..]; cycle 1.
  { rewrite popped_lookup, decide_False; [done|]. intros Hin.
    repeat (apply elem_of_cons in Hin as [Heq|Hin]; [discriminate Heq|]).
    by apply elem_of_nil in Hin. }
  cbv zeta. unfold filled_ids.
  set (out := fresh (dom (dicts h3))).
  set (pm := if decide (lm = causal) then llm else lpm).
  assert (Hpm : is_Some (tensors h !! pm)).
  { subst pm. case_decide; by eapply Hclosed. }
  set (lf := fresh (dom (tensors h3))).
  assert (Hlf : tensors h !! lf = None) by apply (fresh_tensor h3).
  assert (Hsame : ∀ t l, is_Some (tensors h !! l) →
                         <[lf := t]> (tensors h) !! l = tensors h !! l).
  { intros t l [t' Hl]. rewrite lookup_insert_ne; [done|].
    intros <-. by rewrite Hlf in Hl. }
  assert (Hfinish : ∀ (tensors' : gmap loc tensor) dicts' kwargs,
    tensors' !! pm = tensors h !! pm →
    ((logits ← lift (forward self kwargs);
      mask ← tensor_read pm;
      match mask with
      | TBool mask =>
          lift (flat ← Torch.masked_select_unsqueeze logits mask;
                Torch.view_rows (length logits) flat)
      | TInt _ => lift None
      end) (mkHeap dicts' tensors')).1
    = (logits ← forward self kwargs;
       mask ← tensors h !! pm ≫= as_bool;
       flat ← Torch.masked_select_unsqueeze logits mask;
       Torch.view_rows (length logits) flat)).
  { intros tensors' dicts' kwargs Hsame'.
    unfold mbind at 1, M_bind at 1, lift at 1.
    destruct (forward self kwargs) as [logits|]; [|done].
    cbn [mbind option_bind].
    unfold mbind at 1, M_bind at 1, tensor_read at 1. cbn [tensors].
    rewrite Hsame'. by destruct (tensors h !! pm) as [[?|mask]|]. }
  destruct (Torch.masked_scatter ids tmask _) as [filled|];
    cbn [default from_option id dicts tensors h3]; unfold id; unfold model_kwargs;
    destruct (Py.contains "t5" (name_or_path self)).
  - erewrite bind_Some; cycle 1.
    { erewrite bind_Some; cycle 1.
      { eapply dict_getitem_eval; [apply lookup_insert_eq|apply lookup_insert_eq]. }
      apply dict_setitem_eval. apply lookup_insert_eq. }
    cbn [dicts tensors]. rewrite insert_insert_eq.
    erewrite bind_Some; cycle 1.
    { unfold dict_view. cbn [dicts tensors]. by rewrite lookup_insert_eq. }
    cbn [fmap option_fmap option_map].
    rewrite omap_insert_Some with (y := TInt filled) by apply lookup_insert_eq.
    rewrite (kwargs_view _ lf filled);
      [|by apply insert_subseteq|apply lookup_insert_eq|by apply Hsame].
    apply Hfinish. by apply Hsame.
  - erewrite bind_Some by reflexivity.
    erewrite bind_Some; cycle 1.
    { unfold dict_view. cbn [dicts tensors]. by rewrite lookup_insert_eq. }
    cbn [fmap option_fmap option_map].
    rewrite (kwargs_view _ lf filled);
      [|by apply insert_subseteq|apply lookup_insert_eq|by apply Hsame].
    apply Hfinish. by apply Hsame.
  - erewrite bind_Some; cycle 1.
    { erewrite bind_Some; cycle 1.
      { eapply dict_getitem_eval; [apply lookup_insert_eq|apply lookup_insert_eq]. }
      apply dict_setitem_eval. apply lookup_insert_eq. }
    cbn [dicts tensors]. rewrite insert_insert_eq.
    erewrite bind_Some; cycle 1.
    { unfold dict_view. cbn [dicts tensors]. by rewrite lookup_insert_eq. }
    cbn [fmap option_fmap option_map].
    rewrite omap_insert_Some with (y := TInt ids) by done.
    rewrite (kwargs_view _ li ids); [|done..].
    by apply Hfinish.
  - erewrite bind_Some by reflexivity.
    erewrite bind_Some; cycle 1.
    { unfold dict_view. cbn [dicts tensors]. by rewrite lookup_insert_eq. }
    cbn [fmap option_fmap option_map].
    rewrite (kwargs_view _ li ids); [|done..].
    by apply Hfinish.
Qed.

End PredictWrapperEval.

Lemma select_row_cons {A} (x : list A) row (b : bool) m :
  Torch.select_row (x :: row) (b :: m)
  = (if b then x else []) ++ Torch.select_row row m.
Proof.
  unfold Torch.select_row. cbn [zip zip_with]. rewrite filter_cons.
  by destruct b.
Qed.

Lemma select_row_length {A} V (row : list (list A)) (m : list bool) :
  length row = length m → Forall (λ x, length x = V) row →
  length (Torch.select_row row m) = Torch.count_true m * V.
Proof.
  revert m. induction row as [|x row IH]; intros [|b m] Hlen Hrow; try done.
  apply Forall_cons in Hrow as [Hx Hrow].
  rewrite select_row_cons, count_true_cons, length_app, IH;
    [|by injection Hlen|done].
  destruct b; cbn [length]; lia.
Qed.

Lemma selected_logits_uniform c V (logits : list (list (list Q))) mask :
  Torch.shape_eqb logits mask = true →
  Forall (Forall (λ x, length x = V)) logits →
  Forall (λ m, Torch.count_true m = c) mask →
  length (selected_logits logits mask) = length logits
  ∧ Forall (λ r, length r = c * V) (selected_logits logits mask).
Proof.
  unfold selected_logits. revert mask.
  induction logits as [|row logits IH]; intros [|m mask] Hshape Hl Hm;
    try done.
  apply shape_eqb_cons in Hshape as [Hlen Hshape].
  apply Forall_cons in Hl as [Hrow Hl]. apply Forall_cons in Hm as [Hc Hm].
  destruct (IH mask) as [IH1 IH2]; [done..|]. cbn. split; [by rewrite IH1|].
  constructor; [|done]. rewrite (select_row_length V) by done. by rewrite Hc.
Qed.

(** C4, as the code has it.  For a model name registered in [LM_TYPE] and
    a batch in which every example has the same number of set positions
    in the mask that is read (the [last_trigger_mask] for a causal model,
    the [predict_mask] otherwise), [PredictWrapper.__call__] returns, for
    each example, the logits at exactly those positions.  The model is
    called on the dictionary without the three masks, in which
    [input_ids] is what [replace_trigger_tokens] produces: the trigger ids
    at the set positions of [trigger_mask] when they fit. *)
Theorem PredictWrapper_call_selects (self : language_model) (h : heap) (d : loc)
    (entries : gmap string loc) (li ltm lpm llm : loc)
    (ids : list (list Z)) (tmask pmask : list (list bool)) (lm : lm_type)
    (trigger_ids : list Z) (logits : list (list (list Q))) (c V : nat) :
  dicts h !! d = Some entries →
  entries !! "input_ids" = Some li →
  entries !! "trigger_mask" = Some ltm →
  entries !! "predict_mask" = Some lpm →
  entries !! "last_trigger_mask" = Some llm →
  (∀ k l, entries !! k = Some l → is_Some (tensors h !! l)) →
  tensors h !! li = Some (TInt ids) →
  tensors h !! ltm = Some (TBool tmask) →
  LM_TYPE !! name_or_path self = Some lm →
  tensors h !! (if decide (lm = causal) then llm else lpm) = Some (TBool pmask) →
  forward self
    (model_kwargs (name_or_path self) (omap (λ l, tensors h !! l) entries)
       (filled_ids ids tmask trigger_ids)) = Some logits →
  Torch.shape_eqb logits pmask = true →
  Forall (Forall (λ x, length x = V)) logits →
  Forall (λ m, Torch.count_true m = c) pmask →
  0 < length logits →
  (PredictWrapper_call self d trigger_ids h).1 = Some (selected_logits logits pmask)
  ∧ (Torch.shape_eqb ids tmask = true →
     total_true tmask ≤ length tmask * length trigger_ids →
     holds_trigger_ids ids (filled_ids ids tmask trigger_ids) tmask trigger_ids).
Proof.
  intros Hd Hli Hltm Hlpm Hllm Hclosed Hids Htmask Hlm Hpm Hfwd Hshape HV Hc Hpos.
  split.
  - rewrite (PredictWrapper_call_eval self h d entries li ltm lpm llm ids tmask lm)
      by done.
    rewrite Hfwd, Hpm. cbn [mbind option_bind as_bool].
    unfold Torch.masked_select_unsqueeze. rewrite Hshape. cbn [mbind option_bind].
    destruct (selected_logits_uniform c V logits pmask) as [Hlen Hrows]; [done..|].
    fold (selected_logits logits pmask). rewrite <- Hlen.
    apply (view_rows_concat (c * V)); [lia|done].
  - intros Hsh Hfit. unfold filled_ids.
    by destruct (masked_scatter_trigger ids tmask trigger_ids) as (f & -> & Hf).
Qed.

Lemma PredictWrapper_call_selects_witness :
  (PredictWrapper_call (sample_model "bert-base-cased") 0 [42]%Z sample_heap).1
  = Some [[6]]%Q.
Proof.
  apply (PredictWrapper_call_selects (sample_model "bert-base-cased") sample_heap 0
           {[ "input_ids" := 1; "trigger_mask" := 2;
              "predict_mask" := 3; "last_trigger_mask" := 4 ]}
           1 2 3 4 [[5; 6; 7]]%Z [[true; false; false]] [[false; true; false]]
           masked [42]%Z [[[42]; [6]; [7]]]%Q 1 1).
  - reflexivity.
  - reflexivity.
  - reflexivity.
  - reflexivity.
  - reflexivity.
  - intros k l Hk.
    destruct (decide (k = "input_ids")) as [->|]; [by simplify_map_eq|].
    destruct (decide (k = "trigger_mask")) as [->|]; [by simplify_map_eq|].
    destruct (decide (k = "predict_mask")) as [->|]; [by simplify_map_eq|].
    destruct (decide (k = "last_trigger_mask")) as [->|]; [by simplify_map_eq|].
    by simplify_map_eq.
  - reflexivity.
  - reflexivity.
  - reflexivity.
  - reflexivity.
  - by vm_compute.
  - reflexivity.
  - repeat constructor.
  - repeat constructor.
  - simpl. lia.
Defined.

(** C4, as stated, fails on a batch whose examples differ in the number of
    predict positions: [view(bsz, -1)] cuts the selected logits into rows
    of equal length, so the second row holds logits of the first example. *)
Lemma PredictWrapper_call_uneven_mask :
  let logits := [[[5]; [6]]; [[7]; [8]]]%Q in
  let predict_mask := [[true; true]; [false; false]] in
  (PredictWrapper_call (sample_model "bert-base-cased") 0 [9]%Z uneven_heap).1
  = Some [[5]; [6]]%Q
  ∧ selected_logits logits predict_mask = [[5; 6]; []]%Q
  ∧ (PredictWrapper_call (sample_model "bert-base-cased") 0 [9]%Z uneven_heap).1
    ≠ Some (selected_logits logits predict_mask).
Proof. by vm_compute. Qed.

(** ** [get_loss] and [AccuracyFn.__call__] *)

Lemma get_loss_lookup F logits labels losses b lg lb :
  get_loss F logits labels = Some losses →
  logits !! b = Some lg → labels !! b = Some lb →
  ∃ x, losses !! b = Some x ∧ get_loss_row F lg lb = Some x.
Proof.
  unfold get_loss. case_decide; [|done]. intros Hm%mapM_Some_1 Hlg Hlb.
  eapply Forall2_lookup_l in Hm as (x & Hx & Hrow);
    [|by apply lookup_zip_Some]. by exists x.
Qed.

Lemma get_loss_length F logits labels losses :
  get_loss F logits labels = Some losses → length losses = length labels.
Proof.
  unfold get_loss. case_decide; [|done]. intros Hm%mapM_Some_1.
  apply Forall2_length in Hm. rewrite length_zip in Hm. lia.
Qed.

Lemma le_count_zero row g :
  le_count row g = 0 ↔ ∀ l, l ∈ row → (g < l)%Q.
Proof.
  unfold le_count. induction row as [|x row IH].
  { split; [by intros _ l ?%elem_of_nil|done]. }
  rewrite filter_cons. destruct (decide (Qleb x g = true)) as [Hx|Hx].
  - split; [done|]. intros H. apply Qleb_le in Hx.
    specialize (H x (list_elem_of_here _ _)). by apply Qlt_not_le in H.
  - rewrite IH. split.
    + intros H l [->|Hl]%elem_of_cons; [|by apply H].
      apply Qnot_le_lt. by rewrite <- Qleb_le.
    + intros H l Hl. apply H. by right.
Qed.

Lemma le_count_app r1 r2 g : le_count (r1 ++ r2) g = le_count r1 g + le_count r2 g.
Proof. unfold le_count. by rewrite filter_app, length_app. Qed.

(** With the gold loss among the label losses, at most one label loss is
    at most the gold loss exactly when every other one is strictly
    larger. *)
Lemma le_count_gold row g j lj :
  row !! j = Some lj → (lj <= g)%Q →
  le_count row g ≤ 1 ↔ ∀ i l, i ≠ j → row !! i = Some l → (g < l)%Q.
Proof.
  intros Hj Hle.
  rewrite <- (take_drop_middle row j lj Hj) at 1.
  rewrite le_count_app.
  change (lj :: drop (S j) row) with ([lj] ++ drop (S j) row).
  rewrite le_count_app.
  assert (le_count [lj] g = 1) as ->.
  { unfold le_count. rewrite filter_cons, decide_True; [done|by apply Qleb_le]. }
  split.
  - intros Hcount i l Hne Hi.
    assert (H1 : le_count (take j row) g = 0) by lia.
    assert (H2 : le_count (drop (S j) row) g = 0) by lia.
    destruct (decide (i < j)) as [Hlt|Hge].
    + eapply le_count_zero; [exact H1|].
      apply list_elem_of_lookup. exists i. by rewrite lookup_take_lt.
    + eapply le_count_zero; [exact H2|].
      apply list_elem_of_lookup. exists (i - S j).
      rewrite lookup_drop. by replace (S j + (i - S j)) with i by lia.
  - intros H.
    assert (H1 : le_count (take j row) g = 0).
    { apply le_count_zero. intros l (i & Hi)%list_elem_of_lookup.
      apply lookup_take_Some in Hi as [Hi Hlt]. apply (H i); [lia|done]. }
    assert (H2 : le_count (drop (S j) row) g = 0).
    { apply le_count_zero. intros l (i & Hi)%list_elem_of_lookup.
      rewrite lookup_drop in Hi. apply (H (S j + i)); [lia|done]. }
    lia.
Qed.

Lemma AccuracyFn_call_rows F self predict_logits gold_label_ids correct :
  AccuracyFn_call F self predict_logits gold_label_ids = Some correct →
  length gold_label_ids = length predict_logits →
  length correct = length predict_logits
  ∧ ∀ b logits gold r,
      predict_logits !! b = Some logits → gold_label_ids !! b = Some gold →
      correct !! b = Some r →
      ∃ gold_loss label_losses,
        get_loss_row F logits gold = Some gold_loss
        ∧ mapM (get_loss_row F logits) (_all_label_ids self) = Some label_losses
        ∧ r = (if bool_decide (le_count label_losses gold_loss ≤ 1)
               then 1%Q else 0%Q).
Proof.
  unfold AccuracyFn_call. intros Hcall Hlen.
  destruct (get_loss F predict_logits gold_label_ids) as [gold_logp|] eqn:Hgold;
    [|done].
  cbn [mbind option_bind] in Hcall.
  destruct (mapM _ (_all_label_ids self)) as [cols|] eqn:Hcols; [|done].
  cbn [mbind option_bind] in Hcall.
  destruct (stack_last _ cols) as [rows|] eqn:Hrows; [|done].
  cbn [mbind option_bind] in Hcall.
  destruct (mapM _ rows) as [predictions|]; [|done].
  cbn [mbind option_bind] in Hcall.
  pose proof (get_loss_length _ _ _ _ Hgold) as Hgl.
  assert (Hrl : length rows = length predict_logits).
  { unfold stack_last in Hrows. destruct cols; [done|].
    destruct (forallb _ _); [|done].
    apply mapM_Some_1, Forall2_length in Hrows. by rewrite length_seq in Hrows. }
  unfold broadcast2 in Hcall. rewrite decide_True in Hcall by lia.
  cbn [mbind option_bind] in Hcall. injection Hcall as <-.
  split; [rewrite !length_map, length_zip; lia|].
  intros b logits gold r Hlogits Hg Hr.
  destruct (get_loss_lookup _ _ _ _ _ _ _ Hgold Hlogits Hg) as (gl & Hgl' & Hgrow).
  assert (Hb : b < length predict_logits) by by eapply lookup_lt_Some.
  destruct (rows !! b) as [row|] eqn:Hrow; cycle 1.
  { apply lookup_ge_None in Hrow. lia. }
  exists gl, row. split; [done|]. split.
  - apply mapM_Some_2.
    unfold stack_last in Hrows. destruct cols as [|col0 cols']; [done|].
    set (cols := col0 :: cols') in *.
    destruct (forallb _ cols); [|done].
    apply mapM_Some_1 in Hrows.
    apply (Forall2_lookup_l _ _ _ b b) in Hrows as (row' & Hrow' & Hcolsb);
      [|by apply lookup_seq].
    simplify_eq. apply mapM_Some_1 in Hcolsb. apply mapM_Some_1 in Hcols.
    eapply Forall2_trans; [|exact Hcols|exact Hcolsb].
    intros lab col x Hcol Hx. cbn in Hx.
    destruct (get_loss_lookup _ _ (replicate (length predict_logits) lab) _ b
                logits lab Hcol Hlogits) as (y & Hy & Hyrow);
      [by apply lookup_replicate_2|].
    congruence.
  - rewrite !list_lookup_fmap in Hr.
    destruct (zip rows gold_logp !! b) as [[row' g']|] eqn:Hz; [|done].
    apply lookup_zip_Some in Hz as [? ?]. simplify_eq/=. done.
Qed.

(** The loss [get_loss] computes for one example is the total loss as
    the specification words it. *)
Lemma get_loss_row_total F logits label_ids loss :
  get_loss_row F logits label_ids = Some loss →
  loss = total_loss F logits label_ids.
Proof.
  unfold get_loss_row, total_loss.
  destruct (mapM _ label_ids) as [target_logp|] eqn:Hgather; [|done].
  cbn [mbind option_bind]. intros [= <-]. do 2 f_equal.
  apply mapM_Some_1 in Hgather.
  induction Hgather as [|id lp ids lps Hid _ IH]; [done|].
  cbn [zip_with map]. rewrite IH. f_equal.
  unfold gather in Hid. destruct (decide (0 ≤ id)%Z); [|done].
  by rewrite Hid.
Qed.

Lemma mapM_get_loss_row_total F logits all_label_ids losses :
  mapM (get_loss_row F logits) all_label_ids = Some losses →
  losses = map (total_loss F logits) all_label_ids.
Proof.
  intros H%mapM_Some_1.
  induction H as [|ids loss all_ids losses Hloss _ IH]; [done|].
  cbn [map]. by rewrite (get_loss_row_total _ _ _ _ Hloss), IH.
Qed.

(** C8.  When [AccuracyFn.__call__] returns, on a batch with one gold
    label row per example, the loss the code computes for a row of label
    ids is its total loss: the negative log-sum-exp of the log-softmax of
    the logits at its tokens, a token of id 0 being pushed down by
    [1e32].  The entry of an example is [1.0] or [0.0], and it is [1.0]
    exactly when at most one label of the label map has a total loss that
    is at most the gold loss.  When the gold loss is the loss of a label
    of the map, in particular when the gold label ids are a row of the
    map, this is the case exactly when the gold loss is strictly smaller
    than the loss of every other label. *)
Theorem AccuracyFn_call_correct (F : float_fns) (self : AccuracyFn)
    (predict_logits : list (list Q)) (gold_label_ids : list (list Z))
    (correct : list Q) :
  AccuracyFn_call F self predict_logits gold_label_ids = Some correct →
  length gold_label_ids = length predict_logits →
  length correct = length predict_logits
  ∧ ∀ b logits gold r,
      predict_logits !! b = Some logits → gold_label_ids !! b = Some gold →
      correct !! b = Some r →
      let gold_loss := total_loss F logits gold in
      let label_losses := map (total_loss F logits) (_all_label_ids self) in
      get_loss_row F logits gold = Some gold_loss
      ∧ mapM (get_loss_row F logits) (_all_label_ids self) = Some label_losses
      ∧ (r = 1%Q ∨ r = 0%Q)
      ∧ (r = 1%Q ↔ le_count label_losses gold_loss ≤ 1)
      ∧ (∀ j lj, label_losses !! j = Some lj → (lj == gold_loss)%Q →
           (r = 1%Q ↔ ∀ i l, i ≠ j → label_losses !! i = Some l →
                             (gold_loss < l)%Q))
      ∧ (∀ j, _all_label_ids self !! j = Some gold →
           (r = 1%Q ↔ ∀ i ids, i ≠ j → _all_label_ids self !! i = Some ids →
                               (gold_loss < total_loss F logits ids)%Q)).
Proof.
  intros Hcall Hlen.
  destruct (AccuracyFn_call_rows _ _ _ _ _ Hcall Hlen) as [Hcl Hrows].
  split; [done|]. intros b logits gold r Hlogits Hgold Hr gold_loss label_losses.
  destruct (Hrows b logits gold r Hlogits Hgold Hr) as (gl & row & Hg & Hrow & ->).
  pose proof (get_loss_row_total _ _ _ _ Hg) as ->.
  pose proof (mapM_get_loss_row_total _ _ _ _ Hrow) as ->.
  subst gold_loss label_losses.
  set (gold_loss := total_loss F logits gold) in *.
  set (label_losses := map (total_loss F logits) (_all_label_ids self)) in *.
  split; [done|]. split; [done|].
  assert (Hiff : (if bool_decide (le_count label_losses gold_loss ≤ 1)
                  then 1%Q else 0%Q) = 1%Q
                 ↔ le_count label_losses gold_loss ≤ 1).
  { case_bool_decide; split; done. }
  split; [case_bool_decide; auto|]. split; [done|].
  assert (Hone : ∀ j lj, label_losses !! j = Some lj → (lj == gold_loss)%Q →
    ((if bool_decide (le_count label_losses gold_loss ≤ 1) then 1%Q else 0%Q)
     = 1%Q
     ↔ ∀ i l, i ≠ j → label_losses !! i = Some l → (gold_loss < l)%Q)).
  { intros j lj Hj Heq. rewrite Hiff.
    apply (le_count_gold label_losses gold_loss j lj Hj).
    rewrite Heq. apply Qle_refl. }
  split; [done|].
  intros j Hj.
  rewrite (Hone j gold_loss); [|by subst label_losses; rewrite list_lookup_fmap, Hj
                               |reflexivity].
  subst label_losses. split.
  - intros H i ids Hne Hi. apply (H i); [done|].
    by rewrite list_lookup_fmap, Hi.
  - intros H i l Hne Hi. rewrite list_lookup_fmap in Hi.
    destruct (_all_label_ids self !! i) as [ids|] eqn:Hids; [|done].
    injection Hi as <-. by apply (H i).
Qed.

Lemma AccuracyFn_call_correct_witness :
  AccuracyFn_call sample_float sample_accuracy [[0; -1; -3]]%Q [[1]]%Z
  = Some [1%Q]
  ∧ (1%Q = 1%Q
     ↔ le_count (map (total_loss sample_float [0; -1; -3]%Q) [[1]; [2]]%Z)
                (total_loss sample_float [0; -1; -3]%Q [1]%Z) ≤ 1).
Proof.
  split; [by vm_compute|].
  destruct (AccuracyFn_call_correct sample_float sample_accuracy
              [[0; -1; -3]]%Q [[1]]%Z [1%Q]) as [_ H];
    [by vm_compute|reflexivity|].
  destruct (H 0 [0; -1; -3]%Q [1]%Z 1%Q) as (_ & _ & _ & Hiff & _);
    [reflexivity..|].
  exact Hiff.
Defined.

(** C8, counterexample.  With the labels [a -> [1]] and [b -> [2]], the
    logits [[0, 5, -3, 1]] and the gold label ids [[3]], which are not a
    row of the label map, only the label [a] has a loss at most the gold
    loss: the example is marked correct although the loss of [a] is
    strictly below the gold loss.  (The stand-in for the log-softmax keeps
    the order of the logits, as the log-softmax does, and the log-sum-exp
    of a single entry is that entry.) *)
Lemma AccuracyFn_call_gold_outside_map :
  let logits := [0; 5; -3; 1]%Q in
  AccuracyFn_call sample_float sample_accuracy [logits] [[3]]%Z = Some [1%Q]
  ∧ (total_loss sample_float logits [1]%Z
     < total_loss sample_float logits [3]%Z)%Q.
Proof. split; by vm_compute. Qed.

(** ** Algebra of tensors up to [Qeq] *)

Section ZipWith.
Context {A : Type} (R : relation A) (f : A → A → A).

Lemma zip_with_assoc_R :
  (∀ a b c, R (f (f a b) c) (f a (f b c))) →
  ∀ x y z, Forall2 R (zip_with f (zip_with f x y) z) (zip_with f x (zip_with f y z)).
Proof.
  intros Hf x. induction x as [|a x IH]; intros [|b y] [|c z]; cbn;
    constructor; auto.
Qed.

Lemma zip_with_map_R (g : A → A) :
  (∀ a b, R (g (f a b)) (f (g a) (g b))) →
  ∀ x y, Forall2 R (map g (zip_with f x y)) (zip_with f (map g x) (map g y)).
Proof.
  intros Hg x. induction x as [|a x IH]; intros [|b y]; cbn; constructor; auto.
Qed.

Lemma zip_with_proper_R :
  (∀ a a' b b', R a a' → R b b' → R (f a b) (f a' b')) →
  ∀ x x' y y', Forall2 R x x' → Forall2 R y y' →
               Forall2 R (zip_with f x y) (zip_with f x' y').
Proof.
  intros Hf x x' y y' Hx. revert y y'.
  induction Hx as [|a a' x x' Ha Hx IH]; intros y y' Hy; [constructor|].
  destruct Hy as [|b b' y y' Hb Hy]; cbn; constructor; auto.
Qed.

Lemma zip_with_unit_R (P : A → Prop) (u : A) :
  (∀ a, P a → R (f a u) a) →
  ∀ x, Forall P x → Forall2 R (zip_with f x (replicate (length x) u)) x.
Proof. intros Hu x Hx. induction Hx; cbn; constructor; auto. Qed.

End ZipWith.

#[local] Instance vec_eq_equiv : Equivalence vec_eq.
Proof. unfold vec_eq. apply _. Qed.

#[local] Instance tensor_eq_equiv : Equivalence tensor_eq.
Proof. unfold tensor_eq. apply _. Qed.

Lemma add1_assoc x y z :
  vec_eq (zip_with Qplus (zip_with Qplus x y) z) (zip_with Qplus x (zip_with Qplus y z)).
Proof. apply zip_with_assoc_R. intros. symmetry. apply Qplus_assoc. Qed.

Lemma add2_assoc x y z :
  tensor_eq (Torch.add2 (Torch.add2 x y) z) (Torch.add2 x (Torch.add2 y z)).
Proof. apply zip_with_assoc_R. apply add1_assoc. Qed.

Lemma add2_proper x x' y y' :
  tensor_eq x x' → tensor_eq y y' → tensor_eq (Torch.add2 x y) (Torch.add2 x' y').
Proof.
  apply zip_with_proper_R. apply zip_with_proper_R.
  intros a a' b b' Ha Hb. by rewrite Ha, Hb.
Qed.

Lemma div2_add2 x y n :
  tensor_eq (Torch.div2 (Torch.add2 x y) n)
            (Torch.add2 (Torch.div2 x n) (Torch.div2 y n)).
Proof.
  apply zip_with_map_R. apply zip_with_map_R.
  intros a b. unfold Qdiv. ring.
Qed.

Lemma div2_proper x x' n :
  tensor_eq x x' → tensor_eq (Torch.div2 x n) (Torch.div2 x' n).
Proof.
  intros H. unfold Torch.div2. apply Forall2_fmap.
  eapply Forall2_impl; [exact H|]. intros r r' Hr. apply Forall2_fmap.
  eapply Forall2_impl; [exact Hr|]. intros a a' Ha. cbn. by rewrite Ha.
Qed.

Lemma add2_zeros_r t e x :
  has_shape t e x → tensor_eq (Torch.add2 x (Torch.zeros t e)) x.
Proof.
  intros [<- He]. unfold Torch.add2, Torch.zeros.
  apply (zip_with_unit_R _ _ (λ r, length r = e)); [|done].
  intros r <-. apply (zip_with_unit_R _ _ (λ _, True)); [|by apply Forall_true].
  intros a _. apply Qplus_0_r.
Qed.

Lemma Forall2_replicate_R {A} (R : relation A) n x y :
  R x y → Forall2 R (replicate n x) (replicate n y).
Proof. intros H. induction n; cbn; by constructor. Qed.

Lemma map_replicate {A B} (g : A → B) n x :
  map g (replicate n x) = replicate n (g x).
Proof. induction n; cbn; congruence. Qed.

Lemma div2_zeros t e n : tensor_eq (Torch.div2 (Torch.zeros t e) n) (Torch.zeros t e).
Proof.
  unfold Torch.div2, Torch.zeros. rewrite !map_replicate.
  apply Forall2_replicate_R, Forall2_replicate_R. unfold Qdiv. ring.
Qed.

Lemma has_shape_zeros t e : has_shape t e (Torch.zeros t e).
Proof.
  unfold Torch.zeros. split; [by rewrite length_replicate|].
  apply Forall_replicate. by rewrite length_replicate.
Qed.

Lemma has_shape_add2 t e x y :
  has_shape t e x → has_shape t e y → has_shape t e (Torch.add2 x y).
Proof.
  intros [Hx1 Hx2] [Hy1 Hy2]. unfold Torch.add2. split.
  { rewrite length_zip_with. lia. }
  subst t. revert y Hy1 Hy2.
  induction Hx2 as [|r x Hr Hx IH]; intros [|s y] Hy1 Hy2; cbn; [done..|].
  apply Forall_cons in Hy2 as [Hs Hy2]. constructor.
  - rewrite length_zip_with. lia.
  - apply IH; [by injection Hy1|done].
Qed.

Lemma has_shape_div2 t e x n : has_shape t e x → has_shape t e (Torch.div2 x n).
Proof.
  intros [H1 H2]. unfold Torch.div2. split; [by rewrite length_map|].
  apply Forall_forall. intros r (r' & <- & Hr')%list_elem_of_In%in_map_iff.
  rewrite length_map. eapply Forall_forall in H2; [done|].
  by apply list_elem_of_In.
Qed.

Lemma has_shape_sum_dim0 t e g :
  Forall (has_shape t e) g → has_shape t e (Torch.sum_dim0 t e g).
Proof.
  unfold Torch.sum_dim0. induction 1 as [|x g Hx Hg IH]; cbn.
  - apply has_shape_zeros.
  - by apply has_shape_add2.
Qed.

(** ** The gradient at the trigger positions *)

Lemma concat_map_concat {A} (exs : list (list (list A))) :
  concat (map (@concat A) exs) = concat (concat exs).
Proof.
  induction exs as [|ex exs IH]; [done|]. cbn. by rewrite concat_app, IH.
Qed.

Lemma select_rows_positions {A} (grad : list (list (list A))) mask :
  zip_with Torch.select_row grad mask
  = map (@concat A) (zip_with positions_at grad mask).
Proof.
  revert mask. induction grad as [|row grad IH]; intros [|m mask]; [done..|].
  cbn. by rewrite IH.
Qed.

Lemma positions_at_cons {A} (x : A) row (b : bool) m :
  positions_at (x :: row) (b :: m)
  = (if b then [x] else []) ++ positions_at row m.
Proof.
  unfold positions_at. cbn [zip zip_with]. rewrite filter_cons.
  by destruct b.
Qed.

Lemma positions_at_length {A} (row : list A) m :
  length row = length m → length (positions_at row m) = Torch.count_true m.
Proof.
  revert m. induction row as [|x row IH]; intros [|b m] Hlen; try done.
  rewrite positions_at_cons, count_true_cons, length_app, IH by by injection Hlen.
  by destruct b.
Qed.

Lemma positions_at_Forall {A} (P : A → Prop) (row : list A) m :
  Forall P row → Forall P (positions_at row m).
Proof.
  revert m. induction row as [|x row IH]; intros [|b m] Hrow; try done.
  apply Forall_cons in Hrow as [Hx Hrow]. rewrite positions_at_cons.
  apply Forall_app. split; [destruct b; by repeat constructor|by apply IH].
Qed.

Lemma map_seq_shift_from {B} (F : nat → B) k s t :
  map (λ j, F (k + j)) (seq s t) = map F (seq (k + s) t).
Proof.
  revert s. induction t as [|t IH]; intros s; [done|].
  cbn. f_equal. rewrite IH. by replace (k + S s) with (S (k + s)) by lia.
Qed.

Lemma map_seq_shift {B} (F : nat → B) k t :
  map (λ j, F (k + j)) (seq 0 t) = map F (seq k t).
Proof. by rewrite map_seq_shift_from, Nat.add_0_r. Qed.

Lemma view3_examples {A} t e (exs : list (list (list A))) :
  Forall (λ ex, length ex = t ∧ Forall (λ v, length v = e) ex) exs →
  Torch.view3 (length exs) t e (concat (concat exs)) = Some exs.
Proof.
  intros Hexs. set (vs := concat exs). set (flat := concat vs).
  assert (Hvs_e : Forall (λ v, length v = e) vs).
  { subst vs. clear flat. induction Hexs as [|ex exs [_ Hex] _ IH]; [done|].
    cbn. by apply Forall_app. }
  assert (Hvs_len : length vs = length exs * t).
  { apply length_concat_uniform. eapply Forall_impl; [done|]. by intros ex [? _]. }
  assert (Hvs : map (Torch.window e flat) (seq 0 (length vs)) = vs)
    by by apply windows_concat.
  unfold Torch.view3.
  rewrite decide_True; cycle 1.
  { unfold flat. rewrite (length_concat_uniform e) by done. by rewrite Hvs_len. }
  f_equal.
  rewrite <- (windows_concat t exs) at 2;
    [|eapply Forall_impl; [done|]; by intros ex [? _]].
  fold vs. apply map_ext_in. intros i Hi%in_seq.
  rewrite (map_seq_shift (Torch.window e flat) (i * t) t).
  set (N := length vs) in *.
  unfold Torch.window at 2. rewrite <- Hvs.
  rewrite skipn_map, firstn_map, skipn_seq. f_equal.
  change (firstn t (seq (0 + i * t) (N - i * t)))
    with (take t (seq (0 + i * t) (N - i * t))).
  rewrite take_seq. f_equal; nia.
Qed.

Lemma trigger_positions_grad_shape t e (grad : list (list (list Q))) mask :
  Torch.shape_eqb grad mask = true →
  Forall (λ m, Torch.count_true m = t) mask →
  Forall (Forall (λ v, length v = e)) grad →
  length (trigger_positions_grad grad mask) = length grad
  ∧ Forall (λ ex, length ex = t ∧ Forall (λ v, length v = e) ex)
           (trigger_positions_grad grad mask).
Proof.
  unfold trigger_positions_grad. revert mask.
  induction grad as [|row grad IH]; intros [|m mask] Hshape Hm Hg; try done.
  apply shape_eqb_cons in Hshape as [Hlen Hshape].
  apply Forall_cons in Hm as [Hc Hm]. apply Forall_cons in Hg as [Hrow Hg].
  destruct (IH mask) as [IH1 IH2]; [done..|]. cbn. split; [by rewrite IH1|].
  constructor; [|done]. split.
  - by rewrite positions_at_length.
  - by apply positions_at_Forall.
Qed.

Lemma trigger_gradient_eval templatizer emb (grad : list (list (list Q))) mask :
  Torch.shape_eqb grad mask = true →
  Forall (λ m, Torch.count_true m = num_trigger_tokens templatizer) mask →
  Forall (Forall (λ v, length v = emb)) grad →
  length (hd [] (hd [] grad)) = emb →
  trigger_gradient templatizer grad mask = Some (trigger_positions_grad grad mask).
Proof.
  intros Hshape Hm Hg Hemb. unfold trigger_gradient, size3.
  unfold Torch.masked_select_unsqueeze. rewrite Hshape. cbn [mbind option_bind].
  destruct (trigger_positions_grad_shape _ emb grad mask Hshape Hm Hg)
    as [Hlen Hexs].
  rewrite select_rows_positions, concat_map_concat, Hemb.
  fold (trigger_positions_grad grad mask). rewrite <- Hlen.
  by apply view3_examples.
Qed.

(** ** The accumulation loop *)

Section Accumulate.
Variables (E : environment) (a : Args.t) (templatizer : TriggerTemplatizer).
Variables (trigger : list Z) (emb : nat).

Let ntt := num_trigger_tokens templatizer.
Let n := Args.accumulation_steps a.
Let X := batch_gradient E trigger ntt emb.
Let ready := accumulation_ready E templatizer trigger emb.

Lemma batch_gradient_shape b : ready b → has_shape ntt emb (X b).
Proof.
  intros (_ & mask & Hmask & Hshape & Hm & Hg & _).
  unfold X, batch_gradient. rewrite Hmask.
  apply has_shape_sum_dim0.
  destruct (trigger_positions_grad_shape ntt emb _ mask Hshape Hm Hg) as [_ Hexs].
  eapply Forall_impl; [exact Hexs|]. by intros ex [? ?].
Qed.

Lemma accumulation_step_eval b gs :
  ready b →
  ∃ gs', accumulation_step E a templatizer trigger b gs
         = Some (gs', Torch.div2 (X b) n).
Proof.
  intros (Hfwd & mask & Hmask & Hshape & Hm & Hg & Hemb).
  destruct b as [model_inputs labels]. cbn [fst snd] in *.
  unfold accumulation_step.
  destruct (predictor (model E) model_inputs trigger) as [predict_logits|];
    [|by destruct Hfwd].
  cbn [mbind option_bind] in *.
  destruct (get_loss (float E) predict_logits labels) as [loss|];
    [|by destruct Hfwd].
  cbn [mbind option_bind GradientStorage_hook GradientStorage_get _stored_gradient].
  unfold size3 at 1. rewrite Hemb, Hmask. cbn [mbind option_bind].
  rewrite (trigger_gradient_eval templatizer emb) by done.
  cbn [mbind option_bind]. eexists. f_equal. f_equal.
  unfold X, batch_gradient. cbn [fst snd]. by rewrite Hmask.
Qed.

Lemma accumulate_running steps train_iter gs acc0 :
  Forall ready (take steps train_iter) →
  has_shape ntt emb acc0 →
  ∃ r, accumulate E a templatizer trigger steps train_iter gs (Some acc0)
       = Some (Some r)
       ∧ has_shape ntt emb r
       ∧ tensor_eq r
           (Torch.add2 acc0
              (Torch.div2 (Torch.sum_dim0 ntt emb (map X (take steps train_iter))) n)).
Proof.
  revert train_iter gs acc0.
  induction steps as [|steps IH]; intros train_iter gs acc0 Hready Hacc.
  { exists acc0. split; [done|]. split; [done|].
    cbn [take firstn map Torch.sum_dim0 foldr].
    etrans; [symmetry; by apply add2_zeros_r|].
    apply add2_proper; [done|]. symmetry. apply div2_zeros. }
  destruct train_iter as [|b train_iter].
  { exists acc0. split; [done|]. split; [done|].
    cbn [take firstn map Torch.sum_dim0 foldr].
    etrans; [symmetry; by apply add2_zeros_r|].
    apply add2_proper; [done|]. symmetry. apply div2_zeros. }
  cbn [take firstn] in Hready. apply Forall_cons in Hready as [Hb Hready].
  destruct (accumulation_step_eval b gs Hb) as [gs' Hstep].
  cbn [accumulate]. rewrite Hstep. cbn [mbind option_bind].
  destruct (IH train_iter gs' (Torch.add2 acc0 (Torch.div2 (X b) n)))
    as (r & Hr & Hshape & Heq); [done| |].
  { apply has_shape_add2; [done|]. by apply has_shape_div2, batch_gradient_shape. }
  exists r. split; [done|]. split; [done|].
  etrans; [exact Heq|]. cbn [take firstn map Torch.sum_dim0 foldr].
  etrans; [apply add2_assoc|]. apply add2_proper; [done|].
  symmetry. apply div2_add2.
Qed.

(** C5.  When the batches the loop processes (the
    first [accumulation_steps] of the iterator, or all of them when it has
    fewer) are well-formed, the accumulation phase ends with
    [averaged_grad] equal to [1/accumulation_steps] times the sum over the
    processed batches of the batch gradients, each the sum over the
    examples of the gradients the hook captured at the
    [num_trigger_tokens] trigger positions.  When no batch is processed
    [averaged_grad] is still [None]. *)
Theorem accumulate_averaged_grad (train_iter : list batch) :
  let processed := take n train_iter in
  Forall ready processed →
  ∃ averaged_grad,
    accumulate E a templatizer trigger n train_iter GradientStorage_init None
    = Some averaged_grad
    ∧ match averaged_grad with
      | None => processed = []
      | Some g =>
          processed ≠ []
          ∧ has_shape ntt emb g
          ∧ tensor_eq g (Torch.div2 (Torch.sum_dim0 ntt emb (map X processed)) n)
      end.
Proof.
  intros processed Hready. subst processed.
  destruct n as [|steps] eqn:Hn.
  { by exists None. }
  destruct train_iter as [|b train_iter'].
  { by exists None. }
  cbn [take firstn] in Hready |- *. apply Forall_cons in Hready as [Hb Hready].
  destruct (accumulation_step_eval b GradientStorage_init Hb) as [gs' Hstep].
  cbn [accumulate]. rewrite Hstep. cbn [mbind option_bind].
  fold n in Hn. rewrite Hn in Hstep |- *. rewrite <- Hn.
  destruct (accumulate_running steps train_iter' gs' (Torch.div2 (X b) n))
    as (r & Hr & Hshape & Heq); [done| |].
  { by apply has_shape_div2, batch_gradient_shape. }
  exists (Some r). split; [done|]. split; [done|]. split; [done|].
  etrans; [exact Heq|]. cbn [map Torch.sum_dim0 foldr]. symmetry. apply div2_add2.
Qed.

End Accumulate.

(** ** [argmax] *)

Lemma argmax_from_spec pre best v :
  pre !! best.1 = Some best.2 →
  (∀ x, x ∈ pre → (x <= best.2)%Q) →
  (∀ j x, j < best.1 → pre !! j = Some x → (x < best.2)%Q) →
  let r := Torch.argmax_from (length pre) best v in
  ∃ rx, (pre ++ v) !! r = Some rx
        ∧ (∀ x, x ∈ pre ++ v → (x <= rx)%Q)
        ∧ (∀ j x, j < r → (pre ++ v) !! j = Some x → (x < rx)%Q).
Proof.
  revert pre best. induction v as [|y v IH]; intros pre [bi bx] Hb Hmax Hfirst; cbn in *.
  { exists bx. rewrite app_nil_r. by repeat split. }
  destruct (Qlt_le_dec bx y) as [Hlt|Hle].
  - destruct (IH (pre ++ [y]) (length pre, y)) as (rx & Hr & Hall & Hf); cbn.
    + by rewrite lookup_app_r, Nat.sub_diag.
    + intros x [Hx| ->%list_elem_of_singleton]%elem_of_app; [|apply Qle_refl].
      apply Qlt_le_weak. eapply Qle_lt_trans; [by apply Hmax|done].
    + intros j x Hj Hx. rewrite lookup_app_l in Hx by done.
      eapply Qle_lt_trans; [|exact Hlt]. apply Hmax.
      by eapply list_elem_of_lookup_2.
    + rewrite length_app, Nat.add_1_r in Hr, Hf. rewrite <- app_assoc in Hr, Hall, Hf.
      by exists rx.
  - destruct (IH (pre ++ [y]) (bi, bx)) as (rx & Hr & Hall & Hf); cbn.
    + rewrite lookup_app_l; [done|]. by eapply lookup_lt_Some.
    + intros x [Hx| ->%list_elem_of_singleton]%elem_of_app; [by apply Hmax|done].
    + intros j x Hj Hx. apply (Hfirst j x Hj).
      rewrite lookup_app_l in Hx; [done|]. apply lookup_lt_Some in Hb. cbn in Hb. lia.
    + rewrite length_app, Nat.add_1_r in Hr, Hf. rewrite <- app_assoc in Hr, Hall, Hf.
      by exists rx.
Qed.

(** [argmax] returns the position of the first maximal entry. *)
Lemma argmax_spec v i :
  Torch.argmax v = Some i →
  ∃ x, v !! i = Some x
       ∧ (∀ y, y ∈ v → (y <= x)%Q)
       ∧ (∀ j y, j < i → v !! j = Some y → (y < x)%Q).
Proof.
  destruct v as [|x v]; [done|]. intros [= <-].
  apply (argmax_from_spec [x] (0, x) v); cbn.
  - done.
  - intros y ->%list_elem_of_singleton. apply Qle_refl.
  - intros j y Hj. lia.
Qed.

Lemma argmax_is_Some v : v ≠ [] → is_Some (Torch.argmax v).
Proof. by destruct v. Qed.

Lemma ext_ltb_lt x y : ext_ltb x y = true ↔ ext_lt x y.
Proof.
  destruct x as [|q]; cbn; [done|].
  destruct (Qlt_le_dec q y) as [H|H]; split; try done.
  intros H'. by apply Qlt_not_le in H'.
Qed.

Lemma existsb_ext_lt x v :
  existsb (ext_ltb x) v = true ↔ ∃ c, c ∈ v ∧ ext_lt x c.
Proof.
  rewrite existsb_exists. split; intros (c & Hc & Hlt); exists c;
    (split; [by apply list_elem_of_In|by apply ext_ltb_lt]).
Qed.

(** ** The search loop *)

Section SearchProps.
Variables (E : environment) (a : Args.t) (templatizer : TriggerTemplatizer).
Variables (accuracy : option AccuracyFn) (filter : list Q).

Let ntt := num_trigger_tokens templatizer.

Lemma set_index_Some {A} (t : list A) i v t' :
  Torch.set_index t i v = Some t' → i < length t ∧ t' = <[i := v]> t.
Proof. unfold Torch.set_index. case_decide; naive_solver. Qed.

Lemma randrange_Some r m i : Py.randrange r m = Some i → i = r mod m ∧ i < m.
Proof.
  unfold Py.randrange. case_decide; [done|]. intros [= <-].
  split; [done|]. by apply Nat.mod_upper_bound.
Qed.

Lemma evaluate_and_keep_best_cases trigger train_metric st st' :
  evaluate_and_keep_best E a accuracy trigger train_metric st = Some st' →
  ∃ dev_metric,
    evaluate_dev E accuracy trigger = Some dev_metric
    ∧ trigger_ids st' = trigger
    ∧ (best_trigger_ids st' = trigger ∨ best_trigger_ids st' = best_trigger_ids st)
    ∧ ∃ tail, log st'
              = log st ++ [LogBetterTrigger train_metric; LogDevMetric dev_metric] ++ tail.
Proof.
  unfold evaluate_and_keep_best. intros H.
  destruct (evaluate_dev E accuracy trigger) as [dev_metric|]; [|done].
  cbn [mbind option_bind] in H. exists dev_metric. split; [done|].
  destruct (ext_ltb _ _); injection H as <-; cbn.
  - split; [done|]. split; [by left|]. exists [LogBestSoFar]. by rewrite <- app_assoc.
  - split; [done|]. split; [by right|]. by exists [].
Qed.

Lemma search_iteration_cases d st st' :
  search_iteration E a templatizer accuracy filter d st = Some st' →
  ∃ averaged_grad token_to_flip grad_row candidates current_score
    candidate_scores denom,
    accumulate E a templatizer (trigger_ids st) (Args.accumulation_steps a)
               (grad_batches d) GradientStorage_init None
    = Some (Some averaged_grad)
    ∧ Py.randrange (rand d) ntt = Some token_to_flip
    ∧ averaged_grad !! token_to_flip = Some grad_row
    ∧ hotflip_attack grad_row (embeddings_weight (model E)) false
                     (Args.num_cand a) (Some filter) = Some candidates
    ∧ score_loop E accuracy (trigger_ids st) token_to_flip candidates
                 (Args.accumulation_steps a) (eval_batches d)
                 0%Q (replicate (Args.num_cand a) 0%Q) 0
      = Some (current_score, candidate_scores, denom)
    ∧ ((existsb (ext_ltb (lama_guard E a (trigger_ids st) (Fin current_score)))
                candidate_scores = true
        ∧ ∃ best_idx best_score candidate trigger,
            Torch.argmax candidate_scores = Some best_idx
            ∧ candidate_scores !! best_idx = Some best_score
            ∧ candidates !! best_idx = Some candidate
            ∧ Torch.set_index (trigger_ids st) token_to_flip (Z.of_nat candidate)
              = Some trigger
            ∧ evaluate_and_keep_best E a accuracy trigger
                (best_score / (inject_Z (Z.of_nat denom) + eps))%Q st = Some st')
       ∨ (existsb (ext_ltb (lama_guard E a (trigger_ids st) (Fin current_score)))
                  candidate_scores = false
          ∧ st' = {| trigger_ids := trigger_ids st;
                     best_trigger_ids := best_trigger_ids st;
                     best_dev_metric := best_dev_metric st;
                     log := log st ++ [LogNoImprovement] |})).
Proof.
  unfold search_iteration. intros H.
  destruct (accumulate _ _ _ _ _ _ _ _) as [averaged_grad|] eqn:Hacc; [|done].
  cbn [mbind option_bind] in H.
  destruct (Py.randrange _ _) as [token_to_flip|] eqn:Hrand; [|done].
  cbn [mbind option_bind] in H.
  destruct averaged_grad as [averaged_grad|]; [|done].
  cbn [mbind option_bind] in H.
  destruct (averaged_grad !! token_to_flip) as [grad_row|] eqn:Hrow; [|done].
  cbn [mbind option_bind] in H.
  destruct (hotflip_attack _ _ _ _ _) as [candidates|] eqn:Hhot; [|done].
  cbn [mbind option_bind] in H.
  destruct (score_loop _ _ _ _ _ _ _ _ _ _) as [[[current_score candidate_scores] denom]|]
    eqn:Hscore; [|done].
  cbn [mbind option_bind] in H.
  exists averaged_grad, token_to_flip, grad_row, candidates, current_score,
    candidate_scores, denom.
  do 5 (split; [done|]).
  destruct (existsb _ candidate_scores) eqn:Hex; [left|right].
  - split; [done|].
    destruct (Torch.argmax candidate_scores) as [best_idx|] eqn:Hargmax; [|done].
    cbn [mbind option_bind] in H.
    destruct (candidate_scores !! best_idx) as [best_score|] eqn:Hbs; [|done].
    cbn [mbind option_bind] in H.
    destruct (candidates !! best_idx) as [candidate|] eqn:Hcand; [|done].
    cbn [mbind option_bind] in H.
    destruct (Torch.set_index _ _ _) as [trigger|] eqn:Hset; [|done].
    cbn [mbind option_bind] in H.
    by exists best_idx, best_score, candidate, trigger.
  - split; [done|]. by injection H as <-.
Qed.

(** An iteration keeps the length of the trigger and of the best
    trigger, provided the best trigger has the length of the trigger. *)
Lemma search_iteration_length d st st' :
  search_iteration E a templatizer accuracy filter d st = Some st' →
  length (trigger_ids st') = length (trigger_ids st)
  ∧ (length (best_trigger_ids st) = length (trigger_ids st) →
     length (best_trigger_ids st') = length (trigger_ids st)).
Proof.
  intros (g & p & row & cands & cur & cs & denom & _ & _ & _ & _ & _ & Hcases)
    %search_iteration_cases.
  destruct Hcases as [(_ & i & s & c & t & _ & _ & _ & Hset & Hbest)|(_ & ->)];
    [|done].
  apply set_index_Some in Hset as [_ ->].
  apply evaluate_and_keep_best_cases in Hbest as (dev & _ & Ht & Hb & _).
  rewrite Ht, length_insert. split; [done|].
  destruct Hb as [-> | ->]; [by rewrite length_insert|done].
Qed.

End SearchProps.

Section SearchTheorems.
Variables (E : environment) (a : Args.t) (templatizer : TriggerTemplatizer).
Variables (accuracy : option AccuracyFn) (filter : list Q).

(** X2.  When the loader yields no training batch for the gradient pass,
    or [accumulation_steps] is zero, [averaged_grad] is still [None] after
    the accumulation loop and the iteration raises (at the latest when
    [averaged_grad] is indexed): no state is produced. *)
Theorem search_iteration_no_batch (d : draw) (st : search_state) :
  grad_batches d = [] ∨ Args.accumulation_steps a = 0 →
  accumulate E a templatizer (trigger_ids st) (Args.accumulation_steps a)
             (grad_batches d) GradientStorage_init None = Some None
  ∧ search_iteration E a templatizer accuracy filter d st = None.
Proof.
  intros Hnone.
  assert (Hacc : accumulate E a templatizer (trigger_ids st)
                   (Args.accumulation_steps a) (grad_batches d)
                   GradientStorage_init None = Some None).
  { destruct Hnone as [-> | ->]; [by destruct (Args.accumulation_steps a)|done]. }
  split; [done|]. unfold search_iteration. rewrite Hacc. cbn [mbind option_bind].
  by destruct (Py.randrange _ _).
Qed.

(** C1.  An iteration that completes rewrites at most the one position
    [token_to_flip = rand mod num_trigger_tokens] of the trigger.  Let the
    threshold be the current trigger's score accumulated by the scoring
    loop, or minus infinity when [--print-lama] is set and the trigger
    still holds the mask token.  If some candidate's accumulated score
    strictly exceeds the threshold, the trigger becomes the old one with
    the candidate of the first maximal score at [token_to_flip], and the
    dev set is evaluated on it; otherwise the state is unchanged but for
    the log entry, and the dev set is not evaluated. *)
Theorem search_iteration_single_flip (d : draw) (st st' : search_state) :
  search_iteration E a templatizer accuracy filter d st = Some st' →
  ∃ token_to_flip candidates current_score candidate_scores denom,
    token_to_flip = rand d mod num_trigger_tokens templatizer
    ∧ token_to_flip < num_trigger_tokens templatizer
    ∧ score_loop E accuracy (trigger_ids st) token_to_flip candidates
                 (Args.accumulation_steps a) (eval_batches d)
                 0%Q (replicate (Args.num_cand a) 0%Q) 0
      = Some (current_score, candidate_scores, denom)
    ∧ length (trigger_ids st') = length (trigger_ids st)
    ∧ (∀ j, j ≠ token_to_flip → trigger_ids st' !! j = trigger_ids st !! j)
    ∧ let threshold :=
        if Args.print_lama a && bool_decide (mask_token_id (tok E) ∈ trigger_ids st)
        then NegInf else Fin current_score in
      ((∃ c, c ∈ candidate_scores ∧ ext_lt threshold c) →
       ∃ best_idx best_score candidate dev_metric,
         candidates !! best_idx = Some candidate
         ∧ candidate_scores !! best_idx = Some best_score
         ∧ (∀ y, y ∈ candidate_scores → (y <= best_score)%Q)
         ∧ (∀ j y, j < best_idx → candidate_scores !! j = Some y → (y < best_score)%Q)
         ∧ trigger_ids st' = <[token_to_flip := Z.of_nat candidate]> (trigger_ids st)
         ∧ evaluate_dev E accuracy (trigger_ids st') = Some dev_metric
         ∧ LogDevMetric dev_metric ∈ log st')
      ∧ (¬ (∃ c, c ∈ candidate_scores ∧ ext_lt threshold c) →
         st' = {| trigger_ids := trigger_ids st;
                  best_trigger_ids := best_trigger_ids st;
                  best_dev_metric := best_dev_metric st;
                  log := log st ++ [LogNoImprovement] |}).
Proof.
  intros H. pose proof (search_iteration_length _ _ _ _ _ _ _ _ H) as [Hlen _].
  apply search_iteration_cases in H
    as (g & p & row & cands & cur & cs & denom & _ & Hrand & _ & _ & Hscore & Hcases).
  apply randrange_Some in Hrand as [Hp Hlt].
  exists p, cands, cur, cs, denom.
  do 4 (split; [done|]).
  fold (lama_guard E a (trigger_ids st) (Fin cur)).
  destruct Hcases as [(Hex & i & s & c & t & Harg & Hs & Hc & Hset & Hbest)|(Hex & ->)].
  - apply set_index_Some in Hset as [Hpl ->].
    apply evaluate_and_keep_best_cases in Hbest as (dev & Hdev & Ht & _ & tail & Hlog).
    split; [intros j Hj; rewrite Ht; by apply list_lookup_insert_ne|].
    split; [|intros Hno; destruct Hno; by apply existsb_ext_lt].
    intros _. apply argmax_spec in Harg as (x & Hx & Hmax & Hfirst).
    assert (x = s) as -> by congruence.
    exists i, s, c, dev. rewrite Ht. do 5 (split; [done|]).
    split; [done|]. rewrite Hlog. set_solver.
  - split; [done|]. split; [|done].
    intros Hyes%existsb_ext_lt. congruence.
Qed.

Lemma search_after_length (draws : nat → draw) (init : search_state) (k : nat)
    (st : search_state) :
  length (best_trigger_ids init) = length (trigger_ids init) →
  search_after E a templatizer accuracy filter draws init k = Some st →
  length (trigger_ids st) = length (trigger_ids init)
  ∧ length (best_trigger_ids st) = length (trigger_ids init).
Proof.
  intros Hinit. revert st. induction k as [|k IH]; intros st Hk; cbn in Hk.
  { by injection Hk as <-. }
  destruct (search_after _ _ _ _ _ _ _ k) as [st0|]; [|done].
  cbn [mbind option_bind] in Hk.
  destruct (IH st0 eq_refl) as [IH1 IH2].
  apply search_iteration_length in Hk as [Hk1 Hk2].
  rewrite Hk1, IH1. split; [done|]. rewrite Hk2; congruence.
Qed.

Lemma search_iteration_one_position (d : draw) (st st' : search_state) :
  search_iteration E a templatizer accuracy filter d st = Some st' →
  ∃ token_to_flip,
    ∀ j, j ≠ token_to_flip → trigger_ids st' !! j = trigger_ids st !! j.
Proof.
  intros (g & p & row & cands & cur & cs & denom & _ & _ & _ & _ & _ & Hcases)
    %search_iteration_cases.
  exists p. intros j Hj.
  destruct Hcases as [(_ & i & s & c & t & _ & _ & _ & Hset & Hbest)|(_ & ->)];
    [|done].
  apply set_index_Some in Hset as [_ ->].
  apply evaluate_and_keep_best_cases in Hbest as (dev & _ & Ht & _).
  rewrite Ht. by apply list_lookup_insert_ne.
Qed.

End SearchTheorems.

Lemma search_iteration_single_flip_witness :
  ∃ st',
    search_iteration (sample_env sum_model) (sample_args false) sample_templatizer
                     None [0; 0; 0]%Q (sample_draws 0) (sample_state [0]%Z)
    = Some st'
    ∧ length (trigger_ids st') = 1.
Proof.
  destruct (search_iteration (sample_env sum_model) (sample_args false)
              sample_templatizer None [0; 0; 0]%Q (sample_draws 0)
              (sample_state [0]%Z)) as [st'|] eqn:H; [|by vm_compute in H].
  exists st'. split; [reflexivity|].
  destruct (search_iteration_single_flip _ _ _ _ _ _ _ _ H)
    as (p & cands & cur & cs & denom & _ & _ & _ & Hlen & _).
  exact Hlen.
Defined.

(** C1, counterexample.  With [--print-lama] and a trigger that still
    holds the mask token, the trigger is rewritten although no candidate's
    accumulated score exceeds the current trigger's: both candidates score
    5, as the current trigger does, and position 0 goes from the mask
    token to the first candidate.  Without [--print-lama] the same
    iteration leaves the trigger as it is. *)
Lemma search_iteration_lama_threshold :
  let E := sample_env constant_model in
  accumulate E (sample_args true) sample_templatizer [0]%Z 1 [sample_batch]
             GradientStorage_init None
  = Some (Some [[-1]]%Q)
  ∧ hotflip_attack [-1]%Q (embeddings_weight (model E)) false 2 (Some [0; 0; 0]%Q)
    = Some [2; 1]
  ∧ score_loop E None [0]%Z 0 [2; 1] 1 [sample_batch] 0%Q [0; 0]%Q 0
    = Some (5%Q, [5; 5]%Q, 1)
  ∧ trigger_ids <$> search_iteration E (sample_args true) sample_templatizer None
                      [0; 0; 0]%Q (sample_draws 0) (sample_state [0]%Z)
    = Some [2]%Z
  ∧ trigger_ids <$> search_iteration E (sample_args false) sample_templatizer None
                      [0; 0; 0]%Q (sample_draws 0) (sample_state [0]%Z)
    = Some [0]%Z.
Proof. repeat split; by vm_compute. Qed.

Lemma search_iteration_no_batch_witness :
  search_iteration (sample_env sum_model) (sample_args false) sample_templatizer
                   None [0; 0; 0]%Q
                   {| grad_batches := []; eval_batches := [sample_batch]; rand := 0 |}
                   (sample_state [0]%Z)
  = None.
Proof.
  refine (proj2 (search_iteration_no_batch _ _ _ _ _ _ _ _)). by left.
Defined.


Lemma initial_trigger_ids_length tk templatizer a ids :
  initial_trigger_ids tk templatizer a = Some ids →
  length ids = num_trigger_tokens templatizer.
Proof.
  unfold initial_trigger_ids. intros H.
  destruct (Args.initial_trigger a) as [[|t ts]|].
  - injection H as <-. apply length_replicate.
  - case_decide; [|done]. by injection H as <-.
  - injection H as <-. apply length_replicate.
Qed.

(** C6.  In a run of [run_model] that completes, the trigger and the best
    trigger hold exactly [args.num_trigger_tokens] ids after the set-up and
    after every iteration: the set-up takes the ids of a given initial
    trigger, whose number it asserts, or repeats the mask token, and an
    iteration changes at most one position of the trigger. *)
Theorem run_model_trigger_length (E : environment) (a : Args.t)
    (draws : nat → draw) (fs : Fs.t) (o : outcome) :
  run_model E a draws fs = Some o →
  ∃ templatizer accuracy filter init,
    num_trigger_tokens templatizer = Args.num_trigger_tokens a
    ∧ search_after E a templatizer accuracy filter draws init (Args.iters a)
      = Some (final o)
    ∧ (∀ k st,
         search_after E a templatizer accuracy filter draws init k = Some st →
         length (trigger_ids st) = Args.num_trigger_tokens a
         ∧ length (best_trigger_ids st) = Args.num_trigger_tokens a)
    ∧ best_trigger_ids init = trigger_ids init
    ∧ match Args.initial_trigger a with
      | Some ((_ :: _) as tokens) =>
          trigger_ids init = convert_tokens_to_ids (tok E) tokens
      | Some [] | None =>
          trigger_ids init
          = replicate (num_trigger_tokens templatizer) (mask_token_id (tok E))
      end
    ∧ ∀ k st st',
        search_after E a templatizer accuracy filter draws init k = Some st →
        search_after E a templatizer accuracy filter draws init (S k) = Some st' →
        ∃ token_to_flip,
          ∀ j, j ≠ token_to_flip → trigger_ids st' !! j = trigger_ids st !! j.
Proof.
  unfold run_model. intros H.
  destruct (build_template a) as [template|]; [|done].
  cbn [mbind option_bind] in H.
  set (templatizer := TriggerTemplatizer_init E template) in *.
  destruct (guard _) as [Hntt|] eqn:Hguard; [|done].
  cbn [mbind option_bind] in H.
  destruct (initial_trigger_ids _ _ _) as [ids|] eqn:Hids; [|done].
  cbn [mbind option_bind] in H.
  destruct (build_filter E a) as [filter|]; [|done].
  cbn [mbind option_bind] in H.
  destruct (evaluate_dev _ _ _) as [dev_metric|]; [|done].
  cbn [mbind option_bind] in H.
  match type of H with
  | context [search_after _ _ _ _ _ _ ?i _] => set (init := i) in *
  end.
  destruct (search_after _ _ _ _ _ _ init _) as [st|] eqn:Hsearch; [|done].
  cbn [mbind option_bind] in H.
  destruct (if Args.print_lama a then _ else _) as [fs'|]; [|done].
  injection H as <-. cbn [final].
  pose proof (initial_trigger_ids_length _ _ _ _ Hids) as Hlen.
  exists templatizer, (select_evaluation E a), filter, init.
  split; [done|]. split; [done|].
  split.
  { intros k st0 Hk. apply search_after_length in Hk; [|done].
    cbn in Hk. rewrite Hntt, <- Hlen. exact Hk. }
  split; [done|].
  split.
  { subst init. cbn [trigger_ids]. unfold initial_trigger_ids in Hids.
    destruct (Args.initial_trigger a) as [[|t ts]|].
    - by injection Hids as <-.
    - cbv zeta in Hids. destruct (decide _) as [_|]; [|done].
      by injection Hids as <-.
    - by injection Hids as <-. }
  intros k st0 st1 Hk Hk1. cbn [search_after] in Hk1. rewrite Hk in Hk1.
  cbn [mbind option_bind] in Hk1.
  by eapply search_iteration_one_position.
Qed.

Lemma run_model_trigger_length_witness :
  ∃ o,
    run_model (sample_env sum_model) (sample_args true) sample_draws sample_fs
    = Some o
    ∧ length (trigger_ids (final o)) = 1
    ∧ length (best_trigger_ids (final o)) = 1.
Proof.
  destruct (run_model (sample_env sum_model) (sample_args true) sample_draws
              sample_fs) as [o|] eqn:H; [|by vm_compute in H].
  exists o. split; [reflexivity|].
  destruct (run_model_trigger_length _ _ _ _ _ H)
    as (templatizer & accuracy & filter & init & _ & Hfinal & Hinv & _).
  exact (Hinv _ _ Hfinal).
Defined.

Lemma accumulate_averaged_grad_witness :
  ∃ g,
    accumulate (sample_env sum_model) (sample_args false) sample_templatizer
               [0]%Z 1 [sample_batch] GradientStorage_init None
    = Some (Some g)
    ∧ tensor_eq g [[-1]]%Q.
Proof.
  destruct (accumulate_averaged_grad (sample_env sum_model) (sample_args false)
              sample_templatizer [0]%Z 1 [sample_batch]) as (r & Hr & Hm).
  { apply Forall_cons. split; [|by apply Forall_nil].
    split; [vm_compute; by eexists|].
    exists [[true; false]].
    split; [reflexivity|]. split; [reflexivity|].
    split; [by repeat constructor|].
    split; [|reflexivity].
    change (Forall (Forall (λ v : list Q, length v = 1)) [[[-1]; [-1]]]%Q).
    by repeat constructor. }
  destruct r as [g|]; [|discriminate Hm].
  destruct Hm as (_ & _ & Heq). exists g. split; [exact Hr|].
  etrans; [exact Heq|]. by repeat constructor.
Defined.

(** C5, counterexample.  When the loader yields no batch, or
    [accumulation_steps] is zero, no batch is processed and
    [averaged_grad] is [None] at the end of the phase, not
    [1/accumulation_steps] times an empty sum. *)
Lemma accumulate_no_batch :
  accumulate (sample_env sum_model) (sample_args false) sample_templatizer
             [0]%Z 1 [] GradientStorage_init None
  = Some None
  ∧ accumulate (sample_env sum_model) (sample_args false) sample_templatizer
               [0]%Z 0 [sample_batch] GradientStorage_init None
    = Some None.
Proof. split; reflexivity. Qed.

(** ** Strings *)

Lemma chars_app s1 s2 : chars (s1 +:+ s2) = chars s1 ++ chars s2.
Proof.
  induction s1 as [|c s1 IH]; [done|].
  change (chars (String c s1 +:+ s2)) with (c :: chars (s1 +:+ s2)).
  by rewrite IH.
Qed.

Lemma chars_cons c s : chars (String c s) = c :: chars s.
Proof. done. Qed.

#[local] Instance printable_dec c : Decision (printable c).
Proof. unfold printable. apply _. Defined.









(** ** [str.split] and the name of the result file *)

Lemma split_nonempty sep s : Py.split sep s ≠ [].
Proof.
  destruct s as [|c s]; [done|]. cbn.
  destruct (Ascii.eqb c sep); [done|]. by destruct (Py.split sep s).
Qed.

Lemma split_no_sep sep s x : x ∈ Py.split sep s → sep ∉ chars x.
Proof.
  revert x. induction s as [|c s IH]; intros x Hx; cbn in Hx.
  { apply list_elem_of_singleton in Hx as ->. by intros ?%elem_of_nil. }
  destruct (Ascii.eqb_spec c sep) as [->|Hne].
  - apply elem_of_cons in Hx as [->|Hx]; [by intros ?%elem_of_nil|by apply IH].
  - destruct (Py.split sep s) as [|y ys] eqn:Hs.
    + apply list_elem_of_singleton in Hx as ->.
      intros [?|?%elem_of_nil]%elem_of_cons; [congruence|done].
    + apply elem_of_cons in Hx as [->|Hx].
      * rewrite chars_cons. intros [?|Hin]%elem_of_cons; [congruence|].
        by apply (IH y); [left|].
      * apply IH. by right.
Qed.

Lemma split_single sep s : sep ∉ chars s → Py.split sep s = [s].
Proof.
  induction s as [|c s IH]; intros Hs; [done|]. cbn.
  rewrite chars_cons in Hs. apply not_elem_of_cons in Hs as [Hc Hs].
  destruct (Ascii.eqb_spec c sep) as [->|_]; [done|]. by rewrite IH.
Qed.

Lemma split_app sep s1 s2 :
  sep ∉ chars s1 →
  Py.split sep (s1 +:+ String sep s2) = s1 :: Py.split sep s2.
Proof.
  induction s1 as [|c s1 IH]; intros Hs.
  { change (EmptyString +:+ String sep s2) with (String sep s2).
    cbn [Py.split]. by rewrite Ascii.eqb_refl. }
  rewrite chars_cons in Hs. apply not_elem_of_cons in Hs as [Hc Hs].
  change (String c s1 +:+ String sep s2) with (String c (s1 +:+ String sep s2)).
  cbn [Py.split]. destruct (Ascii.eqb_spec c sep) as [->|_]; [done|].
  by rewrite IH.
Qed.

Lemma contains_char sep s :
  Py.contains (String sep EmptyString) s = true ↔ sep ∈ chars s.
Proof.
  induction s as [|c s IH].
  { split; [done|by intros ?%elem_of_nil]. }
  rewrite chars_cons, elem_of_cons, <- IH.
  cbn [Py.contains String.prefix].
  destruct (Ascii.ascii_dec sep c) as [->|Hne].
  - split; [by left|]. intros _. by destruct s.
  - cbn [orb]. split; [by right|]. by intros [?|?].
Qed.

Lemma split_second sep s :
  sep ∈ chars s → is_Some (Py.split sep s !! 1).
Proof.
  induction s as [|c s IH]; [by intros ?%elem_of_nil|].
  rewrite chars_cons. intros Hin. cbn.
  destruct (Ascii.eqb_spec c sep) as [->|Hne].
  - cbn. pose proof (split_nonempty sep s). by destruct (Py.split sep s).
  - apply elem_of_cons in Hin as [?|Hin]; [congruence|].
    destruct (IH Hin) as [x Hx].
    destruct (Py.split sep s) as [|y ys]; [done|]. by exists x.
Qed.

(** X5.  The suffix of the model name used in the result file name is
    always defined and never contains a slash: it is the whole name when
    the name has no slash, and the component after the first slash (up to
    the next one) otherwise. *)
Theorem name_suffix_component (model_name : string) :
  ∃ suffix,
    name_suffix model_name = Some suffix
    ∧ ("/"%char ∉ chars suffix)
    ∧ ("/"%char ∉ chars model_name → suffix = model_name)
    ∧ (∀ org rest x,
         model_name = org +:+ String "/" rest →
         "/"%char ∉ chars org →
         Py.split "/" rest !! 0 = Some x →
         suffix = x).
Proof.
  unfold name_suffix.
  destruct (Py.contains "/" model_name) eqn:Hc.
  - apply contains_char in Hc.
    destruct (split_second _ _ Hc) as [x Hx]. exists x. split; [done|].
    split; [eapply split_no_sep; by eapply list_elem_of_lookup_2|].
    split; [done|].
    intros org rest y -> Horg Hy. rewrite split_app in Hx by done.
    change (Py.split "/" rest !! 0 = Some x) in Hx. congruence.
  - assert (Hno : "/"%char ∉ chars model_name).
    { intros Hin%contains_char. congruence. }
    exists model_name. split; [done|]. split; [done|]. split; [done|].
    intros org rest y -> Horg _. destruct Hno.
    rewrite chars_app, chars_cons. set_solver.
Qed.

Lemma name_suffix_component_witness :
  name_suffix "facebook/opt-350m" = Some "opt-350m".
Proof.
  destruct (name_suffix_component "facebook/opt-350m")
    as (suffix & -> & _ & _ & Hsplit).
  f_equal. apply (Hsplit "facebook" "opt-350m"); [reflexivity| |reflexivity].
  apply (bool_decide_unpack _). by vm_compute.
Defined.

(** ** The LAMA output *)



(** [run_model] runs the LAMA block, on the best trigger of the final
    state, exactly when [--print-lama] is set, and touches no file
    otherwise. *)
Lemma run_model_file_system (E : environment) (a : Args.t)
    (draws : nat → draw) (fs : Fs.t) (o : outcome) :
  run_model E a draws fs = Some o →
  if Args.print_lama a
  then ∃ template,
         build_template a = Some template
         ∧ print_lama_output E (TriggerTemplatizer_init E template) a
             (best_trigger_ids (final o)) fs
           = Some (file_system o)
  else file_system o = fs.
Proof.
  unfold run_model. intros H.
  destruct (build_template a) as [template|]; [|done].
  cbn [mbind option_bind] in H.
  destruct (guard _); [|done]. cbn [mbind option_bind] in H.
  destruct (initial_trigger_ids _ _ _) as [ids|]; [|done].
  cbn [mbind option_bind] in H.
  destruct (build_filter E a) as [filter|]; [|done].
  cbn [mbind option_bind] in H.
  destruct (evaluate_dev _ _ _) as [dev_metric|]; [|done].
  cbn [mbind option_bind] in H.
  destruct (search_after _ _ _ _ _ _ _ _) as [st|]; [|done].
  cbn [mbind option_bind] in H.
  destruct (Args.print_lama a).
  - destruct (print_lama_output _ _ _ _ _) as [fs'|] eqn:Hout; [|done].
    injection H as <-. by exists template.
  - by injection H as <-.
Qed.

(** ** Failures of the set-up *)

(** X7.  [run_model] raises, and so writes nothing, whenever
    [args.template] is not the empty string (the variable [template] is
    then read before it is bound; this includes the default [None]),
    whenever [args.num_trigger_tokens] differs from the count of the
    templatizer, and whenever a given initial trigger has another number
    of ids. *)
Theorem run_model_setup_raises (E : environment) (a : Args.t)
    (draws : nat → draw) (fs : Fs.t) :
  (Args.template a ≠ Some EmptyString → run_model E a draws fs = None)
  ∧ (∀ template,
       build_template a = Some template →
       Args.num_trigger_tokens a
       ≠ num_trigger_tokens (TriggerTemplatizer_init E template) →
       run_model E a draws fs = None)
  ∧ (∀ template tokens,
       build_template a = Some template →
       Args.initial_trigger a = Some tokens → tokens ≠ [] →
       length (convert_tokens_to_ids (tok E) tokens)
       ≠ num_trigger_tokens (TriggerTemplatizer_init E template) →
       run_model E a draws fs = None).
Proof.
  split; [|split].
  - intros Ht. unfold run_model, build_template.
    destruct (Args.template a) as [[|c s]|]; done.
  - intros template Hb Hne. unfold run_model. rewrite Hb. cbn [mbind option_bind].
    by rewrite option_guard_False.
  - intros template tokens Hb Hi Hnil Hne. unfold run_model.
    rewrite Hb. cbn [mbind option_bind].
    destruct (guard _); [|done]. cbn [mbind option_bind].
    unfold initial_trigger_ids. rewrite Hi.
    destruct tokens as [|t ts]; [done|]. cbv zeta.
    destruct (decide _) as [Heq|_]; [by destruct Hne|done].
Qed.

Lemma run_model_setup_raises_witness :
  run_model (sample_env sum_model)
            {| Args.seed := 0; Args.model_name := "bert-base-cased";
               Args.output := "results"; Args.template := None;
               Args.train_parent_stem := []; Args.label_map := None;
               Args.filter := false; Args.print_lama := true;
               Args.use_ctx := false; Args.initial_trigger := None;
               Args.iters := 1; Args.accumulation_steps := 1;
               Args.num_cand := 2; Args.num_trigger_tokens := 1;
               Args.fast_tokenizer := 0 |}
            sample_draws sample_fs
  = None.
Proof.
  refine (proj1 (run_model_setup_raises _ _ _ _) _). discriminate.
Defined.

(** ** Failures of [PredictWrapper.__call__] *)

Lemma M_bind_fst_None {A B} (c : M A) (f : A → M B) h :
  (∀ x h', (f x h').1 = None) → ((c ≫= f) h).1 = None.
Proof.
  intros Hf. unfold mbind, M_bind. destruct (c h) as [[x|] h']; [apply Hf|done].
Qed.

(** X8.  For a model whose name is not a key of [LM_TYPE] (as for
    ["gpt2"], whose entry is commented out), [PredictWrapper.__call__]
    raises on every input, before the model is run. *)
Theorem PredictWrapper_call_unregistered (self : language_model)
    (model_inputs : loc) (trigger_ids : list Z) (h : heap) :
  LM_TYPE !! name_or_path self = None →
  (PredictWrapper_call self model_inputs trigger_ids h).1 = None.
Proof.
  intros Hlm. unfold PredictWrapper_call.
  apply M_bind_fst_None. intros c h1.
  apply M_bind_fst_None. intros tm h2.
  apply M_bind_fst_None. intros pm h3.
  apply M_bind_fst_None. intros ltm h4.
  unfold mbind at 1, M_bind at 1, lift at 1. by rewrite Hlm.
Qed.

Lemma PredictWrapper_call_unregistered_witness :
  (PredictWrapper_call (sample_model "gpt2") 0 [42]%Z sample_heap).1 = None.
Proof. apply PredictWrapper_call_unregistered. reflexivity. Defined.

Ltac lookup_step :=
  first [ rewrite lookup_insert_eq | rewrite lookup_delete_eq
        | rewrite lookup_insert_ne by discriminate
        | rewrite lookup_delete_ne by discriminate ].

(** X9.  On a dictionary that carries the three masks and integer
    [input_ids], the keyword arguments the model is called with hold none
    of the three masks, hold the filled [input_ids], hold under [labels]
    the same filled ids exactly when the model name contains ["t5"], and
    agree with the caller's dictionary on every other key. *)
Theorem PredictWrapper_call_kwargs (self : language_model) (h : heap) (d : loc)
    (entries : gmap string loc) (li ltm lpm llm : loc)
    (ids : list (list Z)) (tmask : list (list bool)) (lm : lm_type)
    (trigger_ids : list Z) :
  dicts h !! d = Some entries →
  entries !! "input_ids" = Some li →
  entries !! "trigger_mask" = Some ltm →
  entries !! "predict_mask" = Some lpm →
  entries !! "last_trigger_mask" = Some llm →
  (∀ k l, entries !! k = Some l → is_Some (tensors h !! l)) →
  tensors h !! li = Some (TInt ids) →
  tensors h !! ltm = Some (TBool tmask) →
  LM_TYPE !! name_or_path self = Some lm →
  ∃ kwargs,
    (PredictWrapper_call self d trigger_ids h).1
    = (logits ← forward self kwargs;
       mask ← tensors h !! (if decide (lm = causal) then llm else lpm) ≫= as_bool;
       flat ← Torch.masked_select_unsqueeze logits mask;
       Torch.view_rows (length logits) flat)
    ∧ kwargs !! "trigger_mask" = None
    ∧ kwargs !! "predict_mask" = None
    ∧ kwargs !! "last_trigger_mask" = None
    ∧ kwargs !! "input_ids" = Some (TInt (filled_ids ids tmask trigger_ids))
    ∧ (Py.contains "t5" (name_or_path self) = true →
       kwargs !! "labels" = Some (TInt (filled_ids ids tmask trigger_ids)))
    ∧ ∀ k l,
        k ∉ ["trigger_mask"; "predict_mask"; "last_trigger_mask"; "input_ids"; "labels"] →
        entries !! k = Some l → kwargs !! k = tensors h !! l.
Proof.
  intros Hd Hli Hltm Hlpm Hllm Hclosed Hids Htmask Hlm.
  eexists. split.
  { by apply (PredictWrapper_call_eval self h d entries li ltm lpm llm ids tmask lm). }
  unfold model_kwargs.
  assert (Hother : ∀ (m : gmap string tensor) k l,
    k ∉ ["trigger_mask"; "predict_mask"; "last_trigger_mask"; "input_ids"; "labels"] →
    entries !! k = Some l →
    (omap (λ l, tensors h !! l) entries !! k = tensors h !! l)
    ∧ "labels" ≠ k ∧ "input_ids" ≠ k ∧ "last_trigger_mask" ≠ k
    ∧ "predict_mask" ≠ k ∧ "trigger_mask" ≠ k).
  { intros _ k l Hk Hl.
    apply not_elem_of_cons in Hk as [? Hk]. apply not_elem_of_cons in Hk as [? Hk].
    apply not_elem_of_cons in Hk as [? Hk]. apply not_elem_of_cons in Hk as [? Hk].
    apply not_elem_of_cons in Hk as [? _].
    split; [by rewrite lookup_omap, Hl|]. by repeat split. }
  destruct (Py.contains "t5" (name_or_path self)).
  - split; [by repeat lookup_step|]. split; [by repeat lookup_step|].
    split; [by repeat lookup_step|]. split; [by repeat lookup_step|].
    split; [intros _; by repeat lookup_step|].
    intros k l Hk Hl.
    destruct (Hother ∅ k l Hk Hl) as (Hview & ? & ? & ? & ? & ?).
    by rewrite !lookup_insert_ne, !lookup_delete_ne by done.
  - split; [by repeat lookup_step|]. split; [by repeat lookup_step|].
    split; [by repeat lookup_step|]. split; [by repeat lookup_step|].
    split; [done|].
    intros k l Hk Hl.
    destruct (Hother ∅ k l Hk Hl) as (Hview & ? & ? & ? & ? & ?).
    by rewrite !lookup_insert_ne, !lookup_delete_ne by done.
Qed.

Lemma PredictWrapper_call_kwargs_witness :
  ∃ kwargs,
    (PredictWrapper_call (sample_model "t5-small") 0 [42]%Z sample_heap).1
    = (logits ← sample_forward kwargs;
       flat ← Torch.masked_select_unsqueeze logits [[false; true; false]];
       Torch.view_rows (length logits) flat)
    ∧ kwargs !! "predict_mask" = None
    ∧ kwargs !! "labels" = Some (TInt [[42; 6; 7]]%Z).
Proof.
  destruct (PredictWrapper_call_kwargs (sample_model "t5-small") sample_heap 0
              {[ "input_ids" := 1; "trigger_mask" := 2;
                 "predict_mask" := 3; "last_trigger_mask" := 4 ]}
              1 2 3 4 [[5; 6; 7]]%Z [[true; false; false]] seq2seq [42]%Z)
    as (kwargs & Hcall & _ & Hpm & _ & _ & Hlabels & _); try reflexivity.
  { intros k l Hk.
    destruct (decide (k = "input_ids")) as [->|]; [by simplify_map_eq|].
    destruct (decide (k = "trigger_mask")) as [->|]; [by simplify_map_eq|].
    destruct (decide (k = "predict_mask")) as [->|]; [by simplify_map_eq|].
    destruct (decide (k = "last_trigger_mask")) as [->|]; [by simplify_map_eq|].
    by simplify_map_eq. }
  exists kwargs. split; [exact Hcall|]. split; [exact Hpm|].
  exact (Hlabels eq_refl).
Defined.

(** ** Fallbacks of [replace_trigger_tokens] *)







(** A mask of one row for ids of two rows is no error: it is broadcast,
    and a new tensor is filled, row after row, from the trigger ids. *)
Lemma replace_trigger_tokens_broadcast_mask :
  ∃ out h',
    replace_trigger_tokens 0 [9; 4]%Z 2 broadcast_heap = (Some out, h')
    ∧ dict_entry h' out "input_ids" = Some (TInt [[9; 6]; [4; 8]]%Z).
Proof. eexists _, _. split; vm_compute; reflexivity. Qed.

(** ** [iterate_batches]: shuffling and degenerate batch sizes *)

Lemma mapM_lookup_seq {A} (l : list A) :
  mapM (λ i, l !! i) (seq 0 (length l)) = Some l.
Proof.
  apply mapM_Some. apply Forall2_same_length_lookup_2; [by rewrite length_seq|].
  intros i x y Hx Hy. apply lookup_seq in Hx as [-> _]. done.
Qed.

Lemma mapM_Permutation {A B} (f : A → option B) (l l' : list A) (k : list B) :
  l ≡ₚ l' → mapM f l = Some k → ∃ k', mapM f l' = Some k' ∧ k ≡ₚ k'.
Proof.
  intros Hp. revert k.
  induction Hp as [|x l l' Hp IH|x y l|l l' l'' Hp1 IH1 Hp2 IH2]; intros k Hk.
  - by exists k.
  - cbn in Hk. destruct (f x) as [y|] eqn:Hy; [|done]. cbn in Hk.
    destruct (mapM f l) as [k0|] eqn:Hk0; [|done]. cbn in Hk. injection Hk as <-.
    destruct (IH k0 eq_refl) as (k' & Hk' & Hperm).
    exists (y :: k'). cbn. rewrite Hy. cbn. rewrite Hk'. cbn.
    split; [done|]. by constructor.
  - cbn in Hk. destruct (f y) as [fy|] eqn:Hy; [|done]. cbn in Hk.
    destruct (f x) as [fx|] eqn:Hx; [|done]. cbn in Hk.
    destruct (mapM f l) as [k0|] eqn:Hk0; [|done]. cbn in Hk. injection Hk as <-.
    exists (fx :: fy :: k0). cbn. rewrite Hx, Hy. cbn. rewrite Hk0. cbn.
    split; [done|]. apply perm_swap.
  - destruct (IH1 k Hk) as (k1 & Hk1 & Hperm1).
    destruct (IH2 k1 Hk1) as (k2 & Hk2 & Hperm2).
    exists k2. split; [done|]. by etrans.
Qed.

(** The entries of an array at a permutation of its indices. *)
Lemma shuffled_entries {B} (arr : list B) (indices : list nat) :
  indices ≡ₚ seq 0 (length arr) →
  ∃ vs, mapM (λ i, arr !! i) indices = Some vs ∧ arr ≡ₚ vs.
Proof.
  intros Hperm.
  apply (mapM_Permutation (λ i, arr !! i) _ _ arr (symmetry Hperm)).
  apply mapM_lookup_seq.
Qed.

Lemma mapM_window {A B} (f : A → option B) (l : list A) (k : list B) n j :
  mapM f l = Some k →
  mapM f (Torch.window n l j) = Some (Torch.window n k j).
Proof.
  intros H%mapM_Some. apply mapM_Some. unfold Torch.window.
  by apply Forall2_take, Forall2_drop.
Qed.

Lemma iterate_batches_shuffled_windows {A B} (np_array : list A → option (list B))
    indices (inputs : list A) (arr : list B) bs vs :
  (0 < bs)%Z → np_array inputs = Some arr →
  length indices = length inputs →
  mapM (λ i, arr !! i) indices = Some vs →
  iterate_batches np_array indices inputs bs true
  = Some (map (Torch.window (Z.to_nat bs) vs)
              (seq 0 (num_batches (length inputs) bs))).
Proof.
  intros Hbs Harr Hlen Hvs. unfold iterate_batches, Py.range. rewrite Harr.
  cbn [mbind option_bind].
  destruct (decide (bs = 0)%Z) as [|_]; [lia|].
  destruct (decide (0 < bs)%Z) as [_|]; [|lia].
  cbn [mbind option_bind]. fold (num_batches (length inputs) bs).
  apply mapM_Some. apply Forall2_fmap, Forall_Forall2_diag, Forall_forall.
  intros k _. cbv beta zeta. rewrite <- Hlen, slice_window by done.
  by apply mapM_window.
Qed.

Lemma windows_cover {A} (l : list A) size bs :
  (0 < bs)%Z → length l = size →
  concat (map (Torch.window (Z.to_nat bs) l) (seq 0 (num_batches size bs))) = l.
Proof.
  intros Hbs Hlen. rewrite concat_windows. apply take_ge.
  destruct (decide (size = 0)) as [->|Hne]; [lia|].
  destruct (num_batches_bounds size bs) as (_ & _ & ?); lia.
Qed.

(** X11.  For a positive [batch_size] and [shuffle=True], where [indices]
    is the permutation of [0 .. size-1] that [np.random.shuffle] leaves
    and [np.array] makes of the input an array with one entry per element,
    the batches taken in order are the entries of the array in the
    shuffled order, so every entry is delivered exactly once; and the
    batches have the very lengths of the batches of the unshuffled run. *)
Theorem iterate_batches_shuffle {A B} (np_array : list A → option (list B))
    (indices : list nat) (inputs : list A) (arr : list B) (batch_size : Z) :
  (0 < batch_size)%Z →
  np_array inputs = Some arr → length arr = length inputs →
  indices ≡ₚ seq 0 (length inputs) →
  ∃ batches,
    iterate_batches np_array indices inputs batch_size true = Some batches
    ∧ mapM (λ i, arr !! i) indices = Some (concat batches)
    ∧ concat batches ≡ₚ arr
    ∧ ∃ plain,
        iterate_batches np_array indices inputs batch_size false = Some plain
        ∧ map length batches = map length plain.
Proof.
  intros Hbs Harr Hlen Hperm.
  assert (Hilen : length indices = length inputs).
  { apply Permutation_length in Hperm. by rewrite length_seq in Hperm. }
  rewrite <- Hlen in Hperm.
  destruct (shuffled_entries arr indices Hperm) as (vs & Hvs & Hpvs).
  assert (Hvlen : length vs = length inputs).
  { rewrite <- Hlen. symmetry. by apply Permutation_length. }
  eexists. split; [by eapply iterate_batches_shuffled_windows|].
  rewrite windows_cover by done.
  split; [done|]. split; [done|].
  eexists. split; [by eapply iterate_batches_windows|].
  rewrite !map_map. apply map_ext. intros k.
  by rewrite !window_length, Hvlen, Hlen.
Qed.

Lemma iterate_batches_shuffle_witness :
  ∃ batches,
    iterate_batches np_array_ints [2; 0; 1] [10; 20; 30]%Z 2 true = Some batches
    ∧ concat batches ≡ₚ map np_int64 [10; 20; 30]%Z.
Proof.
  destruct (iterate_batches_shuffle np_array_ints [2; 0; 1] [10; 20; 30]%Z
              (map np_int64 [10; 20; 30]%Z) 2)
    as (batches & Hrun & _ & Hperm & _); [lia|reflexivity|reflexivity| |by exists batches].
  change ([2; 0; 1] ≡ₚ [0; 1; 2]).
  etrans; [apply Permutation_cons_append|]. reflexivity.
Defined.

(** X12.  When [np.array] accepts the input, [iterate_batches] raises
    exactly when [batch_size] is zero (the [range] of the loop has a zero
    step), provided the indices of a shuffled run are in range; and a
    negative [batch_size] yields no batch at all, whatever the input. *)
Theorem iterate_batches_degenerate {A B} (np_array : list A → option (list B))
    (indices : list nat) (inputs : list A) (arr : list B)
    (batch_size : Z) (shuffle : bool) :
  np_array inputs = Some arr → length arr = length inputs →
  (shuffle = true → indices ≡ₚ seq 0 (length inputs)) →
  (iterate_batches np_array indices inputs batch_size shuffle = None
   ↔ batch_size = 0%Z)
  ∧ ((batch_size < 0)%Z →
     iterate_batches np_array indices inputs batch_size shuffle = Some []).
Proof.
  intros Harr Hlen Hperm.
  assert (Hneg : (batch_size < 0)%Z →
                 iterate_batches np_array indices inputs batch_size shuffle
                 = Some []).
  { intros Hneg. unfold iterate_batches, Py.range. rewrite Harr.
    cbn [mbind option_bind].
    destruct (decide (batch_size = 0)%Z) as [|_]; [lia|].
    destruct (decide (0 < batch_size)%Z) as [|_]; [lia|].
    destruct (decide (_ < 0)%Z) as [|_]; [lia|]. done. }
  split; [split|done].
  - intros Hnone. destruct (Z.lt_trichotomy batch_size 0) as [Hlt|[->|Hpos]];
      [|done|].
    + rewrite Hneg in Hnone by done. done.
    + destruct shuffle.
      * specialize (Hperm eq_refl).
        assert (Hilen : length indices = length inputs).
        { apply Permutation_length in Hperm. by rewrite length_seq in Hperm. }
        rewrite <- Hlen in Hperm.
        destruct (shuffled_entries arr indices Hperm) as (vs & Hvs & _).
        by rewrite (iterate_batches_shuffled_windows np_array indices inputs arr
                      batch_size vs) in Hnone.
      * by rewrite (iterate_batches_windows np_array indices inputs arr) in Hnone.
  - intros ->. unfold iterate_batches, Py.range. rewrite Harr.
    cbn [mbind option_bind]. by rewrite decide_True.
Qed.

Lemma iterate_batches_degenerate_witness :
  iterate_batches np_array_ints [] [10; 20; 30]%Z 0 false = None
  ∧ iterate_batches np_array_ints [] [10; 20; 30]%Z (-2) false = Some [].
Proof.
  split.
  - apply (iterate_batches_degenerate np_array_ints [] [10; 20; 30]%Z
             (map np_int64 [10; 20; 30]%Z) 0 false);
      [reflexivity|reflexivity|discriminate|done].
  - apply (iterate_batches_degenerate np_array_ints [] [10; 20; 30]%Z
             (map np_int64 [10; 20; 30]%Z) (-2) false);
      [reflexivity|reflexivity|discriminate|lia].
Defined.

(** ** [AccuracyFn.predict] *)

Lemma stack_last_length {A} bsz (cols : list (list A)) rows :
  stack_last bsz cols = Some rows → length rows = bsz ∧ cols ≠ [].
Proof.
  unfold stack_last. destruct cols as [|col cols]; [done|].
  destruct (forallb _ _); [|done].
  intros H%mapM_Some_1%Forall2_length. by rewrite length_seq in H.
Qed.

(** The row of example [b] in the stacked losses holds the loss of every
    label on the logits of that example. *)
Lemma stacked_label_losses F (all_label_ids : list (list Z)) predict_logits
    cols rows b logits row :
  mapM (λ label_ids,
          get_loss F predict_logits (replicate (length predict_logits) label_ids))
       all_label_ids = Some cols →
  stack_last (length predict_logits) cols = Some rows →
  predict_logits !! b = Some logits → rows !! b = Some row →
  mapM (get_loss_row F logits) all_label_ids = Some row.
Proof.
  intros Hcols Hrows Hlogits Hrow.
  assert (Hb : b < length predict_logits) by by eapply lookup_lt_Some.
  apply mapM_Some_2.
  unfold stack_last in Hrows. destruct cols as [|col0 cols']; [done|].
  set (cols := col0 :: cols') in *.
  destruct (forallb _ cols); [|done].
  apply mapM_Some_1 in Hrows.
  apply (Forall2_lookup_l _ _ _ b b) in Hrows as (row' & Hrow' & Hcolsb);
    [|by apply lookup_seq].
  simplify_eq. apply mapM_Some_1 in Hcolsb. apply mapM_Some_1 in Hcols.
  eapply Forall2_trans; [|exact Hcols|exact Hcolsb].
  intros lab col x Hcol Hx. cbn in Hx.
  destruct (get_loss_lookup _ _ (replicate (length predict_logits) lab) _ b
              logits lab Hcol Hlogits) as (y & Hy & Hyrow);
    [by apply lookup_replicate_2|].
  congruence.
Qed.

(** X13.  When [AccuracyFn.predict] returns, it returns one label per
    example, and the label of an example is the one at the position of
    the label ids whose loss on that example is the largest, the first
    such position when several are: the label the model finds least
    likely. *)
Theorem AccuracyFn_predict_largest_loss (F : float_fns) (self : AccuracyFn)
    (predict_logits : list (list Q)) (predictions : list string) :
  AccuracyFn_predict F self predict_logits = Some predictions →
  length predictions = length predict_logits
  ∧ _all_label_ids self ≠ []
  ∧ ∀ b logits label,
      predict_logits !! b = Some logits → predictions !! b = Some label →
      ∃ j label_ids loss,
        _pred_to_label self !! j = Some label
        ∧ _all_label_ids self !! j = Some label_ids
        ∧ get_loss_row F logits label_ids = Some loss
        ∧ (∀ j' ids' loss',
             _all_label_ids self !! j' = Some ids' →
             get_loss_row F logits ids' = Some loss' → (loss' <= loss)%Q)
        ∧ (∀ j' ids' loss',
             j' < j → _all_label_ids self !! j' = Some ids' →
             get_loss_row F logits ids' = Some loss' → (loss' < loss)%Q).
Proof.
  unfold AccuracyFn_predict. intros Hcall.
  destruct (mapM _ (_all_label_ids self)) as [cols|] eqn:Hcols; [|done].
  cbn [mbind option_bind] in Hcall.
  destruct (stack_last _ cols) as [rows|] eqn:Hrows; [|done].
  cbn [mbind option_bind] in Hcall.
  destruct (stack_last_length _ _ _ Hrows) as [Hrl Hne].
  apply mapM_Some_1 in Hcall.
  split; [apply Forall2_length in Hcall; lia|].
  split.
  { intros Hnil. rewrite Hnil in Hcols. cbn in Hcols. by injection Hcols as <-. }
  intros b logits label Hlogits Hlabel.
  eapply Forall2_lookup_r in Hcall as (row & Hrow & Hpred); [|exact Hlabel].
  pose proof (stacked_label_losses _ _ _ _ _ _ _ _ Hcols Hrows Hlogits Hrow)
    as Hlosses%mapM_Some_1.
  destruct (Torch.argmax row) as [j|] eqn:Hj; [|done].
  cbn [mbind option_bind] in Hpred.
  destruct (argmax_spec _ _ Hj) as (loss & Hloss & Hmax & Hfirst).
  eapply Forall2_lookup_r in Hlosses as Hj'; [|exact Hloss].
  destruct Hj' as (label_ids & Hids & Hrowloss).
  exists j, label_ids, loss. split; [done|]. split; [done|]. split; [done|].
  split.
  - intros j' ids' loss' Hids' Hloss'.
    eapply Forall2_lookup_l in Hlosses as (x & Hx & Hxrow); [|exact Hids'].
    apply Hmax. apply list_elem_of_lookup. exists j'. congruence.
  - intros j' ids' loss' Hlt Hids' Hloss'.
    eapply Forall2_lookup_l in Hlosses as (x & Hx & Hxrow); [|exact Hids'].
    apply (Hfirst j'); [done|]. congruence.
Qed.

Lemma AccuracyFn_predict_largest_loss_witness :
  ∃ predictions,
    AccuracyFn_predict sample_float sample_accuracy [[0; 1; 0]%Q; [1; 0; 0]%Q]
    = Some predictions
    ∧ length predictions = 2.
Proof.
  destruct (AccuracyFn_predict sample_float sample_accuracy
              [[0; 1; 0]%Q; [1; 0; 0]%Q]) as [predictions|] eqn:H;
    [|by vm_compute in H].
  exists predictions. split; [reflexivity|].
  by destruct (AccuracyFn_predict_largest_loss _ _ _ _ H) as [-> _].
Defined.

(** ** [utils.make_batch] *)

Lemma slice_nonneg {A} (l : list A) (a n : Z) :
  (0 ≤ a)%Z → (0 ≤ n)%Z → (a + n ≤ Z.of_nat (length l))%Z →
  Utils.slice l a (a + n) = take (Z.to_nat n) (drop (Z.to_nat a) l).
Proof.
  intros Ha Hn Hlen. unfold Utils.slice, Utils.clamp.
  destruct (decide (a + n < 0)%Z) as [|_]; [lia|].
  destruct (decide (a < 0)%Z) as [|_]; [lia|].
  f_equal; [lia|]. f_equal. lia.
Qed.

Lemma at_mask_app a b c d :
  length a = length c →
  Utils.at_mask (a ++ b) (c ++ d) = Utils.at_mask a c ++ Utils.at_mask b d.
Proof.
  intros Hlen. unfold Utils.at_mask.
  rewrite zip_with_app by done.
  by rewrite filter_app, fmap_app.
Qed.

Lemma at_mask_zeros row n : Utils.at_mask row (replicate n 0%Z) = [].
Proof.
  revert n. induction row as [|x row IH]; intros [|n]; try done.
  unfold Utils.at_mask in *. cbn [replicate zip zip_with].
  rewrite filter_cons, decide_False by done. apply IH.
Qed.

Lemma at_mask_ones row n :
  length row = n → Utils.at_mask row (replicate n 1%Z) = row.
Proof.
  revert n. induction row as [|x row IH]; intros [|n] Hlen; try done.
  unfold Utils.at_mask in *. cbn [replicate zip zip_with].
  rewrite filter_cons, decide_True by done. cbn. f_equal. apply IH.
  by injection Hlen.
Qed.

Lemma length_times {A} (v : A) (n : nat) :
  length (Utils.times v (Z.of_nat n)) = n.
Proof. unfold Utils.times. by rewrite length_replicate, Nat2Z.id. Qed.

Section MakeBatch.
Variable int_ : string → option Z.
Variable tk : Utils.tokenizer.
Variables (trigger_tokens : list Z) (prompt_format : list string).
Variables (cls_token sep_token mask_token pad_token period_token : list Z).

Lemma part_count_nonneg part :
  Utils.valid_part int_ part → (0 ≤ Utils.part_count int_ part)%Z.
Proof.
  unfold Utils.part_count. intros Hvalid.
  destruct (decide (part = "X")) as [|HX]; [done|].
  destruct (decide (part = "Y")) as [|HY]; [done|].
  destruct Hvalid as [?|[?|(k & -> & Hk)]]; done.
Qed.

Lemma trigger_total_cons part parts :
  Utils.trigger_total int_ (part :: parts)
  = (Utils.part_count int_ part + Utils.trigger_total int_ parts)%Z.
Proof. done. Qed.

Lemma trigger_total_nonneg parts :
  Forall (Utils.valid_part int_) parts → (0 ≤ Utils.trigger_total int_ parts)%Z.
Proof.
  induction 1 as [|part parts Hpart _ IH]; [done|]. rewrite trigger_total_cons.
  apply part_count_nonneg in Hpart. lia.
Qed.

Lemma add_part_aligned sub_tokens obj_tokens st part :
  length obj_tokens = length mask_token →
  Utils.valid_part int_ part →
  Utils.aligned trigger_tokens st →
  (Utils.trigger_idx st + Utils.part_count int_ part
   ≤ Z.of_nat (length trigger_tokens))%Z →
  ∃ st',
    Utils.add_part int_ trigger_tokens mask_token sub_tokens obj_tokens st part
    = Some st'
    ∧ Utils.aligned trigger_tokens st'
    ∧ Utils.trigger_idx st'
      = (Utils.trigger_idx st + Utils.part_count int_ part)%Z.
Proof.
  intros Hobj Hvalid (Hst & Htm & Hidx & Hat) Hbound.
  unfold Utils.add_part, Utils.part_count, Utils.aligned in *.
  destruct (decide (part = "X")) as [_|HX].
  { eexists. split; [done|].
    cbn [Utils.source Utils.target Utils.mask Utils.trigger_idx].
    split; [|lia].
    split; [by rewrite !length_app, length_times, Hst|].
    split; [by rewrite !length_app, !length_times, Htm|].
    split; [done|].
    rewrite at_mask_app by congruence.
    unfold Utils.times. by rewrite at_mask_zeros, app_nil_r. }
  destruct (decide (part = "Y")) as [_|HY].
  { eexists. split; [done|].
    cbn [Utils.source Utils.target Utils.mask Utils.trigger_idx].
    split; [|lia].
    split; [by rewrite !length_app, Hst, Hobj|].
    split; [by rewrite !length_app, length_times, Htm|].
    split; [done|].
    rewrite at_mask_app by congruence.
    unfold Utils.times. by rewrite at_mask_zeros, app_nil_r. }
  destruct Hvalid as [?|[?|(k & Hk & Hpos)]]; [done..|].
  rewrite Hk in *. cbn [default from_option mbind option_bind] in Hbound |- *.
  unfold id in Hbound.
  eexists. split; [done|].
  cbn [Utils.source Utils.target Utils.mask Utils.trigger_idx].
  split; [|done].
  rewrite slice_nonneg by done.
  assert (Hlen : length (take (Z.to_nat k)
                           (drop (Z.to_nat (Utils.trigger_idx st)) trigger_tokens))
                 = Z.to_nat k).
  { rewrite length_take, length_drop. lia. }
  unfold Utils.times.
  split; [by rewrite !length_app, Hlen, length_replicate, Hst|].
  split; [by rewrite !length_app, !length_replicate, Htm|].
  split; [lia|].
  rewrite at_mask_app by congruence.
  rewrite at_mask_ones by done. rewrite Hat.
  rewrite Z2Nat.inj_add by done. by rewrite take_take_drop.
Qed.

Lemma add_parts_aligned sub_tokens obj_tokens parts st :
  length obj_tokens = length mask_token →
  Forall (Utils.valid_part int_) parts →
  Utils.aligned trigger_tokens st →
  (Utils.trigger_idx st + Utils.trigger_total int_ parts
   ≤ Z.of_nat (length trigger_tokens))%Z →
  ∃ st',
    Utils.add_parts int_ trigger_tokens mask_token sub_tokens obj_tokens st parts
    = Some st'
    ∧ Utils.aligned trigger_tokens st'
    ∧ Utils.trigger_idx st'
      = (Utils.trigger_idx st + Utils.trigger_total int_ parts)%Z.
Proof.
  intros Hobj Hparts. revert st.
  induction Hparts as [|part parts Hpart Hparts IH]; intros st Hst Hbound.
  { exists st. split; [done|]. split; [done|]. cbn. lia. }
  rewrite trigger_total_cons in Hbound |- *.
  pose proof (trigger_total_nonneg parts Hparts) as Hrest.
  destruct (add_part_aligned sub_tokens obj_tokens st part Hobj Hpart Hst)
    as (st1 & Hstep & Hst1 & Hidx1); [lia|].
  destruct (IH st1 Hst1) as (st2 & Hrun & Hst2 & Hidx2); [lia|].
  exists st2. cbn [Utils.add_parts]. rewrite Hstep. cbn [mbind option_bind].
  split; [done|]. split; [done|]. lia.
Qed.

Lemma Forall_int64_times v n :
  Utils.int64 v → Forall Utils.int64 (Utils.times v n).
Proof. intros. by apply Forall_replicate. Qed.

Lemma tensor_Some l : Forall Utils.int64 l → Utils.tensor l = Some l.
Proof. intros. unfold Utils.tensor. by rewrite decide_True. Qed.

Lemma add_part_int64 sub_tokens obj_tokens st part st' :
  Forall Utils.int64 trigger_tokens → Forall Utils.int64 mask_token →
  Forall Utils.int64 sub_tokens → Forall Utils.int64 obj_tokens →
  Forall Utils.int64 (Utils.source st) → Forall Utils.int64 (Utils.target st) →
  Forall Utils.int64 (Utils.mask st) →
  Utils.add_part int_ trigger_tokens mask_token sub_tokens obj_tokens st part
  = Some st' →
  Forall Utils.int64 (Utils.source st') ∧ Forall Utils.int64 (Utils.target st')
  ∧ Forall Utils.int64 (Utils.mask st').
Proof.
  intros Htrig Hmask Hsub Hobj Hs Ht Hm. unfold Utils.add_part.
  assert (Hminus : Utils.int64 (-1)%Z) by (by vm_compute).
  assert (Hzero : Utils.int64 0%Z) by (by vm_compute).
  assert (Hone : Utils.int64 1%Z) by (by vm_compute).
  destruct (decide (part = "X")) as [_|_].
  { intros [= <-]. cbn [Utils.source Utils.target Utils.mask].
    rewrite !Forall_app. by auto using Forall_int64_times. }
  destruct (decide (part = "Y")) as [_|_].
  { intros [= <-]. cbn [Utils.source Utils.target Utils.mask].
    rewrite !Forall_app. by auto using Forall_int64_times. }
  destruct (int_ part) as [k|]; [|done]. cbn [mbind option_bind].
  intros [= <-]. cbn [Utils.source Utils.target Utils.mask].
  rewrite !Forall_app. split; [|by auto using Forall_int64_times].
  split; [done|]. unfold Utils.slice. by apply Forall_take, Forall_drop.
Qed.

Lemma add_parts_int64 sub_tokens obj_tokens parts st st' :
  Forall Utils.int64 trigger_tokens → Forall Utils.int64 mask_token →
  Forall Utils.int64 sub_tokens → Forall Utils.int64 obj_tokens →
  Forall Utils.int64 (Utils.source st) → Forall Utils.int64 (Utils.target st) →
  Forall Utils.int64 (Utils.mask st) →
  Utils.add_parts int_ trigger_tokens mask_token sub_tokens obj_tokens st parts
  = Some st' →
  Forall Utils.int64 (Utils.source st') ∧ Forall Utils.int64 (Utils.target st')
  ∧ Forall Utils.int64 (Utils.mask st').
Proof.
  intros Htrig Hmask Hsub Hobj. revert st.
  induction parts as [|part parts IH]; intros st Hs Ht Hm Hrun.
  { by injection Hrun as <-. }
  cbn [Utils.add_parts] in Hrun.
  destruct (Utils.add_part _ _ _ _ _ st part) as [st1|] eqn:Hstep; [|done].
  cbn [mbind option_bind] in Hrun.
  destruct (add_part_int64 _ _ _ _ _ Htrig Hmask Hsub Hobj Hs Ht Hm Hstep)
    as (? & ? & ?).
  by apply (IH st1).
Qed.

(** One sample: the four lists have one length, and the source holds the
    first trigger tokens at the positions the mask marks. *)
Lemma encode_sample_aligned sample :
  length cls_token = 1 → length sep_token = 1 → length period_token = 1 →
  Forall Utils.int64 cls_token → Forall Utils.int64 sep_token →
  Forall Utils.int64 period_token → Forall Utils.int64 mask_token →
  Forall Utils.int64 trigger_tokens →
  (∀ s, Forall Utils.int64 (Utils.convert_tokens_to_ids tk (Utils.tokenize tk s))) →
  Forall (Utils.valid_part int_) prompt_format →
  (Utils.trigger_total int_ prompt_format ≤ Z.of_nat (length trigger_tokens))%Z →
  length (Utils.convert_tokens_to_ids tk (Utils.tokenize tk sample.2))
  = length mask_token →
  ∃ e,
    Utils.encode_sample int_ tk trigger_tokens prompt_format false
      cls_token sep_token mask_token period_token sample = Some e
    ∧ length (Utils.target_tokens e) = length (Utils.source_tokens e)
    ∧ length (Utils.trigger_mask e) = length (Utils.source_tokens e)
    ∧ length (Utils.segment_ids e) = length (Utils.source_tokens e)
    ∧ Utils.at_mask (Utils.source_tokens e) (Utils.trigger_mask e)
      = take (Z.to_nat (Utils.trigger_total int_ prompt_format)) trigger_tokens.
Proof.
  intros Hcls Hsep Hperiod Rcls Rsep Rperiod Rmask Rtrig Rtok Hparts Htotal Hobj.
  destruct sample as [sub obj]. cbn [snd] in Hobj. unfold Utils.encode_sample.
  set (st0 := {| Utils.source := cls_token; Utils.target := [-1]%Z;
                 Utils.mask := [0]%Z; Utils.trigger_idx := 0 |}).
  assert (Hminus : Forall Utils.int64 [-1]%Z).
  { apply Forall_cons. split; [by vm_compute|]. by apply Forall_nil. }
  assert (Hzero : Forall Utils.int64 [0]%Z).
  { apply Forall_cons. split; [by vm_compute|]. by apply Forall_nil. }
  assert (Hst0 : Utils.aligned trigger_tokens st0).
  { unfold Utils.aligned, st0.
    cbn [Utils.source Utils.target Utils.mask Utils.trigger_idx].
    split; [by rewrite Hcls|]. split; [done|]. split; [done|].
    apply (at_mask_zeros cls_token 1). }
  destruct (add_parts_aligned
              (Utils.convert_tokens_to_ids tk (Utils.tokenize tk sub))
              (Utils.convert_tokens_to_ids tk (Utils.tokenize tk obj))
              prompt_format st0 Hobj Hparts Hst0)
    as (st & Hrun & (Hst & Htm & Hidx & Hat) & Hfinal); [by cbn|].
  destruct (add_parts_int64 _ _ prompt_format st0 st Rtrig Rmask (Rtok sub)
              (Rtok obj) Rcls Hminus Hzero Hrun) as (Rs & Rt & Rm).
  rewrite Hrun. cbn [mbind option_bind]. cbn in Hfinal.
  rewrite !tensor_Some; cycle 1.
  { by rewrite !Forall_app. }
  { by rewrite !Forall_app. }
  { by rewrite !Forall_app. }
  { apply Forall_int64_times. by vm_compute. }
  cbn [mbind option_bind].
  eexists. split; [done|].
  cbn [Utils.source_tokens Utils.target_tokens Utils.trigger_mask Utils.segment_ids].
  rewrite length_times, !length_app. cbn [length].
  split; [lia|]. split; [lia|]. split; [done|].
  rewrite !at_mask_app by (rewrite ?length_app; cbn [length]; lia).
  rewrite (at_mask_zeros period_token 1 : Utils.at_mask _ [0%Z] = []).
  rewrite (at_mask_zeros sep_token 1 : Utils.at_mask _ [0%Z] = []), !app_nil_r.
  by rewrite Hat, Hfinal.
Qed.

Lemma pad_sequence_length rows v :
  length (Utils.pad_sequence rows v) = length rows.
Proof. unfold Utils.pad_sequence. by rewrite length_map. Qed.

Lemma pad_sequence_rows rows v :
  Forall (λ r, length r = max_list (map length rows)) (Utils.pad_sequence rows v).
Proof.
  unfold Utils.pad_sequence. apply Forall_fmap, Forall_forall. intros r Hr. cbn.
  rewrite length_app, length_replicate.
  assert (length r ≤ max_list (map length rows)); [|lia].
  apply max_list_elem_of_le, list_elem_of_fmap. by exists r.
Qed.

(** X14.  Without context, with one id each for the [CLS], [SEP] and
    period tokens, with ids that fit [int64] and a padding id that a
    double holds exactly, with parts that are [X], [Y] or counts that are
    not negative and do not ask for more trigger tokens than there are,
    and with as many mask tokens as every object has tokens, [make_batch]
    returns four tensors of one shape (one row per sample); and in every
    row the source holds, at the positions where the trigger mask is one,
    exactly the first trigger tokens, in order. *)
Theorem make_batch_aligned (batch : list (string * string)) (pad : Z) :
  batch ≠ [] → pad_token !! 0 = Some pad → (Z.abs pad < 2 ^ 53)%Z →
  length cls_token = 1 → length sep_token = 1 → length period_token = 1 →
  Forall Utils.int64 cls_token → Forall Utils.int64 sep_token →
  Forall Utils.int64 period_token → Forall Utils.int64 mask_token →
  Forall Utils.int64 trigger_tokens →
  (∀ s, Forall Utils.int64 (Utils.convert_tokens_to_ids tk (Utils.tokenize tk s))) →
  Forall (Utils.valid_part int_) prompt_format →
  (Utils.trigger_total int_ prompt_format ≤ Z.of_nat (length trigger_tokens))%Z →
  Forall (λ sample,
            length (Utils.convert_tokens_to_ids tk (Utils.tokenize tk sample.2))
            = length mask_token) batch →
  ∃ src tgt tm seg width,
    Utils.make_batch int_ tk batch trigger_tokens prompt_format false
      cls_token sep_token mask_token pad_token period_token
    = Some (src, tgt, tm, seg)
    ∧ length src = length batch ∧ length tgt = length batch
    ∧ length tm = length batch ∧ length seg = length batch
    ∧ Forall (λ r, length r = width) src ∧ Forall (λ r, length r = width) tgt
    ∧ Forall (λ r, length r = width) tm ∧ Forall (λ r, length r = width) seg
    ∧ Forall2 (λ s m,
                 Utils.at_mask s m
                 = take (Z.to_nat (Utils.trigger_total int_ prompt_format))
                        trigger_tokens) src tm.
Proof.
  intros Hbatch Hpad Hpadv Hcls Hsep Hperiod Rcls Rsep Rperiod Rmask Rtrig Rtok
         Hparts Htotal Hobj.
  set (enc := Utils.encode_sample int_ tk trigger_tokens prompt_format false
                cls_token sep_token mask_token period_token).
  set (good := λ e : Utils.encoded,
    length (Utils.target_tokens e) = length (Utils.source_tokens e)
    ∧ length (Utils.trigger_mask e) = length (Utils.source_tokens e)
    ∧ length (Utils.segment_ids e) = length (Utils.source_tokens e)
    ∧ Utils.at_mask (Utils.source_tokens e) (Utils.trigger_mask e)
      = take (Z.to_nat (Utils.trigger_total int_ prompt_format)) trigger_tokens).
  assert (Henc : Forall (λ sample, ∃ e, enc sample = Some e ∧ good e) batch).
  { eapply Forall_impl; [exact Hobj|]. intros sample Hs.
    by apply encode_sample_aligned. }
  assert (Hrows : ∃ rows, mapM enc batch = Some rows ∧ Forall good rows
                          ∧ length rows = length batch).
  { clear Hbatch Hobj. induction Henc as [|sample batch (e & He & Hgood) _ IH].
    { by exists []. }
    destruct IH as (rows & Hrows & Hall & Hlen).
    exists (e :: rows). cbn. rewrite He. cbn. rewrite Hrows. cbn.
    split; [done|]. split; [by constructor|]. by rewrite Hlen. }
  destruct Hrows as (rows & Hrows & Hgood & Hlen).
  unfold Utils.make_batch. fold enc. rewrite Hrows. cbn [mbind option_bind].
  destruct (decide (rows = [])) as [->|_].
  { destruct batch; [done|discriminate Hlen]. }
  rewrite Hpad. cbn [mbind option_bind].
  assert (Hpv : Utils.padding_value pad = Some pad).
  { unfold Utils.padding_value, round_to_double. cbv zeta.
    destruct (decide (Z.abs pad < 2 ^ 53)%Z) as [_|]; [|done].
    rewrite decide_True; [done|]. unfold Utils.int64.
    assert (2 ^ 53 < 2 ^ 63)%Z by (by vm_compute). lia. }
  rewrite Hpv. cbn [mbind option_bind].
  assert (Hsame : ∀ (f : Utils.encoded → list Z),
    Forall (λ e, length (f e) = length (Utils.source_tokens e)) rows →
    map length (map f rows) = map length (map Utils.source_tokens rows)).
  { intros f Hf. rewrite !map_map. apply Forall_fmap_ext_1.
    eapply Forall_impl; [exact Hf|]. done. }
  assert (Htgt : map length (map Utils.target_tokens rows)
                 = map length (map Utils.source_tokens rows)).
  { apply Hsame. eapply Forall_impl; [exact Hgood|]. by intros e (? & _). }
  assert (Htm : map length (map Utils.trigger_mask rows)
                = map length (map Utils.source_tokens rows)).
  { apply Hsame. eapply Forall_impl; [exact Hgood|]. by intros e (_ & ? & _). }
  assert (Hseg : map length (map Utils.segment_ids rows)
                 = map length (map Utils.source_tokens rows)).
  { apply Hsame. eapply Forall_impl; [exact Hgood|]. by intros e (_ & _ & ? & _). }
  eexists _, _, _, _, (max_list (map length (map Utils.source_tokens rows))).
  split; [done|].
  rewrite !pad_sequence_length, !length_map.
  split; [done|]. split; [done|]. split; [done|]. split; [done|].
  split; [apply pad_sequence_rows|].
  split; [rewrite <- Htgt; apply pad_sequence_rows|].
  split; [rewrite <- Htm; apply pad_sequence_rows|].
  split; [rewrite <- Hseg; apply pad_sequence_rows|].
  unfold Utils.pad_sequence. rewrite Htm, !map_map.
  apply Forall2_fmap, Forall_Forall2_diag.
  eapply Forall_impl; [exact Hgood|]. intros e (_ & Hm & _ & Hat).
  cbn. rewrite at_mask_app by done.
  by rewrite at_mask_zeros, app_nil_r.
Qed.

(** X15.  [make_batch] raises whenever [use_ctx] is set (the name
    [context_tokens] is not bound) or the batch is empty ([np.max] of an
    empty list), and whenever [pad_token] is empty. *)
Theorem make_batch_raises (batch : list (string * string)) (use_ctx : bool) :
  use_ctx = true ∨ batch = [] ∨ pad_token = [] →
  Utils.make_batch int_ tk batch trigger_tokens prompt_format use_ctx
    cls_token sep_token mask_token pad_token period_token
  = None.
Proof.
  unfold Utils.make_batch. intros [ -> | [ -> | Hpad ] ].
  - destruct batch as [|[sub obj] batch]; [done|]. done.
  - done.
  - destruct (mapM _ batch) as [rows|]; [|done]. cbn [mbind option_bind].
    destruct (decide (rows = [])); [done|]. by rewrite Hpad.
Qed.

End MakeBatch.

Lemma make_batch_aligned_witness :
  ∃ src tgt tm seg,
    Utils.make_batch Utils.sample_int Utils.sample_bert [("ab", "c"); ("d", "e")]
      [7; 8; 9; 10]%Z ["X"; "2"; "Y"; "1"] false [101]%Z [102]%Z [103]%Z [0]%Z
      [46]%Z
    = Some (src, tgt, tm, seg)
    ∧ Forall2 (λ s m, Utils.at_mask s m = [7; 8; 9]%Z) src tm
    ∧ length src = 2.
Proof.
  assert (Hparts : Forall (Utils.valid_part Utils.sample_int) ["X"; "2"; "Y"; "1"]).
  { constructor; [by left|].
    constructor; [right; right; by exists 2%Z|].
    constructor; [right; by left|].
    constructor; [right; right; by exists 1%Z|].
    constructor. }
  assert (Hobj : Forall (λ sample : string * string,
                   length (Utils.convert_tokens_to_ids Utils.sample_bert
                             (Utils.tokenize Utils.sample_bert sample.2))
                   = length [103]%Z) [("ab", "c"); ("d", "e")]).
  { constructor; [reflexivity|]. constructor; [reflexivity|]. constructor. }
  assert (Hsmall : ∀ l, Forall (λ z, 0 ≤ z < 256)%Z l → Forall Utils.int64 l).
  { intros l Hl. eapply Forall_impl; [exact Hl|]. intros z Hz. cbv beta in Hz.
    unfold Utils.int64. assert (256 < 2 ^ 63)%Z by (by vm_compute). lia. }
  assert (Htok : ∀ s, Forall Utils.int64
                   (Utils.convert_tokens_to_ids Utils.sample_bert
                      (Utils.tokenize Utils.sample_bert s))).
  { intros s. apply Hsmall. cbn [Utils.convert_tokens_to_ids Utils.tokenize
                                  Utils.sample_bert].
    rewrite map_map. apply Forall_fmap, Forall_forall. intros c _. cbn.
    pose proof (N_ascii_bounded c). lia. }
  destruct (make_batch_aligned Utils.sample_int Utils.sample_bert
              [7; 8; 9; 10]%Z ["X"; "2"; "Y"; "1"] [101]%Z [102]%Z [103]%Z [0]%Z
              [46]%Z [("ab", "c"); ("d", "e")] 0%Z
              ltac:(discriminate) eq_refl ltac:(by vm_compute)
              eq_refl eq_refl eq_refl
              ltac:(apply Hsmall; repeat constructor; lia)
              ltac:(apply Hsmall; repeat constructor; lia)
              ltac:(apply Hsmall; repeat constructor; lia)
              ltac:(apply Hsmall; repeat constructor; lia)
              ltac:(apply Hsmall; repeat constructor; lia)
              Htok Hparts ltac:(by vm_compute) Hobj)
    as (src & tgt & tm & seg & width & Hrun & Hlen & _ & _ & _ & _ & _ & _ & _ & Hat).
  by exists src, tgt, tm, seg.
Defined.

Lemma make_batch_raises_witness :
  Utils.make_batch Utils.sample_int Utils.sample_bert [("ab", "c")]
    [7; 8; 9]%Z ["X"; "3"; "Y"] true [101]%Z [102]%Z [103]%Z [0]%Z [46]%Z
  = None.
Proof. apply make_batch_raises. by left. Defined.

(** ** [isupper] and the filter of candidate tokens *)

Lemma minus_1e32_nonzero : minus_1e32 ≠ 0%Q.
Proof. intros H. apply (f_equal Qnum) in H. by vm_compute in H. Qed.

Lemma filter_marks_iff len (S S' : nat → Prop) filter :
  (∀ i, S i ↔ S' i) → filter_marks len S filter → filter_marks len S' filter.
Proof.
  intros Hiff [Hlen Hmarks]. split; [done|]. intros i x Hx.
  destruct (Hmarks i x Hx) as [Hval Hm]. split; [done|]. by rewrite <- Hiff.
Qed.

Lemma position_lt len i p : position len i = Some p → p < len.
Proof.
  unfold position. intros H.
  destruct (decide (0 ≤ i < Z.of_nat len)%Z); [injection H as <-; lia|].
  destruct (decide (- Z.of_nat len ≤ i < 0)%Z); [injection H as <-; lia|done].
Qed.

Lemma filter_out_marks len S filter id filter' :
  filter_marks len S filter →
  filter_out filter id = Some filter' →
  ∃ p, position len id = Some p ∧ filter_marks len (λ i, S i ∨ i = p) filter'.
Proof.
  intros [Hlen Hmarks]. unfold filter_out. rewrite Hlen.
  destruct (position len id) as [p|] eqn:Hp; [|done].
  cbn [mbind option_bind]. intros [= <-]. exists p. split; [done|].
  split; [by rewrite length_insert|]. intros i x Hx.
  destruct (decide (i = p)) as [->|Hne].
  - rewrite list_lookup_insert_eq in Hx
      by (rewrite Hlen; by eapply position_lt).
    injection Hx as <-. split; [by left|]. split; [by right|done].
  - rewrite list_lookup_insert_ne in Hx by done.
    destruct (Hmarks i x Hx) as [Hval Hm]. split; [done|].
    rewrite Hm. split; [by left|]. by intros [?|?].
Qed.

Lemma filter_out_all_marks len S filter ids filter' :
  filter_marks len S filter →
  filter_out_all filter ids = Some filter' →
  filter_marks len
    (λ i, S i ∨ ∃ id, id ∈ ids ∧ position len id = Some i) filter'.
Proof.
  revert S filter. induction ids as [|id ids IH]; intros S filter Hmarks Hrun.
  { injection Hrun as <-. eapply filter_marks_iff; [|done].
    intros i. split; [by left|]. intros [?|(id & ?%elem_of_nil & _)]; done. }
  cbn [filter_out_all] in Hrun.
  destruct (filter_out filter id) as [filter1|] eqn:Hout; [|done].
  cbn [mbind option_bind] in Hrun.
  destruct (filter_out_marks _ _ _ _ _ Hmarks Hout) as (p & Hp & Hmarks1).
  eapply filter_marks_iff; [|by eapply IH]. intros i. cbn. split.
  - intros [[?| ->]|(id' & Hin & Hpos)]; [by left| |].
    + right. exists id. split; [by left|done].
    + right. exists id'. split; [by right|done].
  - intros [?|(id' & [->|Hin]%elem_of_cons & Hpos)]; [by left; left| |].
    + left. right. congruence.
    + right. by exists id'.
Qed.

Lemma filter_word_marks E len S filter entry filter' :
  filter_marks len S filter →
  filter_word E filter entry = Some filter' →
  filter_marks len
    (λ i, S i ∨ (filtered_word E entry ∧ position len entry.2 = Some i)) filter'.
Proof.
  intros Hmarks. destruct entry as [word idx].
  unfold filter_word, filtered_word. cbn [fst snd].
  destruct (decide (length word = 1 ∨ (tokenizer_vocab_size (tok E) ≤ idx)%Z))
    as [Hskip|Hkeep].
  { intros [= <-]. eapply filter_marks_iff; [|done]. intros i.
    split; [by left|]. intros [?|[(Hlen & Hlt & _) _]]; [done|].
    destruct Hskip; [done|lia]. }
  assert (Hword : length word ≠ 1 ∧ (idx < tokenizer_vocab_size (tok E))%Z).
  { split; [tauto|]. destruct (decide (idx < tokenizer_vocab_size (tok E))%Z);
      [done|]. destruct Hkeep. right. lia. }
  destruct Hword as [Hlen Hlt].
  destruct (bool_decide (idx ∈ all_special_ids (tok E))) eqn:Hspecial.
  - apply bool_decide_eq_true in Hspecial.
    destruct (filter_out filter idx) as [filter1|] eqn:Hout; [|done].
    cbn [mbind option_bind].
    destruct (filter_out_marks _ _ _ _ _ Hmarks Hout) as (p & Hp & Hmarks1).
    destruct (isupper _ idx (tok E)) as [[|]|] eqn:Hup; [| |done];
      cbn [mbind option_bind].
    + intros Hout2.
      destruct (filter_out_marks _ _ _ _ _ Hmarks1 Hout2) as (p' & Hp' & Hmarks2).
      eapply filter_marks_iff; [|done]. intros i. cbn. split.
      * intros [[?| ->]| ->]; [by left|right..]; (split; [by auto|done]).
      * intros [?|[_ Hpos]]; [by left; left|]. left. right. congruence.
    + intros [= <-]. eapply filter_marks_iff; [|done]. intros i. cbn. split.
      * intros [?| ->]; [by left|]. right. split; [by auto|done].
      * intros [?|[_ Hpos]]; [by left|]. right. congruence.
  - apply bool_decide_eq_false in Hspecial. cbn [mbind option_bind].
    destruct (isupper _ idx (tok E)) as [[|]|] eqn:Hup; [| |done];
      cbn [mbind option_bind].
    + intros Hout.
      destruct (filter_out_marks _ _ _ _ _ Hmarks Hout) as (p & Hp & Hmarks1).
      eapply filter_marks_iff; [|done]. intros i. cbn. split.
      * intros [?| ->]; [by left|]. right. split; [by auto|done].
      * intros [?|[_ Hpos]]; [by left|]. right. congruence.
    + intros [= <-]. eapply filter_marks_iff; [|done]. intros i. cbn.
      split; [by left|]. intros [?|[(_ & _ & [?|?]) _]]; done.
Qed.

Lemma filter_vocab_marks E len S filter vocab filter' :
  filter_marks len S filter →
  filter_vocab E filter vocab = Some filter' →
  filter_marks len
    (λ i, S i ∨ ∃ entry, entry ∈ vocab ∧ filtered_word E entry
                         ∧ position len entry.2 = Some i) filter'.
Proof.
  revert S filter. induction vocab as [|entry vocab IH]; intros S filter Hmarks Hrun.
  { injection Hrun as <-. eapply filter_marks_iff; [|done].
    intros i. split; [by left|]. intros [?|(e & ?%elem_of_nil & _)]; done. }
  cbn [filter_vocab] in Hrun.
  destruct (filter_word E filter entry) as [filter1|] eqn:Hword; [|done].
  cbn [mbind option_bind] in Hrun.
  pose proof (filter_word_marks _ _ _ _ _ _ Hmarks Hword) as Hmarks1.
  eapply filter_marks_iff; [|by eapply IH]. intros i. cbn. split.
  - intros [[?|[Hf Hpos]]|(e & Hin & Hf & Hpos)]; [by left| |].
    + right. exists entry. split; [by left|done].
    + right. exists e. split; [by right|done].
  - intros [?|(e & [->|Hin]%elem_of_cons & Hf & Hpos)]; [by left; left| |].
    + left. by right.
    + right. by exists e.
Qed.

(** X16.  When the filter is built, it has [config.vocab_size] entries,
    each [-1e32] or zero.  Without [--filter] all are zero.  With it, an
    entry is [-1e32] exactly when its position is that of a label id (of
    the label map, or of the training examples when there is no label
    map) or of a vocabulary word of more than one character, with an id
    below [tokenizer.vocab_size], that is a special token or for which
    [isupper] holds.  One-character words are never filtered by the
    vocabulary loop. *)
Theorem build_filter_entries (E : environment) (a : Args.t) (filter : list Q) :
  build_filter E a = Some filter →
  length filter = vocab_size E
  ∧ ∀ i x, filter !! i = Some x →
      (x = minus_1e32 ∨ x = 0%Q)
      ∧ (x = minus_1e32 ↔
         Args.filter a = true
         ∧ ((∃ id, id ∈ label_token_ids E a
                   ∧ position (vocab_size E) id = Some i)
            ∨ ∃ entry, entry ∈ get_vocab (tok E) ∧ filtered_word E entry
                       ∧ position (vocab_size E) entry.2 = Some i)).
Proof.
  unfold build_filter. intros Hbuild.
  assert (Hzero : filter_marks (vocab_size E) (λ _, False)
                               (replicate (vocab_size E) 0%Q)).
  { split; [by rewrite length_replicate|]. intros i x [-> _]%lookup_replicate.
    split; [by right|]. split; [|done]. intros H. by destruct minus_1e32_nonzero. }
  destruct (Args.filter a).
  - destruct (filter_out_all _ _) as [filter1|] eqn:Hlabels; [|done].
    cbn [mbind option_bind] in Hbuild.
    pose proof (filter_out_all_marks _ _ _ _ _ Hzero Hlabels) as Hmarks1.
    destruct (filter_vocab_marks _ _ _ _ _ _ Hmarks1 Hbuild) as [Hlen Hmarks].
    split; [done|]. intros i x Hx. destruct (Hmarks i x Hx) as [Hval Hm].
    split; [done|]. rewrite Hm. split.
    + intros [[[]|?]|?]; (split; [done|]); [by left|by right].
    + intros [_ [?|?]]; [left; by right|by right].
  - injection Hbuild as <-. destruct Hzero as [Hlen Hmarks].
    split; [done|]. intros i x Hx. destruct (Hmarks i x Hx) as [Hval Hm].
    split; [done|]. rewrite Hm. split; [done|]. by intros [? _].
Qed.

Lemma build_filter_entries_witness :
  ∃ filter,
    build_filter
      {| model := sum_model; tok := sample_tokenizer; float := sample_float;
         vocab_size := 100;
         TriggerTemplatizer_init := λ _, sample_templatizer;
         encode_label := map (λ t, Z.of_nat (length t));
         str_isupper := λ c, bool_decide (65 ≤ c ∧ c ≤ 90)%N;
         train_dataset := [sample_batch];
         dev_loader := [sample_batch] |}
      {| Args.seed := 0; Args.model_name := "bert-base-cased";
         Args.output := "results"; Args.template := Some EmptyString;
         Args.train_parent_stem := []; Args.label_map := None;
         Args.filter := true; Args.print_lama := false;
         Args.use_ctx := false; Args.initial_trigger := None;
         Args.iters := 1; Args.accumulation_steps := 1;
         Args.num_cand := 2; Args.num_trigger_tokens := 1;
         Args.fast_tokenizer := 0 |}
    = Some filter
    ∧ length filter = 100.
Proof.
  destruct (build_filter _ _) as [filter|] eqn:H; [|by vm_compute in H].
  exists filter. split; [reflexivity|].
  by destruct (build_filter_entries _ _ _ H) as [-> _].
Defined.

(** X17.  [isupper] raises exactly when the token decodes to the empty
    string or, for the tokenizers listed as byte-pair encoders, to a lone
    space.  It answers [True] exactly when, for a byte-pair encoder, the
    decoded token is a space followed by an upper-case character, and for
    any other tokenizer, when its first character is upper case. *)
Theorem isupper_cases (str_isupper : N → bool) (idx : Z) (tk : tokenizer) :
  let decoded := decode tk [idx] in
  let bpe := tokenizer_name_or_path tk ∈ BPE_TOKENIZERS in
  (isupper str_isupper idx tk = None
   ↔ decoded = [] ∨ (bpe ∧ decoded = [32%N]))
  ∧ (isupper str_isupper idx tk = Some true
     ↔ (bpe ∧ ∃ c rest, decoded = 32%N :: c :: rest ∧ str_isupper c = true)
       ∨ (¬ bpe ∧ ∃ c rest, decoded = c :: rest ∧ str_isupper c = true)).
Proof.
  intros decoded bpe. unfold isupper. fold decoded.
  destruct (bool_decide_reflect (tokenizer_name_or_path tk ∈ BPE_TOKENIZERS))
    as [Hbpe|Hbpe]; fold bpe in Hbpe.
  - destruct decoded as [|c0 [|c1 rest]]; cbn [lookup list_lookup mbind option_bind].
    + split; [split; [by left|done]|].
      split; [done|]. intros [(_ & c & r & ? & _)|(_ & c & r & ? & _)]; done.
    + destruct (decide (c0 = 32%N)) as [->|Hne]; cbn [mbind option_bind].
      * split; [split; [by right|done]|].
        split; [done|]. intros [(_ & c & r & ? & _)|(? & _)]; done.
      * split; [split; [done|]; intros [?|[_ ?]]; congruence|].
        split; [done|]. intros [(_ & c & r & ? & _)|(? & _)]; done.
    + destruct (decide (c0 = 32%N)) as [->|Hne]; cbn [mbind option_bind].
      * split; [split; [done|]; intros [?|[_ ?]]; done|].
        split.
        -- intros [= Hup]. left. split; [done|]. by exists c1, rest.
        -- intros [(_ & c & r & [= -> ->] & Hup)|(? & _)]; [by rewrite Hup|done].
      * split; [split; [done|]; intros [?|[_ ?]]; done|].
        split; [done|].
        intros [(_ & c & r & [= ? ? ?] & _)|(? & _)]; done.
  - destruct decoded as [|c0 rest]; cbn [lookup list_lookup mbind option_bind].
    + split; [split; [by left|done]|].
      split; [done|]. intros [(? & _)|(_ & c & r & ? & _)]; done.
    + split; [split; [done|]; intros [?|[? _]]; done|].
      split.
      * intros [= Hup]. right. split; [done|]. by exists c0, rest.
      * intros [(? & _)|(_ & c & r & [= -> ->] & Hup)]; [done|by rewrite Hup].
Qed.
